(** * Temporal Dynamic Macros: a shallow embedding of
      [temporal_dynamic_macro.c] and the properties of its storage engine,
      recorder, state machine and playback driver.

    Conventions of the embedding.
    - C integers are [Z]; the wrap-around of [uint8_t], [uint16_t] and
      [uint32_t] is written out with the casts below.
    - A [tdm_keypress_t*] is an optional record index relative to
      [&MACRO_buffers[0][0]]: [None] is [NULL], [Some i] is
      [&MACRO_buffers[0][0] + i].  The address space of records is flat:
      an index outside the array is still an address, and [in_bounds] says
      whether it lies inside [MACRO_buffers].
    - The globals of the translation unit, the function-local [static] of
      [tdm_record_key], and the environment (pending deferred executions and
      the calls made to the keyboard, the LEDs and the console) are the
      fields of one record, [tdm], threaded through every function.
    - A function whose C body has a loop takes a [fuel] argument and returns
      an [option]: [None] stands for a [NULL] dereference or for a loop that
      has not finished within [fuel] iterations. *)

From Stdlib Require Import ZArith Lia.
From stdpp Require Import base tactics option list gmap strings.

Local Open Scope Z_scope.

(** ** Configuration

    [TDM_BUFFER_SIZE] is an overridable macro of [temporal_dynamic_macro.h];
    the other members are constants of the keyboard firmware (QMK) that the
    sources only name.  [qmk] below gives the header's default size and the
    firmware's values. *)

Class Config := {
  TDM_BUFFER_SIZE : Z;
  SAFE_RANGE : Z;
  KC_1 : Z; KC_9 : Z; KC_0 : Z;
  KC_P1 : Z; KC_P9 : Z; KC_P0 : Z;
  QK_MOMENTARY : Z; QK_MOMENTARY_MAX : Z;
  QK_TO : Z; QK_TO_MAX : Z;
  QK_TOGGLE_LAYER : Z; QK_TOGGLE_LAYER_MAX : Z;
  QK_LAYER_TAP_TOGGLE : Z; QK_LAYER_TAP_TOGGLE_MAX : Z;
  QK_ONE_SHOT_LAYER : Z; QK_ONE_SHOT_LAYER_MAX : Z;
  QK_TRI_LAYER_LOWER : Z; QK_TRI_LAYER_UPPER : Z;
  QK_ONE_SHOT_MOD : Z;
}.

Definition qmk_with_size (size : Z) : Config := {|
  TDM_BUFFER_SIZE := size;
  SAFE_RANGE := 0x7E40;
  KC_1 := 30; KC_9 := 38; KC_0 := 39;
  KC_P1 := 89; KC_P9 := 97; KC_P0 := 98;
  QK_MOMENTARY := 0x5220; QK_MOMENTARY_MAX := 0x523F;
  QK_TO := 0x5200; QK_TO_MAX := 0x521F;
  QK_TOGGLE_LAYER := 0x5260; QK_TOGGLE_LAYER_MAX := 0x527F;
  QK_LAYER_TAP_TOGGLE := 0x52C0; QK_LAYER_TAP_TOGGLE_MAX := 0x52DF;
  QK_ONE_SHOT_LAYER := 0x5280; QK_ONE_SHOT_LAYER_MAX := 0x529F;
  QK_TRI_LAYER_LOWER := 0x7C77; QK_TRI_LAYER_UPPER := 0x7C78;
  QK_ONE_SHOT_MOD := 0x52A0;
|}.

(** [#define TDM_BUFFER_SIZE 50] *)
Definition qmk : Config := qmk_with_size 50.

Definition TDM_NUM_MACROS : Z := 2.
Definition TDM_SILENT_RECORDED_KEYS : bool := false.
Definition TDM_SILENT_INVALID_KEYS : bool := true.
Definition TDM_DEBOUNCE_DELAY : Z := 100.

(** ** Integer casts *)

Definition uint8_t (x : Z) : Z := x mod 2 ^ 8.
Definition uint16_t (x : Z) : Z := x mod 2 ^ 16.
Definition uint32_t (x : Z) : Z := x mod 2 ^ 32.

(** ** Keypress records and their flag bits *)

Record tdm_keypress_t := {
  keycode : Z;   (* uint16_t *)
  delay_ms : Z;  (* uint32_t *)
  flags : Z;     (* uint8_t  *)
}.

Definition FLAG_pressed : Z := 1.
Definition FLAG_1 : Z := Z.shiftl 1 1.
Definition FLAG_3 : Z := Z.shiftl 1 2.
Definition FLAG_4 : Z := Z.shiftl 1 3.
Definition FLAG_5 : Z := Z.shiftl 1 4.
Definition FLAG_6 : Z := Z.shiftl 1 5.
Definition FLAG_7 : Z := Z.shiftl 1 6.
Definition FLAG_8 : Z := Z.shiftl 1 7.

Definition with_keycode (v : Z) (k : tdm_keypress_t) : tdm_keypress_t :=
  {| keycode := v; delay_ms := delay_ms k; flags := flags k |}.
Definition with_delay_ms (v : Z) (k : tdm_keypress_t) : tdm_keypress_t :=
  {| keycode := keycode k; delay_ms := v; flags := flags k |}.
Definition with_flags (v : Z) (k : tdm_keypress_t) : tdm_keypress_t :=
  {| keycode := keycode k; delay_ms := delay_ms k; flags := v |}.

(** [keypress->flags ^= (flag & -is_set) ^ ((keypress->flags) & flag);]
    [-is_set] is the [int] 0 or -1; the result is stored in a [uint8_t]. *)
Definition set_flag (keypress : tdm_keypress_t) (flag : Z) (is_set : bool)
  : tdm_keypress_t :=
  with_flags
    (uint8_t (Z.lxor (flags keypress)
                (Z.lxor (Z.land flag (- Z.b2z is_set))
                        (Z.land (flags keypress) flag))))
    keypress.

(** [return (bool)(keypress->flags & flag);] *)
Definition is_set (keypress : tdm_keypress_t) (flag : Z) : bool :=
  negb (Z.land (flags keypress) flag =? 0).

Definition clear_flags (keypress : tdm_keypress_t) : tdm_keypress_t :=
  with_flags 0 keypress.

(** The value of a statically allocated record that was never written. *)
Definition zero_keypress : tdm_keypress_t :=
  {| keycode := 0; delay_ms := 0; flags := 0 |}.

(** ** Modes, transition actions and deferred callbacks *)

Inductive State :=
  | STATE_recording
  | STATE_recording_delay
  | STATE_playing
  | STATE_looping
  | STATE_selecting
  | STATE_idle.

#[global] Instance State_eq_dec : EqDecision State.
Proof. solve_decision. Defined.

(** The value of the enumerator, used to index [transition_matrix]. *)
Definition State_index (st : State) : nat :=
  match st with
  | STATE_recording => 0
  | STATE_recording_delay => 1
  | STATE_playing => 2
  | STATE_looping => 3
  | STATE_selecting => 4
  | STATE_idle => 5
  end%nat.

Definition state_to_string (st : State) : string :=
  match st with
  | STATE_recording => "recording"
  | STATE_recording_delay => "recorging delay"
  | STATE_playing => "playing"
  | STATE_looping => "looping"
  | STATE_selecting => "selecting"
  | STATE_idle => "idle"
  end.

(** A non-null [TransitionFunction] is the name of the function it points
    to; [NULL] is [None]. *)
Inductive TransitionFunction :=
  | tdm_record_start_fn
  | tdm_record_delay_start_fn
  | tdm_record_delay_end_fn
  | tdm_record_end_fn
  | tdm_play_start_fn
  | tdm_play_stop_fn
  | tdm_loop_start_fn
  | tdm_select_start_fn
  | tdm_select_end_fn.

#[global] Instance TransitionFunction_eq_dec : EqDecision TransitionFunction.
Proof. solve_decision. Defined.

Inductive DeferCallback :=
  | tdm_delay_callback_fn
  | tdm_loop_callback_fn.

#[global] Instance DeferCallback_eq_dec : EqDecision DeferCallback.
Proof. solve_decision. Defined.

(** ** The environment

    What the firmware is asked to do, in call order: key emission
    ([register_code], [unregister_code], [clear_keyboard], [layer_clear]),
    the LED feedback of [tdm_led_blink], console lines ([uprintf], by format
    string) and the buffer dump of [print_macros]. *)
Inductive out_event :=
  | RegisterCode (kc : Z)
  | UnregisterCode (kc : Z)
  | ClearKeyboard
  | LayerClear
  | LedBlink
  | Uprintf (fmt : string)
  | MacroDump.

#[global] Instance out_event_eq_dec : EqDecision out_event.
Proof. solve_decision. Defined.

Definition deferred_token := Z.
Definition INVALID_DEFERRED_TOKEN : deferred_token := 0.

Definition ptr := option Z.

(** ** Program state *)

Record tdm := {
  MACRO_buffers : gmap Z tdm_keypress_t;
  MACRO_ends : list ptr;
  MACRO_id : Z;
  MACRO_start : ptr;
  MACRO_iterator : ptr;
  MACRO_end : ptr;
  MACRO_direction : Z;
  MACRO_delay_next_key_ms : Z;
  MACRO_current_state : State;
  MACRO_selection : Z;
  play_finished : bool;
  got_first_keydown : bool;
  play_token : deferred_token;
  delay_token : deferred_token;
  transition_matrix : list (list (option TransitionFunction));
  timers : list (deferred_token * (Z * DeferCallback));
  next_token : deferred_token;
  out : list out_event;
}.

Definition set_MACRO_buffers (v : gmap Z tdm_keypress_t) (s : tdm) : tdm :=
  {| MACRO_buffers := v; MACRO_ends := MACRO_ends s; MACRO_id := MACRO_id s;
     MACRO_start := MACRO_start s; MACRO_iterator := MACRO_iterator s;
     MACRO_end := MACRO_end s; MACRO_direction := MACRO_direction s;
     MACRO_delay_next_key_ms := MACRO_delay_next_key_ms s;
     MACRO_current_state := MACRO_current_state s;
     MACRO_selection := MACRO_selection s; play_finished := play_finished s;
     got_first_keydown := got_first_keydown s; play_token := play_token s;
     delay_token := delay_token s; transition_matrix := transition_matrix s;
     timers := timers s; next_token := next_token s; out := out s |}.
Definition set_MACRO_ends (v : list ptr) (s : tdm) : tdm :=
  {| MACRO_buffers := MACRO_buffers s; MACRO_ends := v;
     MACRO_id := MACRO_id s; MACRO_start := MACRO_start s;
     MACRO_iterator := MACRO_iterator s; MACRO_end := MACRO_end s;
     MACRO_direction := MACRO_direction s;
     MACRO_delay_next_key_ms := MACRO_delay_next_key_ms s;
     MACRO_current_state := MACRO_current_state s;
     MACRO_selection := MACRO_selection s; play_finished := play_finished s;
     got_first_keydown := got_first_keydown s; play_token := play_token s;
     delay_token := delay_token s; transition_matrix := transition_matrix s;
     timers := timers s; next_token := next_token s; out := out s |}.
Definition set_MACRO_id (v : Z) (s : tdm) : tdm :=
  {| MACRO_buffers := MACRO_buffers s; MACRO_ends := MACRO_ends s;
     MACRO_id := v; MACRO_start := MACRO_start s;
     MACRO_iterator := MACRO_iterator s; MACRO_end := MACRO_end s;
     MACRO_direction := MACRO_direction s;
     MACRO_delay_next_key_ms := MACRO_delay_next_key_ms s;
     MACRO_current_state := MACRO_current_state s;
     MACRO_selection := MACRO_selection s; play_finished := play_finished s;
     got_first_keydown := got_first_keydown s; play_token := play_token s;
     delay_token := delay_token s; transition_matrix := transition_matrix s;
     timers := timers s; next_token := next_token s; out := out s |}.
Definition set_MACRO_start (v : ptr) (s : tdm) : tdm :=
  {| MACRO_buffers := MACRO_buffers s; MACRO_ends := MACRO_ends s;
     MACRO_id := MACRO_id s; MACRO_start := v;
     MACRO_iterator := MACRO_iterator s; MACRO_end := MACRO_end s;
     MACRO_direction := MACRO_direction s;
     MACRO_delay_next_key_ms := MACRO_delay_next_key_ms s;
     MACRO_current_state := MACRO_current_state s;
     MACRO_selection := MACRO_selection s; play_finished := play_finished s;
     got_first_keydown := got_first_keydown s; play_token := play_token s;
     delay_token := delay_token s; transition_matrix := transition_matrix s;
     timers := timers s; next_token := next_token s; out := out s |}.
Definition set_MACRO_iterator (v : ptr) (s : tdm) : tdm :=
  {| MACRO_buffers := MACRO_buffers s; MACRO_ends := MACRO_ends s;
     MACRO_id := MACRO_id s; MACRO_start := MACRO_start s;
     MACRO_iterator := v; MACRO_end := MACRO_end s;
     MACRO_direction := MACRO_direction s;
     MACRO_delay_next_key_ms := MACRO_delay_next_key_ms s;
     MACRO_current_state := MACRO_current_state s;
     MACRO_selection := MACRO_selection s; play_finished := play_finished s;
     got_first_keydown := got_first_keydown s; play_token := play_token s;
     delay_token := delay_token s; transition_matrix := transition_matrix s;
     timers := timers s; next_token := next_token s; out := out s |}.
Definition set_MACRO_end (v : ptr) (s : tdm) : tdm :=
  {| MACRO_buffers := MACRO_buffers s; MACRO_ends := MACRO_ends s;
     MACRO_id := MACRO_id s; MACRO_start := MACRO_start s;
     MACRO_iterator := MACRO_iterator s; MACRO_end := v;
     MACRO_direction := MACRO_direction s;
     MACRO_delay_next_key_ms := MACRO_delay_next_key_ms s;
     MACRO_current_state := MACRO_current_state s;
     MACRO_selection := MACRO_selection s; play_finished := play_finished s;
     got_first_keydown := got_first_keydown s; play_token := play_token s;
     delay_token := delay_token s; transition_matrix := transition_matrix s;
     timers := timers s; next_token := next_token s; out := out s |}.
Definition set_MACRO_direction (v : Z) (s : tdm) : tdm :=
  {| MACRO_buffers := MACRO_buffers s; MACRO_ends := MACRO_ends s;
     MACRO_id := MACRO_id s; MACRO_start := MACRO_start s;
     MACRO_iterator := MACRO_iterator s; MACRO_end := MACRO_end s;
     MACRO_direction := v;
     MACRO_delay_next_key_ms := MACRO_delay_next_key_ms s;
     MACRO_current_state := MACRO_current_state s;
     MACRO_selection := MACRO_selection s; play_finished := play_finished s;
     got_first_keydown := got_first_keydown s; play_token := play_token s;
     delay_token := delay_token s; transition_matrix := transition_matrix s;
     timers := timers s; next_token := next_token s; out := out s |}.
Definition set_MACRO_delay_next_key_ms (v : Z) (s : tdm) : tdm :=
  {| MACRO_buffers := MACRO_buffers s; MACRO_ends := MACRO_ends s;
     MACRO_id := MACRO_id s; MACRO_start := MACRO_start s;
     MACRO_iterator := MACRO_iterator s; MACRO_end := MACRO_end s;
     MACRO_direction := MACRO_direction s; MACRO_delay_next_key_ms := v;
     MACRO_current_state := MACRO_current_state s;
     MACRO_selection := MACRO_selection s; play_finished := play_finished s;
     got_first_keydown := got_first_keydown s; play_token := play_token s;
     delay_token := delay_token s; transition_matrix := transition_matrix s;
     timers := timers s; next_token := next_token s; out := out s |}.
Definition set_MACRO_current_state (v : State) (s : tdm) : tdm :=
  {| MACRO_buffers := MACRO_buffers s; MACRO_ends := MACRO_ends s;
     MACRO_id := MACRO_id s; MACRO_start := MACRO_start s;
     MACRO_iterator := MACRO_iterator s; MACRO_end := MACRO_end s;
     MACRO_direction := MACRO_direction s;
     MACRO_delay_next_key_ms := MACRO_delay_next_key_ms s;
     MACRO_current_state := v; MACRO_selection := MACRO_selection s;
     play_finished := play_finished s;
     got_first_keydown := got_first_keydown s; play_token := play_token s;
     delay_token := delay_token s; transition_matrix := transition_matrix s;
     timers := timers s; next_token := next_token s; out := out s |}.
Definition set_MACRO_selection (v : Z) (s : tdm) : tdm :=
  {| MACRO_buffers := MACRO_buffers s; MACRO_ends := MACRO_ends s;
     MACRO_id := MACRO_id s; MACRO_start := MACRO_start s;
     MACRO_iterator := MACRO_iterator s; MACRO_end := MACRO_end s;
     MACRO_direction := MACRO_direction s;
     MACRO_delay_next_key_ms := MACRO_delay_next_key_ms s;
     MACRO_current_state := MACRO_current_state s; MACRO_selection := v;
     play_finished := play_finished s;
     got_first_keydown := got_first_keydown s; play_token := play_token s;
     delay_token := delay_token s; transition_matrix := transition_matrix s;
     timers := timers s; next_token := next_token s; out := out s |}.
Definition set_play_finished (v : bool) (s : tdm) : tdm :=
  {| MACRO_buffers := MACRO_buffers s; MACRO_ends := MACRO_ends s;
     MACRO_id := MACRO_id s; MACRO_start := MACRO_start s;
     MACRO_iterator := MACRO_iterator s; MACRO_end := MACRO_end s;
     MACRO_direction := MACRO_direction s;
     MACRO_delay_next_key_ms := MACRO_delay_next_key_ms s;
     MACRO_current_state := MACRO_current_state s;
     MACRO_selection := MACRO_selection s; play_finished := v;
     got_first_keydown := got_first_keydown s; play_token := play_token s;
     delay_token := delay_token s; transition_matrix := transition_matrix s;
     timers := timers s; next_token := next_token s; out := out s |}.
Definition set_got_first_keydown (v : bool) (s : tdm) : tdm :=
  {| MACRO_buffers := MACRO_buffers s; MACRO_ends := MACRO_ends s;
     MACRO_id := MACRO_id s; MACRO_start := MACRO_start s;
     MACRO_iterator := MACRO_iterator s; MACRO_end := MACRO_end s;
     MACRO_direction := MACRO_direction s;
     MACRO_delay_next_key_ms := MACRO_delay_next_key_ms s;
     MACRO_current_state := MACRO_current_state s;
     MACRO_selection := MACRO_selection s; play_finished := play_finished s;
     got_first_keydown := v; play_token := play_token s;
     delay_token := delay_token s; transition_matrix := transition_matrix s;
     timers := timers s; next_token := next_token s; out := out s |}.
Definition set_play_token (v : deferred_token) (s : tdm) : tdm :=
  {| MACRO_buffers := MACRO_buffers s; MACRO_ends := MACRO_ends s;
     MACRO_id := MACRO_id s; MACRO_start := MACRO_start s;
     MACRO_iterator := MACRO_iterator s; MACRO_end := MACRO_end s;
     MACRO_direction := MACRO_direction s;
     MACRO_delay_next_key_ms := MACRO_delay_next_key_ms s;
     MACRO_current_state := MACRO_current_state s;
     MACRO_selection := MACRO_selection s; play_finished := play_finished s;
     got_first_keydown := got_first_keydown s; play_token := v;
     delay_token := delay_token s; transition_matrix := transition_matrix s;
     timers := timers s; next_token := next_token s; out := out s |}.
Definition set_delay_token (v : deferred_token) (s : tdm) : tdm :=
  {| MACRO_buffers := MACRO_buffers s; MACRO_ends := MACRO_ends s;
     MACRO_id := MACRO_id s; MACRO_start := MACRO_start s;
     MACRO_iterator := MACRO_iterator s; MACRO_end := MACRO_end s;
     MACRO_direction := MACRO_direction s;
     MACRO_delay_next_key_ms := MACRO_delay_next_key_ms s;
     MACRO_current_state := MACRO_current_state s;
     MACRO_selection := MACRO_selection s; play_finished := play_finished s;
     got_first_keydown := got_first_keydown s; play_token := play_token s;
     delay_token := v; transition_matrix := transition_matrix s;
     timers := timers s; next_token := next_token s; out := out s |}.
Definition set_transition_matrix (v : list (list (option TransitionFunction))) (s : tdm) : tdm :=
  {| MACRO_buffers := MACRO_buffers s; MACRO_ends := MACRO_ends s;
     MACRO_id := MACRO_id s; MACRO_start := MACRO_start s;
     MACRO_iterator := MACRO_iterator s; MACRO_end := MACRO_end s;
     MACRO_direction := MACRO_direction s;
     MACRO_delay_next_key_ms := MACRO_delay_next_key_ms s;
     MACRO_current_state := MACRO_current_state s;
     MACRO_selection := MACRO_selection s; play_finished := play_finished s;
     got_first_keydown := got_first_keydown s; play_token := play_token s;
     delay_token := delay_token s; transition_matrix := v;
     timers := timers s; next_token := next_token s; out := out s |}.
Definition set_timers (v : list (deferred_token * (Z * DeferCallback))) (s : tdm) : tdm :=
  {| MACRO_buffers := MACRO_buffers s; MACRO_ends := MACRO_ends s;
     MACRO_id := MACRO_id s; MACRO_start := MACRO_start s;
     MACRO_iterator := MACRO_iterator s; MACRO_end := MACRO_end s;
     MACRO_direction := MACRO_direction s;
     MACRO_delay_next_key_ms := MACRO_delay_next_key_ms s;
     MACRO_current_state := MACRO_current_state s;
     MACRO_selection := MACRO_selection s; play_finished := play_finished s;
     got_first_keydown := got_first_keydown s; play_token := play_token s;
     delay_token := delay_token s; transition_matrix := transition_matrix s;
     timers := v; next_token := next_token s; out := out s |}.
Definition set_next_token (v : deferred_token) (s : tdm) : tdm :=
  {| MACRO_buffers := MACRO_buffers s; MACRO_ends := MACRO_ends s;
     MACRO_id := MACRO_id s; MACRO_start := MACRO_start s;
     MACRO_iterator := MACRO_iterator s; MACRO_end := MACRO_end s;
     MACRO_direction := MACRO_direction s;
     MACRO_delay_next_key_ms := MACRO_delay_next_key_ms s;
     MACRO_current_state := MACRO_current_state s;
     MACRO_selection := MACRO_selection s; play_finished := play_finished s;
     got_first_keydown := got_first_keydown s; play_token := play_token s;
     delay_token := delay_token s; transition_matrix := transition_matrix s;
     timers := timers s; next_token := v; out := out s |}.
Definition set_out (v : list out_event) (s : tdm) : tdm :=
  {| MACRO_buffers := MACRO_buffers s; MACRO_ends := MACRO_ends s;
     MACRO_id := MACRO_id s; MACRO_start := MACRO_start s;
     MACRO_iterator := MACRO_iterator s; MACRO_end := MACRO_end s;
     MACRO_direction := MACRO_direction s;
     MACRO_delay_next_key_ms := MACRO_delay_next_key_ms s;
     MACRO_current_state := MACRO_current_state s;
     MACRO_selection := MACRO_selection s; play_finished := play_finished s;
     got_first_keydown := got_first_keydown s; play_token := play_token s;
     delay_token := delay_token s; transition_matrix := transition_matrix s;
     timers := timers s; next_token := next_token s; out := v |}.

(** ** Small helpers: arrays, records in memory, environment calls *)

Definition array_get {A} (l : list A) (i : Z) : option A :=
  if decide (0 <= i) then l !! Z.to_nat i else None.

Definition array_set {A} (l : list A) (i : Z) (v : A) : option (list A) :=
  if decide (0 <= i < Z.of_nat (length l))
  then Some (<[Z.to_nat i := v]> l) else None.

(** [*(&MACRO_buffers[0][0] + i)] *)
Definition record_at (s : tdm) (i : Z) : tdm_keypress_t :=
  default zero_keypress (MACRO_buffers s !! i).

(** Assignment to one record through a pointer. *)
Definition update_record (i : Z) (f : tdm_keypress_t -> tdm_keypress_t)
    (s : tdm) : tdm :=
  set_MACRO_buffers (<[i := f (record_at s i)]> (MACRO_buffers s)) s.

Definition emit (e : out_event) (s : tdm) : tdm := set_out (out s ++ [e]) s.

Definition uprintf (fmt : string) : tdm -> tdm := emit (Uprintf fmt).
Definition register_code (kc : Z) : tdm -> tdm := emit (RegisterCode kc).
Definition unregister_code (kc : Z) : tdm -> tdm := emit (UnregisterCode kc).
Definition clear_keyboard : tdm -> tdm := emit ClearKeyboard.
Definition layer_clear : tdm -> tdm := emit LayerClear.
Definition tdm_led_blink : tdm -> tdm := emit LedBlink.

(** The deferred-execution service of the firmware, as the sources use it:
    [defer_exec] registers a one-shot callback under a fresh token,
    [cancel_deferred_exec] forgets a token and does nothing for one that is
    not pending.  The service is taken to be reliable: registration always
    succeeds. *)
Definition defer_exec (delay : Z) (cb : DeferCallback) (s : tdm)
  : deferred_token * tdm :=
  let t := next_token s in
  (t, set_next_token (t + 1) (set_timers (timers s ++ [(t, (delay, cb))]) s)).

Definition cancel_deferred_exec (t : deferred_token) (s : tdm) : tdm :=
  set_timers (filter (fun e => e.1 <> t) (timers s)) s.

(** ** The program *)

Section Program.
Context `{Config}.

(** [custom_keycodes.h] *)
Definition TURBO : Z := SAFE_RANGE.
Definition LLOCK : Z := SAFE_RANGE + 1.
Definition TDM_RECORD : Z := SAFE_RANGE + 2.
Definition TDM_DELAY : Z := SAFE_RANGE + 3.
Definition TDM_END : Z := SAFE_RANGE + 4.
Definition TDM_PLAY : Z := SAFE_RANGE + 5.
Definition TDM_LOOP : Z := SAFE_RANGE + 6.
Definition TDM_SELECT : Z := SAFE_RANGE + 7.
Definition MACRO_RANGE_START : Z := SAFE_RANGE + 8.

(** Which record indices lie inside
    [MACRO_buffers[(TDM_NUM_MACROS + 1) / 2][TDM_BUFFER_SIZE]]. *)
Definition in_bounds (i : Z) : Prop :=
  0 <= i < ((TDM_NUM_MACROS + 1) `quot` 2) * TDM_BUFFER_SIZE.

Definition keycode_to_state (kc : Z) : State :=
  if kc =? TDM_RECORD then STATE_recording
  else if kc =? TDM_DELAY then STATE_recording_delay
  else if kc =? TDM_END then STATE_idle
  else if kc =? TDM_PLAY then STATE_playing
  else if kc =? TDM_LOOP then STATE_looping
  else if kc =? TDM_SELECT then STATE_selecting
  else STATE_idle.

Definition keycode_to_int (kc : Z) : Z :=
  if (30 <=? kc) && (kc <=? 39) then
    (if kc =? 39 then 0 else kc - 29)
  else if (89 <=? kc) && (kc <=? 98) then
    (if kc =? 98 then 0 else kc - 88)
  else -1.

Definition tdm_is_valid_number (kc : Z) : bool :=
  ((KC_1 <=? kc) && (kc <=? KC_9)) || (kc =? KC_0)
  || ((KC_P1 <=? kc) && (kc <=? KC_P9)) || (kc =? KC_P0).

Definition tdm_is_layer_key (kc : Z) : bool :=
  ((QK_MOMENTARY <? kc) && (kc <? QK_MOMENTARY_MAX))
  || ((QK_TO <? kc) && (kc <? QK_TO_MAX))
  || ((QK_TOGGLE_LAYER <? kc) && (kc <? QK_TOGGLE_LAYER_MAX))
  || ((QK_LAYER_TAP_TOGGLE <? kc) && (kc <? QK_LAYER_TAP_TOGGLE_MAX))
  || ((QK_ONE_SHOT_LAYER <? kc) && (kc <? QK_ONE_SHOT_LAYER_MAX))
  || ((QK_TRI_LAYER_LOWER <? kc) && (kc <? QK_TRI_LAYER_UPPER))
  || (kc =? QK_ONE_SHOT_MOD).

Definition tdm_is_control_key (kc : Z) : bool :=
  (kc =? TDM_SELECT) || (kc =? TDM_RECORD) || (kc =? TDM_DELAY)
  || (kc =? TDM_END) || (kc =? TDM_PLAY) || (kc =? TDM_LOOP).

(** The weak default: every key may be recorded. *)
Definition tdm_is_valid_key_user (kc : Z) : bool := true.

Definition tdm_is_valid_key (kc : Z) : bool :=
  negb (tdm_is_control_key kc) && tdm_is_valid_key_user kc.

(** *** Convenience macros *)

Definition DIRECTION (M_id : Z) : Z := Z.land M_id 1 * -2 + 1.
Definition NEIGHBOR (x : Z) : Z := x + 1 - 2 * (x `rem` 2).
Definition TDM_BUFFER_START (M_id : Z) : Z :=
  (M_id `quot` 2) * TDM_BUFFER_SIZE.
Definition TDM_CURRENT_START (M_id : Z) : Z :=
  TDM_BUFFER_START M_id + Z.land M_id 1 * TDM_BUFFER_SIZE.
Definition TDM_CURRENT_LENGTH (s : tdm) (POINTER : Z) : Z :=
  DIRECTION (MACRO_id s) * (POINTER - TDM_CURRENT_START (MACRO_id s)).
Definition TDM_CURRENT_CAPACITY (s : tdm) (M_id : Z) : option Z :=
  e ← array_get (MACRO_ends s) (NEIGHBOR M_id);
  e ← (e : ptr);
  Some (DIRECTION M_id * (e - TDM_CURRENT_START M_id)).
Definition TDM_ITERATOR_AT_START (s : tdm) : bool :=
  bool_decide (MACRO_iterator s = MACRO_start s).

(** *** Initial state and reset *)

(** The statics before [tdm_init]: zeroed storage and the initialisers
    written in the source; nothing is pending in the environment. *)
Definition tdm_static : tdm :=
  {| MACRO_buffers := ∅;
     MACRO_ends :=
       replicate (Z.to_nat (TDM_NUM_MACROS + TDM_NUM_MACROS `rem` 2)) None;
     MACRO_id := 0;
     MACRO_start := None;
     MACRO_iterator := None;
     MACRO_end := None;
     MACRO_direction := 1;
     MACRO_delay_next_key_ms := 0;
     MACRO_current_state := STATE_idle;
     MACRO_selection := 0;
     play_finished := false;
     got_first_keydown := false;
     play_token := INVALID_DEFERRED_TOKEN;
     delay_token := INVALID_DEFERRED_TOKEN;
     transition_matrix := replicate 6 (replicate 6 None);
     timers := [];
     next_token := 1;
     out := [] |}.

Definition reset_state (s : tdm) : option tdm :=
  s ← foldl (fun acc i =>
               s ← acc;
               ends ← array_set (MACRO_ends s) i (Some (TDM_CURRENT_START i));
               Some (set_MACRO_ends ends s))
            (Some s) (seqZ 0 TDM_NUM_MACROS);
  let s := set_MACRO_start (Some 0) s in
  let s := set_MACRO_iterator None s in
  e ← array_get (MACRO_ends s) 0;
  Some (set_MACRO_end e s).

Definition tdm_reset_iterator (s : tdm) : option tdm :=
  let s := set_MACRO_direction (DIRECTION (MACRO_id s)) s in
  let s := set_MACRO_start (Some (TDM_CURRENT_START (MACRO_id s))) s in
  let s := set_MACRO_iterator (MACRO_start s) s in
  e ← array_get (MACRO_ends s) (MACRO_id s);
  let s := set_MACRO_end e s in
  Some (set_play_finished false s).

(** [print_macros] first stores the cursor as the end of the current slot,
    then dumps the ends and the records of every slot to the console; the
    dump is one [MacroDump] event. *)
Definition print_macros (s : tdm) : option tdm :=
  ends ← array_set (MACRO_ends s) (MACRO_id s) (MACRO_iterator s);
  Some (emit MacroDump (set_MACRO_ends ends s)).

(** *** User hooks (the weak defaults) *)

Definition tdm_init_user : tdm -> tdm := tdm_led_blink.
Definition tdm_record_start_user (M_id : Z) : tdm -> tdm := tdm_led_blink.
Definition tdm_record_key_user (M_id : Z) (kc : Z) (s : tdm) : option tdm :=
  s ← print_macros s;
  Some (tdm_led_blink s).
Definition tdm_record_end_user (M_id : Z) (s : tdm) : option tdm :=
  print_macros (tdm_led_blink s).
Definition tdm_play_user (M_id : Z) (s : tdm) : tdm :=
  tdm_led_blink (uprintf "playing macro: %d\n" s).
Definition tdm_play_stop_user (M_id : Z) (s : tdm) : tdm :=
  tdm_led_blink (uprintf "done playing macro: %d\n" s).

(** *** Selection *)

Definition tdm_select_start (s : tdm) : tdm :=
  set_MACRO_selection 0 (uprintf "selecting\n" s).

Definition tdm_select_macro (kc : Z) (s : tdm) : tdm :=
  if TDM_NUM_MACROS <=? MACRO_selection s then s
  else
    let key_val := keycode_to_int kc in
    if key_val =? -1 then
      uprintf
        "temporal dynamic macro: only numeric keys are valid in macro select"
        s
    else
      let s := set_MACRO_selection (uint8_t (MACRO_selection s * 10)) s in
      set_MACRO_selection (uint8_t (MACRO_selection s + key_val)) s.

Definition tdm_select_end (s : tdm) : tdm :=
  let s := clear_keyboard s in
  let s := layer_clear s in
  let s := uprintf "selection: %d\n" s in
  let s :=
    if TDM_NUM_MACROS <=? MACRO_selection s
    then set_MACRO_id (uint8_t (TDM_NUM_MACROS - 1)) s
    else set_MACRO_id (MACRO_selection s) s in
  uprintf "selected macro: %d\n" s.

(** *** Recording *)

Definition tdm_record_start (s : tdm) : option tdm :=
  let s :=
    uprintf "temporal dynamic macro: recording into macro# %d\n" s in
  let s := tdm_record_start_user (MACRO_id s) s in
  let s := clear_keyboard s in
  let s := layer_clear s in
  tdm_reset_iterator s.

(** The loop of [tdm_record_end]:
    [while (MACRO_iterator != MACRO_start && (!is_set(..) || .. || ..))]. *)
Fixpoint tdm_record_end_trim (fuel : nat) (s : tdm) : option tdm :=
  match fuel with
  | O => None
  | S fuel =>
    if bool_decide (MACRO_iterator s <> MACRO_start s) then
      it ← MACRO_iterator s;
      let prev := record_at s (it - MACRO_direction s) in
      if negb (is_set prev FLAG_pressed)
         || tdm_is_control_key (keycode prev)
         || tdm_is_layer_key (keycode prev)
      then
        let s :=
          uprintf
            "temporal dynamic macro: trimming : iter %d, kc %d, flags %d\n"
            s in
        tdm_record_end_trim fuel
          (set_MACRO_iterator (Some (it - MACRO_direction s)) s)
      else Some s
    else Some s
  end.

Definition tdm_record_end (fuel : nat) (s : tdm) : option tdm :=
  _ ← MACRO_iterator s;
  let s :=
    uprintf
      "temporal dynamic macro: ending record : iter %d, kc %d, flags %d\n"
      s in
  s ← print_macros s;
  s ← tdm_record_end_trim fuel s;
  let s :=
    uprintf "temporal dynamic macro: slot %d saved, length: %d\n" s in
  ends ← array_set (MACRO_ends s) (MACRO_id s) (MACRO_iterator s);
  let s := set_MACRO_ends ends s in
  tdm_record_end_user (MACRO_id s) s.

(** [record->event.pressed] is the argument [pressed]; the function-local
    [static bool got_first_keydown] is a field of the state. *)
Definition tdm_record_key (fuel : nat) (kc : Z) (pressed : bool) (s : tdm)
  : option tdm :=
  if negb pressed && negb (got_first_keydown s) then
    Some (uprintf "temporal dynamic macro: ignoring a leading key-up event\n"
            s)
  else
    let s := set_got_first_keydown true s in
    it ← MACRO_iterator s;
    neighbor_end ← array_get (MACRO_ends s) (NEIGHBOR (MACRO_id s));
    if bool_decide (Some (it - MACRO_direction s) = neighbor_end) then
      tdm_record_end fuel s
    else
      let s := update_record it (with_keycode kc) s in
      let s :=
        update_record it (fun k => set_flag k FLAG_pressed pressed) s in
      let it := it + MACRO_direction s in
      let s := set_MACRO_iterator (Some it) s in
      let s := update_record it (with_delay_ms 0) s in
      let s := update_record it clear_flags s in
      tdm_record_key_user (MACRO_id s) kc s.

Definition tdm_overwrite_alert (kc : Z) (s : tdm) : tdm := s.

(** *** Delay entry *)

Fixpoint tdm_record_delay_start_trim (fuel : nat) (s : tdm) : option tdm :=
  match fuel with
  | O => None
  | S fuel =>
    if bool_decide (MACRO_iterator s <> MACRO_start s) then
      it ← MACRO_iterator s;
      if tdm_is_layer_key (keycode (record_at s (it - MACRO_direction s)))
      then
        let s :=
          uprintf
            "temporal dynamic macro: trimming : iter %d, kc %d, flags %d\n"
            s in
        tdm_record_delay_start_trim fuel
          (set_MACRO_iterator (Some (it - MACRO_direction s)) s)
      else Some s
    else Some s
  end.

Definition tdm_record_delay_start (fuel : nat) (s : tdm) : option tdm :=
  tdm_record_delay_start_trim fuel (set_MACRO_delay_next_key_ms 0 s).

Definition tdm_record_delay (kc : Z) (s : tdm) : tdm :=
  let s := uprintf "recording delay: %d\n" s in
  if 7200000 <? MACRO_delay_next_key_ms s then s
  else
    let key_val := keycode_to_int kc in
    if key_val =? -1 then
      uprintf
        "temporal dynamic macro: only numeric keys are valid during delay entry"
        s
    else
      let s :=
        set_MACRO_delay_next_key_ms
          (uint32_t (MACRO_delay_next_key_ms s * 10)) s in
      set_MACRO_delay_next_key_ms
        (uint32_t (MACRO_delay_next_key_ms s + key_val)) s.

Definition tdm_record_delay_end (s : tdm) : option tdm :=
  s ← print_macros s;
  lookback_iterator ← MACRO_iterator s;
  let s :=
    uprintf
      "temporal dynamic macro: ending record delay : iter %d, kc %d, flags %d\n"
      s in
  let s :=
    update_record lookback_iterator
      (with_delay_ms (MACRO_delay_next_key_ms s)) s in
  Some (set_MACRO_delay_next_key_ms 0 s).

(** *** Playback *)

Definition tdm_clear_tokens (s : tdm) : tdm :=
  let s :=
    if bool_decide (play_token s <> INVALID_DEFERRED_TOKEN) then
      set_play_token INVALID_DEFERRED_TOKEN
        (cancel_deferred_exec (play_token s) s)
    else s in
  if bool_decide (delay_token s <> INVALID_DEFERRED_TOKEN) then
    set_delay_token INVALID_DEFERRED_TOKEN
      (cancel_deferred_exec (delay_token s) s)
  else s.

Definition tdm_play_key (keypress : tdm_keypress_t) (s : tdm) : tdm :=
  if is_set keypress FLAG_pressed then register_code (keycode keypress) s
  else if negb (is_set keypress FLAG_pressed)
  then unregister_code (keycode keypress) s
  else s.

(** The loop of [tdm_play] with what follows it; the [return] inside the
    loop leaves [play_finished] as it was. *)
Fixpoint tdm_play_loop (fuel : nat) (s : tdm) : option tdm :=
  match fuel with
  | O => None
  | S fuel =>
    if bool_decide (MACRO_iterator s <> MACRO_end s) then
      it ← MACRO_iterator s;
      let s := uprintf "iter %d KC: %d, down? %d, delay: %d\n" s in
      let s := tdm_play_key (record_at s it) s in
      let it := it + MACRO_direction s in
      let s := set_MACRO_iterator (Some it) s in
      if negb (delay_ms (record_at s it) =? 0) then
        let s := uprintf "delaying: %d\n" s in
        let tdm_continue :=
          if bool_decide (MACRO_current_state s = STATE_looping)
          then tdm_loop_callback_fn else tdm_delay_callback_fn in
        let '(t, s) := defer_exec (delay_ms (record_at s it)) tdm_continue s in
        Some (set_delay_token t s)
      else tdm_play_loop fuel s
    else
      let s := uprintf "play finished %d\n" s in
      Some (set_play_finished true s)
  end.

Definition tdm_play (fuel : nat) (s : tdm) : option tdm :=
  let s := uprintf "temporal dynamic macro: playing slot %d \n" s in
  let s := uprintf "play start: %d -> %d (Macro_iterator) %d\n" s in
  tdm_play_loop fuel s.

Definition tdm_play_start (fuel : nat)
    (tdm_state_transition : State -> tdm -> option (bool * tdm)) (s : tdm)
  : option tdm :=
  let s := clear_keyboard s in
  let s := layer_clear s in
  let s := uprintf "SAFE_RANGE: %d\n" s in
  let s := tdm_play_user (MACRO_id s) s in
  s ← tdm_reset_iterator s;
  let s := uprintf "play start: %d -> %d (Macro_iterator) %d\n" s in
  s ← tdm_play fuel s;
  if play_finished s then
    let s := uprintf "not in a delay\n" s in
    let s := tdm_clear_tokens s in
    r ← tdm_state_transition STATE_idle s;
    Some r.2
  else Some s.

Definition tdm_loop_start (s : tdm) : option tdm :=
  let s := tdm_play_user (MACRO_id s) s in
  let s :=
    if bool_decide (play_token s <> INVALID_DEFERRED_TOKEN)
    then tdm_clear_tokens s else s in
  s ← tdm_reset_iterator s;
  let s := uprintf "loop start: %d -> %d (Macro_iterator) %d\n" s in
  let '(t, s) := defer_exec TDM_DEBOUNCE_DELAY tdm_loop_callback_fn s in
  Some (set_play_token t s).

Definition tdm_loop_callback (fuel : nat) (s : tdm) : option (Z * tdm) :=
  let s := uprintf "play loop: t= %d\n" s in
  s ← tdm_play fuel s;
  if play_finished s then
    s ← tdm_reset_iterator s;
    Some (TDM_DEBOUNCE_DELAY, s)
  else Some (0, s).

Definition tdm_play_stop (s : tdm) : tdm :=
  let s := clear_keyboard s in
  let s := layer_clear s in
  let s := tdm_clear_tokens s in
  tdm_play_stop_user (MACRO_id s) s.

(** *** State machine *)

Definition matrix_get (m : list (list (option TransitionFunction)))
    (from to : State) : option TransitionFunction :=
  row ← m !! State_index from;
  mjoin (row !! State_index to).

Definition matrix_set (from to : State) (f : TransitionFunction)
    (m : list (list (option TransitionFunction)))
  : list (list (option TransitionFunction)) :=
  alter (fun row => <[State_index to := Some f]> row) (State_index from) m.

Definition tdm_init_state_machine (s : tdm) : tdm :=
  let m := transition_matrix s in
  let m := matrix_set STATE_idle STATE_recording tdm_record_start_fn m in
  let m :=
    matrix_set STATE_recording STATE_recording_delay
      tdm_record_delay_start_fn m in
  let m :=
    matrix_set STATE_recording_delay STATE_recording
      tdm_record_delay_end_fn m in
  let m := matrix_set STATE_recording STATE_idle tdm_record_end_fn m in
  let m := matrix_set STATE_idle STATE_playing tdm_play_start_fn m in
  let m := matrix_set STATE_playing STATE_idle tdm_play_stop_fn m in
  let m := matrix_set STATE_idle STATE_looping tdm_loop_start_fn m in
  let m := matrix_set STATE_looping STATE_looping tdm_loop_start_fn m in
  let m := matrix_set STATE_looping STATE_idle tdm_play_stop_fn m in
  let m := matrix_set STATE_idle STATE_selecting tdm_select_start_fn m in
  let m := matrix_set STATE_selecting STATE_idle tdm_select_end_fn m in
  set_transition_matrix m s.

Definition tdm_invalid_transition (next_state : State) (s : tdm) : tdm :=
  uprintf "temporal dynamic macro: invalid transition: %d to %d\n" s.

(** [transition()]: the call through the function pointer. *)
Definition call_transition (fuel : nat)
    (tdm_state_transition : State -> tdm -> option (bool * tdm))
    (f : TransitionFunction) (s : tdm) : option tdm :=
  match f with
  | tdm_record_start_fn => tdm_record_start s
  | tdm_record_delay_start_fn => tdm_record_delay_start fuel s
  | tdm_record_delay_end_fn => tdm_record_delay_end s
  | tdm_record_end_fn => tdm_record_end fuel s
  | tdm_play_start_fn => tdm_play_start fuel tdm_state_transition s
  | tdm_play_stop_fn => Some (tdm_play_stop s)
  | tdm_loop_start_fn => tdm_loop_start s
  | tdm_select_start_fn => Some (tdm_select_start s)
  | tdm_select_end_fn => Some (tdm_select_end s)
  end.

(** The console lines of a valid transition: the header, one line per slot
    end, the footer. *)
Definition transition_trace (s : tdm) : tdm :=
  let s := uprintf "transitioning to state: %d\n" s in
  let s := uprintf "MacroEnds: %d[" s in
  let s :=
    foldl (fun s (_ : Z) => uprintf "%d, " s) s (seqZ 0 TDM_NUM_MACROS) in
  uprintf "]\n" s.

(** [tdm_state_transition] and [tdm_play_start] call each other; [fuel]
    also bounds the depth of that recursion. *)
Fixpoint tdm_state_transition (fuel : nat) (next_state : State) (s : tdm)
  : option (bool * tdm) :=
  match fuel with
  | O => None
  | S fuel =>
    match matrix_get (transition_matrix s) (MACRO_current_state s) next_state
    with
    | None => Some (false, tdm_invalid_transition next_state s)
    | Some transition =>
      let s := transition_trace s in
      let s := set_MACRO_current_state next_state s in
      s ← call_transition fuel (tdm_state_transition fuel) transition s;
      Some (true, s)
    end
  end.

Definition tdm_delay_callback (fuel : nat) (s : tdm) : option (Z * tdm) :=
  let s := uprintf "play debounce\n" s in
  s ← tdm_play fuel s;
  if play_finished s then
    let s := uprintf "done with delay\n" s in
    r ← tdm_state_transition fuel STATE_idle s;
    Some (0, tdm_clear_tokens r.2)
  else Some (0, s).

Definition tdm_init : option tdm :=
  s ← reset_state tdm_static;
  Some (tdm_init_user (tdm_init_state_machine s)).

(** *** The key-event entry point *)

Definition process_temporal_dynamic_macro (fuel : nat) (kc : Z)
    (pressed : bool) (s : tdm) : option (bool * tdm) :=
  if tdm_is_control_key kc then
    if negb pressed then
      r ← tdm_state_transition fuel (keycode_to_state kc) s;
      Some (negb TDM_SILENT_RECORDED_KEYS, r.2)
    else Some (negb TDM_SILENT_RECORDED_KEYS, s)
  else if tdm_is_layer_key kc then Some (true, s)
  else
    match MACRO_current_state s with
    | STATE_idle => Some (true, s)
    | STATE_recording =>
      if tdm_is_valid_key kc then
        s ← tdm_record_key fuel kc pressed s;
        Some (negb TDM_SILENT_RECORDED_KEYS, s)
      else if pressed then
        r ← tdm_state_transition fuel STATE_idle s;
        Some (negb TDM_SILENT_INVALID_KEYS, r.2)
      else Some (negb TDM_SILENT_RECORDED_KEYS, s)
    | STATE_recording_delay =>
      if tdm_is_valid_number kc && pressed then
        Some (negb TDM_SILENT_RECORDED_KEYS, tdm_record_delay kc s)
      else if negb pressed && negb (tdm_is_valid_number kc) then
        r ← tdm_state_transition fuel STATE_recording s;
        Some (negb TDM_SILENT_RECORDED_KEYS, r.2)
      else Some (negb TDM_SILENT_RECORDED_KEYS, s)
    | STATE_selecting =>
      if negb pressed then Some (negb TDM_SILENT_RECORDED_KEYS, s)
      else if tdm_is_valid_number kc then
        Some (negb TDM_SILENT_RECORDED_KEYS, tdm_select_macro kc s)
      else
        r ← tdm_state_transition fuel STATE_idle s;
        Some (negb TDM_SILENT_INVALID_KEYS, r.2)
    | _ => Some (true, s)
    end.

(** *** Expiry of a deferred execution

    The firmware calls the callback registered under an expired token; a
    return value of 0 drops the registration, any other value keeps it
    pending for that many milliseconds more.  Which pending token expires
    next is not modelled: any of them may. *)
Definition run_callback (fuel : nat) (cb : DeferCallback) (s : tdm)
  : option (Z * tdm) :=
  match cb with
  | tdm_delay_callback_fn => tdm_delay_callback fuel s
  | tdm_loop_callback_fn => tdm_loop_callback fuel s
  end.

Definition deferred_exec_expire (fuel : nat) (t : deferred_token) (s : tdm)
  : option tdm :=
  e ← list_find (fun e => e.1 = t) (timers s);
  let cb := e.2.2.2 in
  r ← run_callback fuel cb s;
  let s := r.2 in
  if r.1 =? 0 then Some (cancel_deferred_exec t s)
  else
    Some (set_timers
            (fmap (fun e : deferred_token * (Z * DeferCallback) =>
                     if bool_decide (e.1 = t) then (t, (r.1, e.2.2)) else e)
                  (timers s)) s).

End Program.

(** ** Driving the program

    The firmware hands every key event to
    [process_temporal_dynamic_macro], one after the other. *)

Definition key_event : Type := Z * bool.

Definition press (kc : Z) : key_event := (kc, true).
Definition release (kc : Z) : key_event := (kc, false).
Definition tap (kc : Z) : list key_event := [press kc; release kc].

Fixpoint run_events `{Config} (fuel : nat) (evs : list key_event) (s : tdm)
  : option tdm :=
  match evs with
  | [] => Some s
  | (kc, pressed) :: evs =>
    r ← process_temporal_dynamic_macro fuel kc pressed s;
    run_events fuel evs r.2
  end.

(** The program after [tdm_init] and the given key events. *)
Definition boot `{Config} (fuel : nat) (evs : list key_event) : option tdm :=
  s ← tdm_init;
  run_events fuel evs s.

(** What reached the key-emission sink as [register_code] and
    [unregister_code] calls, in call order. *)
Definition is_key_emission (e : out_event) : bool :=
  match e with
  | RegisterCode _ | UnregisterCode _ => true
  | _ => false
  end.

Definition key_emissions (s : tdm) : list out_event :=
  List.filter is_key_emission (out s).

(** The sink call that replays one recorded event. *)
Definition emission_of (ev : key_event) : out_event :=
  if ev.2 then RegisterCode ev.1 else UnregisterCode ev.1.

(** ** Concrete runs

    Key codes of ordinary keys used below: 4 is [KC_A], 5 is [KC_B], 6 is
    [KC_C], 7 is [KC_D], 8 is [KC_E]. *)

Section DefaultSize.
#[local] Existing Instance qmk.

(** Slot 0: record a tap of [KC_A], stop, play. *)
Definition tap_recorded_then_played : option tdm :=
  boot 100 (tap TDM_RECORD ++ tap 4 ++ tap TDM_END ++ tap TDM_PLAY).

(** Select slot 1, start recording, press [KC_A]. *)
Definition odd_slot_first_key : option tdm :=
  boot 100
    (tap TDM_SELECT ++ tap KC_1 ++ tap TDM_END ++ tap TDM_RECORD ++ [press 4]).

(** A first recording session (a tap of [KC_A]) has ended and a second one
    has just begun. *)
Definition second_session_begun : option tdm :=
  boot 100 (tap TDM_RECORD ++ tap 4 ++ tap TDM_END ++ tap TDM_RECORD).

(** Recording a tap of [KC_A], then delay entry with seven times the
    digit 9. *)
Definition seven_nines_entered : option tdm :=
  boot 100
    (tap TDM_RECORD ++ tap 4 ++ tap TDM_DELAY
       ++ tap KC_9 ++ tap KC_9 ++ tap KC_9 ++ tap KC_9
       ++ tap KC_9 ++ tap KC_9 ++ tap KC_9).

(** Recording a tap of [KC_A], then delay entry with the digits 1, 5, 0
    ([KC_1 + 4] is the key of the digit 5). *)
Definition delay_150_entered : option tdm :=
  boot 100
    (tap TDM_RECORD ++ tap 4 ++ tap TDM_DELAY
       ++ tap KC_1 ++ tap (KC_1 + 4) ++ tap KC_0).

(** A tap of [KC_A], a delay of 150 ms and a tap of [KC_B] have been
    recorded into slot 0; the mode is idle again. *)
Definition macro_with_delay_recorded : option tdm :=
  delay_150_entered
    ≫= run_events 100 (tap TDM_RECORD ++ tap 5 ++ tap TDM_END).

End DefaultSize.

Section Size4.
#[local] Instance size4 : Config := qmk_with_size 4.

(** Region of capacity 4, slot 1 empty: four events recorded into slot 0. *)
Definition four_events_recorded : option tdm :=
  boot 100 (tap TDM_RECORD ++ tap 4 ++ tap 5).

(** Slot 0 holds [KC_A] down, [KC_A] up, [KC_B] down. *)
Definition slot0_recorded : option tdm :=
  boot 100 (tap TDM_RECORD ++ tap 4 ++ tap 5 ++ tap TDM_END).

(** Then slot 1 is selected and a tap of [KC_C] is recorded into it. *)
Definition slot1_recorded : option tdm :=
  slot0_recorded
    ≫= run_events 100
         (tap TDM_SELECT ++ tap KC_1 ++ tap TDM_END
            ++ tap TDM_RECORD ++ tap 6 ++ tap TDM_END).

(** Select slot 0 and play it. *)
Definition play_slot0 : list key_event :=
  tap TDM_SELECT ++ tap KC_0 ++ tap TDM_END ++ tap TDM_PLAY.

End Size4.

(** ** Predicates used by the statements *)

(** The cursor of a recording session: the iterator is [k] steps ahead of
    [MACRO_start], [fuel] exceeds [k], and [MACRO_id] indexes
    [MACRO_ends]. *)
Definition cursor_ok (fuel : nat) (s : tdm) : Prop :=
  exists (st : Z) (k : nat),
    MACRO_start s = Some st
    /\ MACRO_iterator s = Some (st + Z.of_nat k * MACRO_direction s)
    /\ (k < fuel)%nat
    /\ 0 <= MACRO_id s < Z.of_nat (length (MACRO_ends s)).

(** The state an optional run ended in. *)
Definition the_state (r : option tdm) : tdm := default tdm_static r.

(** The transition table of section 4.4 of the specification, row by row
    as [(current, requested, entry action)]; the entry actions are named
    by the functions that implement them. *)
Definition table_4_4 : list (State * State * TransitionFunction) :=
  [ (STATE_idle, STATE_recording, tdm_record_start_fn);
    (STATE_idle, STATE_playing, tdm_play_start_fn);
    (STATE_idle, STATE_looping, tdm_loop_start_fn);
    (STATE_idle, STATE_selecting, tdm_select_start_fn);
    (STATE_recording, STATE_recording_delay, tdm_record_delay_start_fn);
    (STATE_recording, STATE_idle, tdm_record_end_fn);
    (STATE_recording_delay, STATE_recording, tdm_record_delay_end_fn);
    (STATE_playing, STATE_idle, tdm_play_stop_fn);
    (STATE_looping, STATE_looping, tdm_loop_start_fn);
    (STATE_looping, STATE_idle, tdm_play_stop_fn);
    (STATE_selecting, STATE_idle, tdm_select_end_fn) ].

Definition table_action (from to : State) : option TransitionFunction :=
  (fun r => r.2.2)
    <$> list_find
          (fun e : State * State * TransitionFunction =>
             e.1.1 = from /\ e.1.2 = to)
          table_4_4.

(** The matrix as [tdm_init] leaves it. *)
Definition initial_matrix : list (list (option TransitionFunction)) :=
  transition_matrix (tdm_init_state_machine tdm_static).

(** The cursor of a playback session: the current slot ends at [e] and
    holds [n] records, the iterator is [k] steps before [e], and [fuel]
    exceeds both. *)
Definition playback_cursor `{Config} (fuel : nat) (s : tdm) : Prop :=
  exists (e : Z) (n k : nat),
    array_get (MACRO_ends s) (MACRO_id s) = Some (Some e)
    /\ MACRO_end s = Some e
    /\ MACRO_direction s = DIRECTION (MACRO_id s)
    /\ TDM_CURRENT_START (MACRO_id s)
       = e - Z.of_nat n * DIRECTION (MACRO_id s)
    /\ MACRO_iterator s = Some (e - Z.of_nat k * DIRECTION (MACRO_id s))
    /\ (n < fuel)%nat /\ (k < fuel)%nat.

(** The current slot holds [n] records, [n] below [fuel]. *)
Definition slot_ready `{Config} (fuel : nat) (s : tdm) : Prop :=
  exists (e : Z) (n : nat),
    array_get (MACRO_ends s) (MACRO_id s) = Some (Some e)
    /\ TDM_CURRENT_START (MACRO_id s)
       = e - Z.of_nat n * DIRECTION (MACRO_id s)
    /\ (n < fuel)%nat.

(** The looping mode as [tdm_loop_start] sets it up and as every later
    step finds it: some deferred execution is pending, and every pending
    one continues the loop and carries a token already handed out. *)
Definition loop_inv `{Config} (fuel : nat) (s : tdm) : Prop :=
  MACRO_current_state s = STATE_looping
  /\ transition_matrix s = initial_matrix
  /\ timers s <> []
  /\ (forall e, e ∈ timers s ->
        e.2.2 = tdm_loop_callback_fn /\ e.1 < next_token s)
  /\ playback_cursor fuel s.

(** One step of the running system that is not the explicit stop: a
    pending deferred execution expires, or a key event other than the
    release of [TDM_END] arrives. *)
Inductive quiet_step `{Config} (fuel : nat) : tdm -> tdm -> Prop :=
  | quiet_expire (t : deferred_token) (s s' : tdm) :
      deferred_exec_expire fuel t s = Some s' ->
      quiet_step fuel s s'
  | quiet_key (kc : Z) (pressed : bool) (s : tdm) (r : bool * tdm) :
      ~ (kc = TDM_END /\ pressed = false) ->
      process_temporal_dynamic_macro fuel kc pressed s = Some r ->
      quiet_step fuel s r.2.

(** The callback [tdm_play] registers when it pauses. *)
Definition continuation (s : tdm) : DeferCallback :=
  if bool_decide (MACRO_current_state s = STATE_looping)
  then tdm_loop_callback_fn else tdm_delay_callback_fn.

(** The state a paused [tdm_play] leaves: console and sink output [o], the
    cursor at [it], and a new deferred execution of [cb] after [delay]. *)
Definition paused (o : list out_event) (it : Z) (delay : Z)
    (cb : DeferCallback) (s : tdm) : tdm :=
  set_delay_token (next_token s)
    (set_next_token (next_token s + 1)
       (set_timers (timers s ++ [(next_token s, (delay, cb))])
          (set_MACRO_iterator (Some it) (set_out o s)))).

(** The state a completed [tdm_play] leaves. *)
Definition finished (o : list out_event) (s : tdm) : tdm :=
  set_play_finished true (set_MACRO_iterator (MACRO_end s) (set_out o s)).

(** ** Well-formed states

    What every state reached from [tdm_init] satisfies.  With [d] the
    direction and [st] the start of the current slot, the end of the slot
    is [m] steps and the end of its neighbour [cap] steps from [st]. *)

Definition ends_ok `{Config} (s : tdm) : Prop :=
  exists e0 e1 : Z,
    MACRO_ends s = [Some e0; Some e1]
    /\ 0 <= e0 <= e1 + 1 /\ e1 <= TDM_BUFFER_SIZE.

Definition id_ok (s : tdm) : Prop := MACRO_id s = 0 \/ MACRO_id s = 1.

Definition slot_view `{Config} (s : tdm) (m cap : Z) : Prop :=
  array_get (MACRO_ends s) (MACRO_id s)
  = Some (Some (TDM_CURRENT_START (MACRO_id s) + m * DIRECTION (MACRO_id s)))
  /\ array_get (MACRO_ends s) (NEIGHBOR (MACRO_id s))
     = Some (Some (TDM_CURRENT_START (MACRO_id s)
                   + cap * DIRECTION (MACRO_id s)))
  /\ 0 <= m <= cap + 1 /\ cap <= TDM_BUFFER_SIZE.

(** The cursor of a recording session: [k] steps from the start of the
    slot and at most one step past the end of the neighbour. *)
Definition rec_cursor `{Config} (s : tdm) : Prop :=
  MACRO_start s = Some (TDM_CURRENT_START (MACRO_id s))
  /\ MACRO_direction s = DIRECTION (MACRO_id s)
  /\ exists (k : nat) (cap : Z),
       MACRO_iterator s
       = Some (TDM_CURRENT_START (MACRO_id s)
               + Z.of_nat k * DIRECTION (MACRO_id s))
       /\ array_get (MACRO_ends s) (NEIGHBOR (MACRO_id s))
          = Some (Some (TDM_CURRENT_START (MACRO_id s)
                        + cap * DIRECTION (MACRO_id s)))
       /\ Z.of_nat k <= cap + 1.

(** The cursor of a playback session, between the start and the end of
    the slot. *)
Definition play_cursor `{Config} (s : tdm) : Prop :=
  exists (e : Z) (n k : nat),
    array_get (MACRO_ends s) (MACRO_id s) = Some (Some e)
    /\ MACRO_end s = Some e
    /\ MACRO_direction s = DIRECTION (MACRO_id s)
    /\ TDM_CURRENT_START (MACRO_id s)
       = e - Z.of_nat n * DIRECTION (MACRO_id s)
    /\ MACRO_iterator s = Some (e - Z.of_nat k * DIRECTION (MACRO_id s))
    /\ (k <= n)%nat /\ Z.of_nat n <= TDM_BUFFER_SIZE + 1.

Definition mode_ok `{Config} (s : tdm) : Prop :=
  match MACRO_current_state s with
  | STATE_idle | STATE_selecting => timers s = []
  | STATE_recording | STATE_recording_delay => timers s = [] /\ rec_cursor s
  | STATE_playing =>
      play_finished s = false /\ play_cursor s
      /\ 1 <= delay_token s < next_token s
      /\ exists delay,
           timers s = [(delay_token s, (delay, tdm_delay_callback_fn))]
  | STATE_looping =>
      play_finished s = false /\ play_cursor s
      /\ 1 <= play_token s
      /\ exists t delay,
           timers s = [(t, (delay, tdm_loop_callback_fn))]
           /\ (t = play_token s \/ t = delay_token s)
           /\ 1 <= t < next_token s
  end.

Definition wf `{Config} (s : tdm) : Prop :=
  transition_matrix s = initial_matrix
  /\ ends_ok s /\ id_ok s
  /\ 0 <= MACRO_selection s
  /\ 1 <= next_token s
  /\ mode_ok s.

(** One step of the running system: a key event is processed or a pending
    deferred execution expires. *)
Inductive step `{Config} (fuel : nat) : tdm -> tdm -> Prop :=
  | step_expire (t : deferred_token) (s s' : tdm) :
      deferred_exec_expire fuel t s = Some s' ->
      step fuel s s'
  | step_key (kc : Z) (pressed : bool) (s : tdm) (r : bool * tdm) :
      process_temporal_dynamic_macro fuel kc pressed s = Some r ->
      step fuel s r.2.

Definition reachable `{Config} (fuel : nat) (s : tdm) : Prop :=
  exists s0, tdm_init = Some s0 /\ rtc (step fuel) s0 s.

(** What a recording step leaves alone. *)
Definition rec_frame (s s' : tdm) : Prop :=
  transition_matrix s' = transition_matrix s
  /\ MACRO_current_state s' = MACRO_current_state s
  /\ MACRO_id s' = MACRO_id s
  /\ MACRO_selection s' = MACRO_selection s
  /\ timers s' = timers s
  /\ next_token s' = next_token s.

(** A state in which a recording session is under way. *)
Definition rec_ok `{Config} (s : tdm) : Prop :=
  ends_ok s /\ id_ok s /\ rec_cursor s.

(** What a step of playback leaves alone. *)
Definition play_frame (s s' : tdm) : Prop :=
  transition_matrix s' = transition_matrix s
  /\ MACRO_current_state s' = MACRO_current_state s
  /\ MACRO_ends s' = MACRO_ends s
  /\ MACRO_id s' = MACRO_id s
  /\ MACRO_selection s' = MACRO_selection s
  /\ play_token s' = play_token s.

(** [tdm_play] has paused in [s']: one more deferred execution, of [cb]
    after [delay], is pending, under a fresh token kept in [delay_token]. *)
Definition play_paused (delay : Z) (cb : DeferCallback) (s s' : tdm) : Prop :=
  timers s' = timers s ++ [(next_token s, (delay, cb))]
  /\ delay_token s' = next_token s
  /\ next_token s' = next_token s + 1
  /\ play_finished s' = play_finished s.


(** ** Definitions used by the further properties *)

(** The value of a run of digit keys typed after the accumulator held
    [acc]: each key appends its digit. *)
Definition decimal (acc : Z) (kcs : list Z) : Z :=
  foldl (fun a kc => a * 10 + keycode_to_int kc) acc kcs.

(** [tdm_record_delay] called once for each key of [kcs], in order. *)
Definition record_delay_keys `{Config} (kcs : list Z) (s : tdm) : tdm :=
  foldl (fun s kc => tdm_record_delay kc s) s kcs.

(** The sink call [tdm_play_key] makes for a record. *)
Definition emission_of_record (kp : tdm_keypress_t) : out_event :=
  if is_set kp FLAG_pressed then RegisterCode (keycode kp)
  else UnregisterCode (keycode kp).

(** The [n] records met from index [it] on, walking in steps of [d]. *)
Fixpoint slot_records (s : tdm) (it d : Z) (n : nat) : list tdm_keypress_t :=
  match n with
  | O => []
  | S n => record_at s it :: slot_records s (it + d) d n
  end.


(** ** A recording session, as the recorder sees it *)








(** What no function but [tdm_state_transition] changes: the mode and the
    transition table. *)
Definition mode_frame (s s' : tdm) : Prop :=
  MACRO_current_state s' = MACRO_current_state s
  /\ transition_matrix s' = transition_matrix s.

(** The mode of [s'] is the mode of [s] or is reached from it along an
    entry of the transition table. *)
Definition along_the_table (s s' : tdm) : Prop :=
  MACRO_current_state s' = MACRO_current_state s
  \/ is_Some (table_action (MACRO_current_state s) (MACRO_current_state s')).

(** ** Selecting a slot *)



(** ** Further concrete runs *)

Section MoreRuns.
#[local] Existing Instance qmk.


(** Slot 0 holds [KC_A] down, [KC_A] up, [KC_B] down and has been played
    once. *)
Definition three_records_played : option tdm :=
  boot 100
    (tap TDM_RECORD ++ tap 4 ++ tap 5 ++ tap TDM_END ++ tap TDM_PLAY).

(** The macro of [macro_with_delay_recorded], started as a loop with a
    tap of [TDM_LOOP]: playback has paused at the delay of 150 ms. *)
Definition delay_macro_looping : option tdm :=
  boot 100
    (tap TDM_RECORD ++ tap 4 ++ tap TDM_DELAY
       ++ tap KC_1 ++ tap (KC_1 + 4) ++ tap KC_0
       ++ tap TDM_RECORD ++ tap 5 ++ tap TDM_END ++ tap TDM_LOOP).

(** The same macro, started with a tap of [TDM_PLAY]: [KC_A] down and up
    have been played, playback has paused at the delay of 150 ms. *)
Definition delay_macro_playing : option tdm :=
  boot 100
    (tap TDM_RECORD ++ tap 4 ++ tap TDM_DELAY
       ++ tap KC_1 ++ tap (KC_1 + 4) ++ tap KC_0
       ++ tap TDM_RECORD ++ tap 5 ++ tap TDM_END ++ tap TDM_PLAY).

(** [TDM_SELECT] has been pressed and released. *)
Definition selection_begun : option tdm := boot 100 (tap TDM_SELECT).

End MoreRuns.

(** Region of capacity 4, slot 1 empty: five events recorded into slot 0,
    the cursor is one step past the end of slot 1. *)
Definition five_events_recorded : option tdm :=
  boot (H := size4) 100
    (tap (TDM_RECORD (H := size4)) ++ tap 4 ++ tap 5 ++ [press 6]).

(** * Properties *)

Section Facts.
Context `{Config}.

(** ** Flag bits *)

Lemma testbit_single_bit (k i : Z) :
  0 <= k -> Z.testbit (Z.shiftl 1 k) i = bool_decide (i = k).
Proof.
  intros Hk. rewrite Z.shiftl_1_l, Z.pow2_bits_eqb by done.
  case_bool_decide; [apply Z.eqb_eq | apply Z.eqb_neq]; lia.
Qed.

Lemma testbit_neg_b2z (b : bool) (i : Z) :
  0 <= i -> Z.testbit (- Z.b2z b) i = b.
Proof.
  intros Hi. destruct b; simpl.
  - by apply (Z.bits_m1 i).
  - apply Z.bits_0.
Qed.

Lemma testbit_uint8_t (x i : Z) :
  Z.testbit (uint8_t x) i = bool_decide (i < 8) && Z.testbit x i.
Proof.
  unfold uint8_t. destruct (decide (0 <= i)) as [Hi|Hi].
  - rewrite Z.testbit_mod_pow2 by lia.
    case_bool_decide; destruct (Z.ltb_spec i 8); try lia; done.
  - rewrite !Z.testbit_neg_r by lia. by rewrite andb_false_r.
Qed.

Lemma testbit_byte_high (x i : Z) :
  0 <= x < 256 -> 8 <= i -> Z.testbit x i = false.
Proof.
  intros Hx Hi. destruct (decide (x = 0)) as [->|]; [apply Z.bits_0|].
  apply Z.bits_above_log2; [lia|].
  assert (Z.log2 x < 8); [|lia].
  apply Z.log2_lt_pow2; lia.
Qed.

Lemma set_flag_testbit (kp : tdm_keypress_t) (k : Z) (b : bool) (i : Z) :
  0 <= flags kp < 256 -> 0 <= k < 8 ->
  Z.testbit (flags (set_flag kp (Z.shiftl 1 k) b)) i
  = if bool_decide (i = k) then b else Z.testbit (flags kp) i.
Proof.
  intros Hf Hk. unfold set_flag; simpl.
  rewrite testbit_uint8_t, !Z.lxor_spec, !Z.land_spec.
  rewrite testbit_single_bit by lia.
  destruct (decide (0 <= i)) as [Hi|Hi].
  - rewrite testbit_neg_b2z by done.
    destruct (decide (i = k)) as [->|Hik].
    + rewrite !bool_decide_eq_true_2 by lia.
      by destruct b, (Z.testbit (flags kp) k).
    + rewrite !(bool_decide_eq_false_2 (i = k)) by done.
      simpl. rewrite andb_false_r, xorb_false_r.
      case_bool_decide; [done|]. simpl. symmetry.
      apply testbit_byte_high; lia.
  - rewrite (Z.testbit_neg_r (flags kp)) by lia.
    rewrite !(bool_decide_eq_false_2 (i = k)) by lia. simpl.
    apply andb_false_r.
Qed.

Lemma is_set_testbit (kp : tdm_keypress_t) (k : Z) :
  0 <= k -> is_set kp (Z.shiftl 1 k) = Z.testbit (flags kp) k.
Proof.
  intros Hk. unfold is_set.
  destruct (Z.testbit (flags kp) k) eqn:Hb.
  - apply negb_true_iff, Z.eqb_neq. intros Hz.
    assert (Z.testbit (Z.land (flags kp) (Z.shiftl 1 k)) k = false) as Hk'
      by (rewrite Hz; apply Z.bits_0).
    rewrite Z.land_spec, Hb, testbit_single_bit, bool_decide_eq_true_2 in Hk'
      by lia.
    done.
  - apply negb_false_iff, Z.eqb_eq, Z.bits_inj'. intros i Hi.
    rewrite Z.land_spec, testbit_single_bit, Z.bits_0 by lia.
    case_bool_decide; [subst; by rewrite Hb | apply andb_false_r].
Qed.

(** C10: for every keypress record (its flags a [uint8_t]), every
    single-bit mask [1 << k] and every boolean [b], [set_flag] leaves every
    flag bit other than bit [k] as it was, leaves the key code and the delay
    alone, and makes [is_set] on that mask return exactly [b]. *)
Theorem set_flag_sets_only_its_bit (kp : tdm_keypress_t) (k : Z) (b : bool) :
  0 <= flags kp < 256 -> 0 <= k < 8 ->
  let kp' := set_flag kp (Z.shiftl 1 k) b in
  is_set kp' (Z.shiftl 1 k) = b
  /\ (forall i, i <> k -> Z.testbit (flags kp') i = Z.testbit (flags kp) i)
  /\ keycode kp' = keycode kp
  /\ delay_ms kp' = delay_ms kp.
Proof.
  intros Hf Hk kp'. repeat split.
  - rewrite is_set_testbit by lia. subst kp'.
    rewrite set_flag_testbit by lia. by rewrite bool_decide_eq_true_2.
  - intros i Hi. subst kp'. rewrite set_flag_testbit by lia.
    by rewrite bool_decide_eq_false_2.
Qed.

(** ** Records, arrays and the console dump *)

Lemma record_at_update_record_eq i f s :
  record_at (update_record i f s) i = f (record_at s i).
Proof. unfold record_at, update_record; simpl. by rewrite lookup_insert_eq. Qed.


Lemma array_set_is_Some {A} (l : list A) (i : Z) (v : A) :
  0 <= i < Z.of_nat (length l) ->
  exists l', array_set l i v = Some l' /\ length l' = length l.
Proof.
  intros Hi. unfold array_set. rewrite decide_True by done.
  eexists; split; [done|]. apply length_insert.
Qed.

Lemma print_macros_total (s : tdm) :
  0 <= MACRO_id s < Z.of_nat (length (MACRO_ends s)) ->
  exists ends,
    print_macros s = Some (emit MacroDump (set_MACRO_ends ends s))
    /\ length ends = length (MACRO_ends s).
Proof.
  intros Hid. unfold print_macros.
  destruct (array_set_is_Some (MACRO_ends s) (MACRO_id s) (MACRO_iterator s))
    as (ends & -> & Hlen); [done|].
  simpl. eauto.
Qed.

(** ** Delay entry *)


(** ** Recording: end of recording and the collision guard *)

Lemma set_iterator_out_id (s : tdm) :
  s = set_MACRO_iterator (MACRO_iterator s) (set_out (out s) s).
Proof. by destruct s. Qed.

Lemma tdm_record_end_trim_total (k : nat) :
  forall (fuel : nat) (s : tdm) (st : Z),
    MACRO_start s = Some st ->
    MACRO_iterator s = Some (st + Z.of_nat k * MACRO_direction s) ->
    (k < fuel)%nat ->
    exists (k' : nat) (o : list out_event),
      (k' <= k)%nat
      /\ tdm_record_end_trim fuel s
         = Some (set_MACRO_iterator
                   (Some (st + Z.of_nat k' * MACRO_direction s))
                   (set_out o s)).
Proof.
  induction k as [|k IH]; intros fuel s st Hst Hit Hk;
    (destruct fuel as [|fuel]; [lia|]); simpl.
  - exists 0%nat, (out s). split; [lia|].
    rewrite bool_decide_eq_false_2.
    + rewrite <- Hit. f_equal. apply set_iterator_out_id.
    + rewrite Hit, Hst. intros Hne. apply Hne. f_equal. lia.
  - assert (Hstay :
      Some s = Some (set_MACRO_iterator
                       (Some (st + Z.of_nat (S k) * MACRO_direction s))
                       (set_out (out s) s))).
    { rewrite <- Hit. f_equal. apply set_iterator_out_id. }
    case_bool_decide; [|exists (S k), (out s); split; [lia | exact Hstay]].
    rewrite Hit. simpl.
    match goal with |- context [if ?c then _ else _] => destruct c end;
      [|exists (S k), (out s); split; [lia | exact Hstay]].
    match goal with |- context [tdm_record_end_trim fuel ?s1] =>
      destruct (IH fuel s1 st) as (k' & o & Hk' & ->) end.
    + exact Hst.
    + simpl. f_equal. lia.
    + lia.
    + exists k', o. split; [lia|]. by destruct s.
Qed.

Lemma tdm_record_end_total (fuel : nat) (s : tdm) :
  cursor_ok fuel s ->
  exists s',
    tdm_record_end fuel s = Some s'
    /\ MACRO_buffers s' = MACRO_buffers s
    /\ MACRO_current_state s' = MACRO_current_state s.
Proof.
  intros (st & k & Hst & Hit & Hk & Hid). unfold tdm_record_end.
  rewrite Hit. simpl.
  match goal with |- context [print_macros ?s0] =>
    destruct (print_macros_total s0) as (ends & -> & Hlen); [exact Hid|] end.
  simpl.
  match goal with |- context [tdm_record_end_trim fuel ?s1] =>
    destruct (tdm_record_end_trim_total k fuel s1 st) as (k' & o & _ & ->);
      [exact Hst | exact Hit | exact Hk |] end.
  simpl.
  match goal with |- context [array_set ends ?i ?v] =>
    destruct (array_set_is_Some ends i v) as (ends' & -> & Hlen');
      [by rewrite Hlen|] end.
  simpl. unfold tdm_record_end_user.
  match goal with |- context [print_macros ?s2] =>
    destruct (print_macros_total s2) as (ends'' & -> & _);
      [simpl; by rewrite Hlen', Hlen|] end.
  eexists. split; [reflexivity|]. done.
Qed.

(** The guard of [tdm_record_key], in general: a call that is not ignored
    as a leading release ends the recording, without writing, exactly when
    the position one step BEHIND the cursor is the neighbour's end; in every
    other case the event is stored at the cursor and the delay and the
    flags of the record one step AHEAD are cleared, whichever slot that
    record belongs to. *)
Lemma tdm_record_key_collision_guard
    (fuel : nat) (kc : Z) (pressed : bool) (s : tdm) (it : Z) (nb : ptr) :
  cursor_ok fuel s ->
  MACRO_iterator s = Some it ->
  array_get (MACRO_ends s) (NEIGHBOR (MACRO_id s)) = Some nb ->
  negb pressed && negb (got_first_keydown s) = false ->
  (nb = Some (it - MACRO_direction s) ->
     exists s',
       tdm_record_key fuel kc pressed s = Some s'
       /\ tdm_record_end fuel (set_got_first_keydown true s) = Some s'
       /\ MACRO_buffers s' = MACRO_buffers s)
  /\ (nb <> Some (it - MACRO_direction s) -> MACRO_direction s <> 0 ->
     exists s',
       tdm_record_key fuel kc pressed s = Some s'
       /\ record_at s' it
          = set_flag (with_keycode kc (record_at s it)) FLAG_pressed pressed
       /\ record_at s' (it + MACRO_direction s)
          = clear_flags
              (with_delay_ms 0 (record_at s (it + MACRO_direction s)))
       /\ MACRO_iterator s' = Some (it + MACRO_direction s)).
Proof.
  intros Hc Hit Hnb Hlead. unfold tdm_record_key. rewrite Hlead. simpl.
  rewrite Hit, Hnb. simpl. split.
  - intros ->. rewrite bool_decide_eq_true_2 by done.
    destruct (tdm_record_end_total fuel (set_got_first_keydown true s))
      as (s' & Hs' & Hbuf & _).
    { destruct Hc as (st & k & ? & ? & ? & ?). by exists st, k. }
    exists s'. by rewrite Hs'.
  - intros Hne Hdir. rewrite bool_decide_eq_false_2 by congruence.
    unfold tdm_record_key_user.
    match goal with |- context [print_macros ?s0] =>
      destruct (print_macros_total s0) as (ends & -> & _) end.
    { destruct Hc as (? & ? & _ & _ & _ & ?). done. }
    simpl. eexists. split; [reflexivity|].
    split; [|split; [|reflexivity]].
    + unfold record_at at 1; simpl.
      rewrite !lookup_insert_ne by lia. rewrite lookup_insert_eq. simpl.
      by rewrite record_at_update_record_eq.
    + unfold record_at at 1; simpl. rewrite lookup_insert_eq. simpl.
      rewrite record_at_update_record_eq. do 2 f_equal.
      unfold record_at; simpl. by rewrite !lookup_insert_ne by lia.
Qed.

(** ** The state machine *)

Lemma matrix_get_initial (from to : State) :
  matrix_get initial_matrix from to = table_action from to.
Proof. destruct from, to; vm_compute; reflexivity. Qed.


(** ** Playback and looping *)

Lemma DIRECTION_cases (x : Z) : DIRECTION x = 1 \/ DIRECTION x = -1.
Proof.
  unfold DIRECTION.
  assert (Z.land x 1 = x mod 2) as -> by apply (Z.land_ones x 1 ltac:(lia)).
  pose proof (Z.mod_pos_bound x 2). lia.
Qed.

Lemma cursor_step (e d : Z) (k : nat) :
  e - Z.of_nat (S k) * d + d = e - Z.of_nat k * d.
Proof. rewrite Nat2Z.inj_succ. ring. Qed.

Lemma tdm_play_key_emit (kp : tdm_keypress_t) (s : tdm) :
  exists ev, tdm_play_key kp s = emit ev s.
Proof.
  unfold tdm_play_key, register_code, unregister_code.
  destruct (is_set kp FLAG_pressed); simpl; eauto.
Qed.

Lemma tdm_play_loop_outcome (k : nat) :
  forall (fuel : nat) (s : tdm) (e : Z),
    MACRO_end s = Some e ->
    MACRO_iterator s = Some (e - Z.of_nat k * MACRO_direction s) ->
    MACRO_direction s <> 0 ->
    (k < fuel)%nat ->
    exists s',
      tdm_play_loop fuel s = Some s'
      /\ ((exists o, s' = finished o s)
          \/ (exists o (k' : nat) delay,
                (k' < k)%nat
                /\ s' = paused o (e - Z.of_nat k' * MACRO_direction s) delay
                          (continuation s) s)).
Proof.
  induction k as [|k IH]; intros fuel s e He Hit Hdir Hk;
    (destruct fuel as [|fuel]; [lia|]); simpl.
  - rewrite bool_decide_eq_false_2.
    + eexists. split; [reflexivity|]. left. eexists. unfold finished.
      simpl. replace (MACRO_end s) with (MACRO_iterator s); [reflexivity|].
      rewrite Hit, He. f_equal. lia.
    + rewrite Hit, He. intros Hne. apply Hne. f_equal. lia.
  - rewrite bool_decide_eq_true_2.
    2:{ rewrite Hit, He. intros [= Heq]. nia. }
    rewrite Hit. simpl.
    match goal with |- context [tdm_play_key ?kp ?s0] =>
      destruct (tdm_play_key_emit kp s0) as [ev ->] end.
    simpl. rewrite !cursor_step.
    match goal with |- context [if negb ?c then _ else _] => destruct c end;
      simpl.
    + match goal with |- context [tdm_play_loop fuel ?s1] =>
        destruct (IH fuel s1 e) as (s' & -> & Hout) end; simpl; try done.
      { lia. }
      eexists. split; [reflexivity|].
      destruct Hout as [[o ->] | (o & k' & delay & Hk' & ->)].
      * left. exists o. by destruct s.
      * right. exists o, k', delay. split; [lia|]. by destruct s.
    + eexists. split; [reflexivity|]. right.
      eexists _, k, _. split; [lia|]. by destruct s.
Qed.

Lemma tdm_reset_iterator_at (s : tdm) (p : ptr) :
  array_get (MACRO_ends s) (MACRO_id s) = Some p ->
  tdm_reset_iterator s
  = Some (set_play_finished false
            (set_MACRO_end p
               (set_MACRO_iterator (Some (TDM_CURRENT_START (MACRO_id s)))
                  (set_MACRO_start (Some (TDM_CURRENT_START (MACRO_id s)))
                     (set_MACRO_direction (DIRECTION (MACRO_id s)) s))))).
Proof. intros Hp. unfold tdm_reset_iterator. simpl. by rewrite Hp. Qed.

Lemma tdm_loop_callback_keeps_looping (fuel : nat) (s : tdm) :
  MACRO_current_state s = STATE_looping ->
  playback_cursor fuel s ->
  exists (r : Z) (s' : tdm) (extra : list (deferred_token * (Z * DeferCallback))),
    tdm_loop_callback fuel s = Some (r, s')
    /\ MACRO_current_state s' = STATE_looping
    /\ transition_matrix s' = transition_matrix s
    /\ playback_cursor fuel s'
    /\ timers s' = timers s ++ extra
    /\ next_token s' = next_token s + Z.of_nat (length extra)
    /\ (forall x, x ∈ extra ->
          x.2.2 = tdm_loop_callback_fn /\ x.1 = next_token s)
    /\ (r = 0 -> extra <> []).
Proof.
  intros Hmode (e & n & k & Hends & Hend & Hdir & Hstart & Hit & Hn & Hk).
  unfold tdm_loop_callback, tdm_play.
  match goal with |- context [tdm_play_loop fuel ?s0] =>
    destruct (tdm_play_loop_outcome k fuel s0 e) as (s1 & -> & Hout) end;
    simpl; try done.
  { by rewrite Hdir. }
  { rewrite Hdir. destruct (DIRECTION_cases (MACRO_id s)); lia. }
  assert (Hcur : forall s2 : tdm,
            MACRO_ends s2 = MACRO_ends s -> MACRO_id s2 = MACRO_id s ->
            MACRO_end s2 = Some e ->
            MACRO_direction s2 = DIRECTION (MACRO_id s) ->
            forall k2 : nat, (k2 < fuel)%nat ->
            MACRO_iterator s2
            = Some (e - Z.of_nat k2 * DIRECTION (MACRO_id s)) ->
            playback_cursor fuel s2).
  { intros s2 E1 E2 E3 E4 k2 Hk2 E5. exists e, n, k2.
    by rewrite E1, E2, E3, E4, E5. }
  destruct Hout as [[o ->] | (o & k' & delay & Hk' & ->)]; simpl.
  - rewrite (tdm_reset_iterator_at _ (Some e)) by done. simpl.
    eexists _, _, []. split; [reflexivity|]. simpl.
    split; [done|]. split; [done|].
    split; [apply Hcur with (k2 := n); simpl; try done; by rewrite Hstart|].
    split; [by rewrite app_nil_r|]. split; [lia|].
    split; [intros x Hx; by apply elem_of_nil in Hx|].
    intros Hr. discriminate Hr.
  - assert (Hcont : continuation
                      (uprintf "play start: %d -> %d (Macro_iterator) %d\n"
                         (uprintf "temporal dynamic macro: playing slot %d \n"
                            (uprintf "play loop: t= %d\n" s)))
                    = tdm_loop_callback_fn).
    { unfold continuation. simpl. by rewrite bool_decide_eq_true_2. }
    rewrite Hcont.
    destruct (play_finished s) eqn:Hpf; simpl.
    + rewrite (tdm_reset_iterator_at _ (Some e)) by done. simpl.
      eexists _, _, [_]. split; [reflexivity|]. simpl.
      split; [done|]. split; [done|].
      split; [apply Hcur with (k2 := n); simpl; try done; by rewrite Hstart|].
      split; [done|]. split; [done|].
      split; [intros x Hx; by apply list_elem_of_singleton in Hx as ->|].
      intros Hr. discriminate Hr.
    + eexists _, _, [_]. split; [reflexivity|]. simpl.
      split; [done|]. split; [done|].
      split.
      { apply Hcur with (k2 := k'); simpl; try done; [lia|]. by rewrite Hdir. }
      split; [done|]. split; [done|].
      split; [intros x Hx; by apply list_elem_of_singleton in Hx as ->|].
      done.
Qed.

Lemma playback_cursor_frame (fuel : nat) (s s' : tdm) :
  MACRO_ends s' = MACRO_ends s -> MACRO_id s' = MACRO_id s ->
  MACRO_end s' = MACRO_end s -> MACRO_direction s' = MACRO_direction s ->
  MACRO_iterator s' = MACRO_iterator s ->
  playback_cursor fuel s -> playback_cursor fuel s'.
Proof.
  intros E1 E2 E3 E4 E5 (e & n & k & Hc). exists e, n, k.
  by rewrite E1, E2, E3, E4, E5.
Qed.

Lemma expire_keeps_looping (fuel : nat) (s : tdm) (t : deferred_token)
    (i : nat) (x : deferred_token * (Z * DeferCallback)) :
  loop_inv fuel s ->
  list_find (fun e => e.1 = t) (timers s) = Some (i, x) ->
  exists s', deferred_exec_expire fuel t s = Some s' /\ loop_inv fuel s'.
Proof.
  intros (Hmode & Hmat & Hne & Htim & Hcur) Hfind.
  apply list_find_Some in Hfind as (Hix & Hxt & _).
  apply list_elem_of_lookup_2 in Hix.
  destruct (Htim x Hix) as [Hcb Hlt]. simpl in Hxt.
  unfold deferred_exec_expire.
  destruct (list_find_elem_of (fun e => e.1 = t) (timers s) x Hix Hxt)
    as [[j y] Hfind].
  rewrite Hfind. simpl.
  apply list_find_Some in Hfind as (Hjy & Hyt & _).
  apply list_elem_of_lookup_2 in Hjy.
  destruct (Htim y Hjy) as [Hy _]. destruct y as [ty [dy cby]].
  simpl in Hy. subst cby. simpl.
  destruct (tdm_loop_callback_keeps_looping fuel s Hmode Hcur)
    as (r & s1 & extra & -> & Hmode1 & Hmat1 & Hcur1 & Htim1 & Hnext1
        & Hextra & Hr).
  simpl.
  assert (Hall : forall e, e ∈ timers s1 ->
            e.2.2 = tdm_loop_callback_fn /\ e.1 < next_token s1).
  { intros e He. rewrite Htim1 in He. apply elem_of_app in He as [He|He].
    - destruct (Htim e He) as [He1 He2]. destruct e as [te [de cbe]].
      simpl in *. split; [done|lia].
    - destruct (Hextra e He) as [He1 He2]. destruct e as [te [de cbe]].
      simpl in *. split; [done|].
      destruct extra; [by apply elem_of_nil in He|]. simpl in Hnext1. lia. }
  destruct (Z.eqb_spec r 0) as [->|Hr0].
  - eexists. split; [reflexivity|].
    unfold cancel_deferred_exec.
    split; [done|]. split; [simpl; congruence|]. simpl.
    split; [|split].
    + destruct extra as [|z extra]; [by destruct Hr|].
      assert (Hz : z ∈ filter (fun e => e.1 <> t) (timers s1)).
      { apply list_elem_of_filter. split.
        - destruct (Hextra z) as [_ Hz]; [left|].
          destruct z as [tz ?], x as [tx ?]. simpl in *. lia.
        - rewrite Htim1. apply elem_of_app. right. left. }
      intros Hnil. rewrite Hnil in Hz. by apply elem_of_nil in Hz.
    + intros e He. apply list_elem_of_filter in He as [_ He]. by apply Hall.
    + by apply (playback_cursor_frame fuel s1).
  - eexists. split; [reflexivity|].
    split; [done|]. split; [simpl; congruence|]. simpl.
    split; [|split].
    + rewrite Htim1. destruct (timers s); [done|]. simpl. discriminate.
    + intros e He. apply list_elem_of_fmap in He as (e0 & -> & He0).
      destruct (Hall e0 He0) as [He1 He2]. destruct e0 as [te [de cbe]].
      simpl in *. by case_bool_decide; simplify_eq/=.
    + by apply (playback_cursor_frame fuel s1).
Qed.

Lemma keycode_to_state_control (kc : Z) :
  tdm_is_control_key kc = true -> kc <> TDM_END ->
  keycode_to_state kc <> STATE_idle.
Proof.
  unfold tdm_is_control_key, keycode_to_state. intros Hc Hend.
  repeat match goal with
         | |- context [?a =? ?b] => destruct (Z.eqb_spec a b)
         end; simpl in *; congruence.
Qed.

Lemma tdm_clear_tokens_form (s : tdm) :
  exists l pt dt,
    tdm_clear_tokens s = set_delay_token dt (set_play_token pt (set_timers l s))
    /\ (forall e, e ∈ l -> e ∈ timers s).
Proof.
  unfold tdm_clear_tokens, cancel_deferred_exec.
  destruct (bool_decide (play_token s <> INVALID_DEFERRED_TOKEN)); simpl;
    destruct (bool_decide (delay_token s <> INVALID_DEFERRED_TOKEN)); simpl.
  - exists (filter (fun e => e.1 <> delay_token s)
              (filter (fun e => e.1 <> play_token s) (timers s))),
      INVALID_DEFERRED_TOKEN, INVALID_DEFERRED_TOKEN.
    split; [reflexivity|]. intros e He.
    by do 2 apply list_elem_of_filter in He as [_ He].
  - exists (filter (fun e => e.1 <> play_token s) (timers s)),
      INVALID_DEFERRED_TOKEN, (delay_token s).
    split; [reflexivity|]. intros e He.
    by apply list_elem_of_filter in He as [_ He].
  - exists (filter (fun e => e.1 <> delay_token s) (timers s)),
      (play_token s), INVALID_DEFERRED_TOKEN.
    split; [reflexivity|]. intros e He.
    by apply list_elem_of_filter in He as [_ He].
  - exists (timers s), (play_token s), (delay_token s).
    split; [by destruct s|done].
Qed.

Lemma tdm_loop_start_enters_loop (fuel : nat) (s : tdm) :
  MACRO_current_state s = STATE_looping ->
  transition_matrix s = initial_matrix ->
  (forall e, e ∈ timers s ->
     e.2.2 = tdm_loop_callback_fn /\ e.1 < next_token s) ->
  slot_ready fuel s ->
  exists s', tdm_loop_start s = Some s' /\ loop_inv fuel s'.
Proof.
  intros Hmode Hmat Htim (e & n & Hends & Hstart & Hn).
  unfold tdm_loop_start.
  set (s0 := tdm_play_user (MACRO_id s) s).
  assert (exists l pt dt,
            (if bool_decide (play_token s0 <> INVALID_DEFERRED_TOKEN)
             then tdm_clear_tokens s0 else s0)
            = set_delay_token dt (set_play_token pt (set_timers l s0))
            /\ (forall e, e ∈ l -> e ∈ timers s0)) as (l & pt & dt & -> & Hl).
  { case_bool_decide.
    - apply tdm_clear_tokens_form.
    - exists (timers s0), (play_token s0), (delay_token s0).
      split; [by destruct s|done]. }
  rewrite (tdm_reset_iterator_at _ (Some e)) by done. simpl.
  eexists. split; [reflexivity|].
  split; [done|]. split; [done|]. simpl.
  split; [by destruct l|]. split.
  - intros x Hx. apply elem_of_app in Hx as [Hx|Hx].
    + destruct (Htim x (Hl x Hx)) as [Hx1 Hx2]. destruct x as [tx [dx cbx]].
      simpl in *. split; [done|lia].
    + apply list_elem_of_singleton in Hx as ->. simpl. split; [done|lia].
  - exists e, n, n. simpl. by rewrite Hstart.
Qed.

Lemma tdm_loop_start_keeps_looping (fuel : nat) (s : tdm) :
  loop_inv fuel s ->
  exists s', tdm_loop_start s = Some s' /\ loop_inv fuel s'.
Proof.
  intros (Hmode & Hmat & _ & Htim & (e & n & k & Hends & _ & _ & Hstart & _
                                     & Hn & _)).
  apply tdm_loop_start_enters_loop; try done. by exists e, n.
Qed.

Lemma set_out_keeps_looping (fuel : nat) (o : list out_event) (s : tdm) :
  loop_inv fuel s -> loop_inv fuel (set_out o s).
Proof.
  intros (? & ? & ? & ? & ?). do 4 (split; [done|]).
  by apply (playback_cursor_frame fuel s).
Qed.

Lemma transition_trace_out (s : tdm) :
  exists o, transition_trace s = set_out o s.
Proof. eexists. reflexivity. Qed.

Lemma key_keeps_looping (fuel : nat) (s : tdm) (kc : Z) (pressed : bool) :
  loop_inv fuel s ->
  ~ (kc = TDM_END /\ pressed = false) ->
  exists r,
    process_temporal_dynamic_macro fuel kc pressed s = Some r
    /\ loop_inv fuel r.2.
Proof.
  intros Hinv Hstop. unfold process_temporal_dynamic_macro.
  pose proof Hinv as (Hmode & Hmat & _ & _ & (_ & n & _ & _ & _ & _ & _ & _
                                              & Hn & _)).
  destruct (tdm_is_control_key kc) eqn:Hctl.
  - destruct pressed; simpl; [eauto|].
    destruct fuel as [|fuel]; [lia|]. simpl.
    rewrite Hmat, matrix_get_initial, Hmode.
    pose proof (keycode_to_state_control kc Hctl) as Hnext.
    destruct (keycode_to_state kc);
      try (eexists; split; [reflexivity|];
           by apply set_out_keeps_looping).
    + simpl.
      match goal with |- context [tdm_loop_start ?s0] =>
        destruct (tdm_loop_start_keeps_looping (S fuel) s0) as (s' & -> & ?)
      end; [|simpl; eauto].
      destruct (transition_trace_out s) as [o ->].
      destruct Hinv as (? & ? & ? & ? & ?). do 4 (split; [done|]).
      by apply (playback_cursor_frame (S fuel) s).
    + destruct Hnext; [|done]. intros ->. by apply Hstop.
  - destruct (tdm_is_layer_key kc); [eauto|]. rewrite Hmode. eauto.
Qed.

Lemma quiet_step_keeps_looping (fuel : nat) (s s' : tdm) :
  loop_inv fuel s -> quiet_step fuel s s' -> loop_inv fuel s'.
Proof.
  intros Hinv Hstep. revert Hinv.
  destruct Hstep as [t s0 s1 Hexp | kc pressed s0 r Hstop Hkey]; intros Hinv.
  - destruct (list_find (fun e => e.1 = t) (timers s0)) as [[i x]|] eqn:Hfind.
    + destruct (expire_keeps_looping fuel s0 t i x Hinv Hfind)
        as (s2 & Hs2 & Hinv2).
      congruence.
    + unfold deferred_exec_expire in Hexp. by rewrite Hfind in Hexp.
  - destruct (key_keeps_looping fuel s0 kc pressed Hinv Hstop)
      as (r' & Hr' & Hinv'). congruence.
Qed.

Lemma loop_inv_preserved (fuel : nat) (s s' : tdm) :
  loop_inv fuel s -> rtc (quiet_step fuel) s s' -> loop_inv fuel s'.
Proof.
  intros Hinv Hrun. induction Hrun as [|s0 s1 s2 Hstep _ IH]; [done|].
  apply IH. by apply (quiet_step_keeps_looping fuel s0).
Qed.

Lemma TDM_LOOP_requests_looping :
  tdm_is_control_key TDM_LOOP = true
  /\ keycode_to_state TDM_LOOP = STATE_looping.
Proof.
  unfold tdm_is_control_key, keycode_to_state, TDM_SELECT, TDM_RECORD,
    TDM_DELAY, TDM_END, TDM_PLAY, TDM_LOOP.
  repeat match goal with
         | |- context [?a =? ?b] => destruct (Z.eqb_spec a b)
         end; simpl; split; (done || lia).
Qed.

(** Looping entered from idle: the release of [TDM_LOOP] is handled, the
    transition is performed and sets up [loop_inv]. *)
Lemma looping_entered_from_idle (fuel : nat) (s : tdm) :
  MACRO_current_state s = STATE_idle ->
  transition_matrix s = initial_matrix ->
  timers s = [] ->
  slot_ready fuel s ->
  exists r,
    process_temporal_dynamic_macro fuel TDM_LOOP false s = Some r
    /\ loop_inv fuel r.2.
Proof.
  intros Hmode Hmat Htim Hslot. unfold process_temporal_dynamic_macro.
  destruct TDM_LOOP_requests_looping as [-> ->]. simpl.
  destruct fuel as [|fuel]; [destruct Hslot as (? & ? & _ & _ & ?); lia|].
  simpl. rewrite Hmat, matrix_get_initial, Hmode. simpl.
  destruct (transition_trace_out s) as [o ->].
  match goal with |- context [tdm_loop_start ?s0] =>
    destruct (tdm_loop_start_enters_loop (S fuel) s0) as (s' & -> & Hinv) end;
    simpl; try done.
  - rewrite Htim. intros e He. by apply elem_of_nil in He.
  - eauto.
Qed.

(** C9: take any idle state with the transition table in place, nothing
    pending, and a current slot of fewer than [fuel] records.  The release
    of [TDM_LOOP] starts the loop; from then on, after any number of
    deferred-execution expiries (loop and delay resumptions) and of key
    events other than the release of [TDM_END] (the explicit stop), the
    mode is still looping, a deferred execution is still pending, and each
    pending one, when it expires, returns and leaves the mode looping:
    completing an iteration reschedules the next one and never goes to
    idle. *)
Theorem loop_never_self_terminates (fuel : nat) (s : tdm) :
  MACRO_current_state s = STATE_idle ->
  transition_matrix s = initial_matrix ->
  timers s = [] ->
  slot_ready fuel s ->
  exists r,
    process_temporal_dynamic_macro fuel TDM_LOOP false s = Some r
    /\ forall s',
         rtc (quiet_step fuel) r.2 s' ->
         MACRO_current_state s' = STATE_looping
         /\ timers s' <> []
         /\ (forall e, e ∈ timers s' ->
               exists s'',
                 deferred_exec_expire fuel e.1 s' = Some s''
                 /\ MACRO_current_state s'' = STATE_looping).
Proof.
  intros Hmode Hmat Htim Hslot.
  destruct (looping_entered_from_idle fuel s Hmode Hmat Htim Hslot)
    as (r & Hr & Hinv).
  exists r. split; [done|]. intros s' Hrun.
  pose proof (loop_inv_preserved fuel r.2 s' Hinv Hrun) as Hinv'.
  split; [apply Hinv'|]. split; [apply Hinv'|].
  intros e He.
  destruct (list_find_elem_of (fun x => x.1 = e.1) (timers s') e He eq_refl)
    as [[i x] Hfind].
  destruct (expire_keeps_looping fuel s' e.1 i x Hinv' Hfind)
    as (s'' & Hs'' & Hinv'').
  exists s''. split; [done | apply Hinv''].
Qed.

(** ** What the accumulator and the leading-release flag do *)

(** [tdm_record_delay] compares the accumulator with the cap BEFORE it
    appends the digit: at or below the cap every digit is appended. *)
Lemma tdm_record_delay_appends (kc : Z) (s : tdm) :
  MACRO_delay_next_key_ms s <= 7200000 ->
  keycode_to_int kc <> -1 ->
  MACRO_delay_next_key_ms (tdm_record_delay kc s)
  = uint32_t (uint32_t (MACRO_delay_next_key_ms s * 10) + keycode_to_int kc).
Proof.
  intros Hcap Hkey. unfold tdm_record_delay. simpl.
  destruct (Z.ltb_spec 7200000 (MACRO_delay_next_key_ms s)); [lia|].
  by destruct (Z.eqb_spec (keycode_to_int kc) (-1)).
Qed.

Lemma keycode_to_int_range (kc : Z) : -1 <= keycode_to_int kc <= 9.
Proof.
  unfold keycode_to_int.
  repeat match goal with
         | |- context [?a <=? ?b] => destruct (Z.leb_spec a b)
         | |- context [?a =? ?b] => destruct (Z.eqb_spec a b)
         end; simpl; lia.
Qed.

(** What the accumulator is bounded by: ten times the cap plus nine. *)
Lemma tdm_record_delay_bound (kc : Z) (s : tdm) :
  0 <= MACRO_delay_next_key_ms s <= 72000009 ->
  0 <= MACRO_delay_next_key_ms (tdm_record_delay kc s) <= 72000009.
Proof.
  intros Hacc. unfold tdm_record_delay. simpl.
  destruct (Z.ltb_spec 7200000 (MACRO_delay_next_key_ms s)); [done|].
  pose proof (keycode_to_int_range kc).
  destruct (Z.eqb_spec (keycode_to_int kc) (-1)); [done|]. simpl.
  unfold uint32_t. rewrite (Z.mod_small (_ * 10)) by lia.
  rewrite Z.mod_small by lia. lia.
Qed.

(** Beginning a recording session leaves [got_first_keydown] as the
    previous session left it. *)
Lemma tdm_record_start_keeps_got_first_keydown (s s' : tdm) :
  tdm_record_start s = Some s' ->
  got_first_keydown s' = got_first_keydown s.
Proof.
  unfold tdm_record_start, tdm_reset_iterator. simpl.
  destruct (array_get _ _); [|done]. by intros [= <-].
Qed.

(** Until the first press a release is ignored: nothing is stored and the
    cursor stays. *)
Lemma tdm_record_key_ignores_leading_release
    (fuel : nat) (kc : Z) (s : tdm) :
  got_first_keydown s = false ->
  tdm_record_key fuel kc false s
  = Some (uprintf "temporal dynamic macro: ignoring a leading key-up event\n"
            s).
Proof. intros Hfirst. unfold tdm_record_key. by rewrite Hfirst. Qed.

End Facts.

(** * Well-formed states

    What holds of every state the firmware reaches from [tdm_init], and
    with it that every key event and every expiry of a deferred execution
    runs to its end. *)

Section Reach.
Context `{Config}.

(** *** Slots and the recording cursor *)

Lemma slot_constants (s : tdm) :
  id_ok s ->
  (MACRO_id s = 0 /\ DIRECTION (MACRO_id s) = 1
   /\ TDM_CURRENT_START (MACRO_id s) = 0 /\ NEIGHBOR (MACRO_id s) = 1)
  \/ (MACRO_id s = 1 /\ DIRECTION (MACRO_id s) = -1
      /\ TDM_CURRENT_START (MACRO_id s) = TDM_BUFFER_SIZE
      /\ NEIGHBOR (MACRO_id s) = 0).
Proof.
  intros [Hid|Hid]; rewrite Hid; [left|right]; repeat split;
    unfold TDM_CURRENT_START, TDM_BUFFER_START, DIRECTION, NEIGHBOR;
    change (Z.land 0 1) with 0; change (Z.land 1 1) with 1;
    change (0 `quot` 2) with 0; change (1 `quot` 2) with 0;
    change (0 `rem` 2) with 0; change (1 `rem` 2) with 1; lia.
Qed.

Lemma array_get_0 {A} (x : A) (l : list A) : array_get (x :: l) 0 = Some x.
Proof. unfold array_get. by rewrite decide_True by lia. Qed.

Lemma array_get_1 {A} (x y : A) (l : list A) :
  array_get (x :: y :: l) 1 = Some y.
Proof. unfold array_get. by rewrite decide_True by lia. Qed.

Lemma array_set_0 {A} (x v : A) (l : list A) :
  array_set (x :: l) 0 v = Some (v :: l).
Proof.
  unfold array_set. rewrite decide_True; [done|]. simpl length. lia.
Qed.

Lemma array_set_1 {A} (x y v : A) (l : list A) :
  array_set (x :: y :: l) 1 v = Some (x :: v :: l).
Proof.
  unfold array_set. rewrite decide_True; [done|]. simpl length. lia.
Qed.

Lemma ends_view (s : tdm) :
  ends_ok s -> id_ok s -> exists m cap, slot_view s m cap.
Proof.
  intros (e0 & e1 & He & Hle & Hsz) Hid. unfold slot_view.
  destruct (slot_constants s Hid) as [(-> & -> & -> & ->)|(-> & -> & -> & ->)];
    rewrite He.
  - exists e0, e1. rewrite array_get_0, array_get_1.
    repeat split; try lia; do 2 f_equal; lia.
  - exists (TDM_BUFFER_SIZE - e1), (TDM_BUFFER_SIZE - e0).
    rewrite array_get_0, array_get_1.
    repeat split; try lia; do 2 f_equal; lia.
Qed.

Lemma ends_update (s : tdm) (m cap m' : Z) :
  ends_ok s -> id_ok s -> slot_view s m cap -> 0 <= m' <= cap + 1 ->
  exists ends,
    array_set (MACRO_ends s) (MACRO_id s)
      (Some (TDM_CURRENT_START (MACRO_id s) + m' * DIRECTION (MACRO_id s)))
    = Some ends
    /\ (forall s' : tdm,
          MACRO_ends s' = ends -> MACRO_id s' = MACRO_id s ->
          ends_ok s' /\ slot_view s' m' cap).
Proof.
  intros (e0 & e1 & He & Hle & Hsz) Hid (Hown & Hnb & Hm & Hcap) Hm'.
  unfold slot_view.
  destruct (slot_constants s Hid) as [(E1 & E2 & E3 & E4)|(E1 & E2 & E3 & E4)];
    rewrite E2, E3 in *; rewrite E4 in Hnb; rewrite E1, He in *.
  - rewrite array_get_0 in Hown. rewrite array_get_1 in Hnb.
    injection Hown as Hown; injection Hnb as Hnb.
    rewrite array_set_0. eexists; split; [reflexivity|].
    intros s' He' Hid'. rewrite He', Hid', E4, array_get_0, array_get_1.
    rewrite ?E2, ?E3.
    split; [exists (0 + m' * 1), e1; repeat split; try done; lia|].
    repeat split; try lia. do 2 f_equal; lia.
  - rewrite array_get_1 in Hown. rewrite array_get_0 in Hnb.
    injection Hown as Hown; injection Hnb as Hnb.
    rewrite array_set_1. eexists; split; [reflexivity|].
    intros s' He' Hid'. rewrite He', Hid', E4, array_get_0, array_get_1.
    rewrite ?E2, ?E3.
    split.
    + exists e0, (TDM_BUFFER_SIZE + m' * -1). repeat split; try done; lia.
    + repeat split; try lia. do 2 f_equal; lia.
Qed.

Lemma DIRECTION_cancel (x a b : Z) :
  a * DIRECTION x = b * DIRECTION x -> a = b.
Proof. destruct (DIRECTION_cases x) as [-> | ->]; lia. Qed.

Lemma rec_frame_refl (s : tdm) : rec_frame s s.
Proof. by repeat split. Qed.

Lemma rec_frame_trans (s1 s2 s3 : tdm) :
  rec_frame s1 s2 -> rec_frame s2 s3 -> rec_frame s1 s3.
Proof.
  intros (? & ? & ? & ? & ? & ?) (? & ? & ? & ? & ? & ?).
  repeat split; congruence.
Qed.

(** The parts of a recording state, with the neighbour's end named once. *)
Lemma rec_ok_view (s : tdm) :
  rec_ok s <->
  id_ok s /\ ends_ok s
  /\ MACRO_start s = Some (TDM_CURRENT_START (MACRO_id s))
  /\ MACRO_direction s = DIRECTION (MACRO_id s)
  /\ exists (k : nat) (m cap : Z),
       MACRO_iterator s
       = Some (TDM_CURRENT_START (MACRO_id s)
               + Z.of_nat k * DIRECTION (MACRO_id s))
       /\ slot_view s m cap /\ Z.of_nat k <= cap + 1.
Proof.
  split.
  - intros (He & Hid & Hst & Hdir & k & cap & Hit & Hnb & Hk).
    destruct (ends_view s He Hid) as (m & cap' & Hview).
    pose proof Hview as (_ & Hnb' & _).
    rewrite Hnb in Hnb'. injection Hnb' as Hnb'.
    assert (cap = cap') as <-.
    { apply (DIRECTION_cancel (MACRO_id s)). lia. }
    repeat split; try done. by exists k, m, cap.
  - intros (Hid & He & Hst & Hdir & k & m & cap & Hit & Hview & Hk).
    repeat split; try done. exists k, cap. repeat split; try done.
    apply Hview.
Qed.

(** Storing the cursor as the end of the current slot. *)
Lemma rec_store_end (s : tdm) :
  rec_ok s ->
  exists ends,
    array_set (MACRO_ends s) (MACRO_id s) (MACRO_iterator s) = Some ends
    /\ forall s' : tdm,
         MACRO_ends s' = ends -> MACRO_id s' = MACRO_id s ->
         MACRO_start s' = MACRO_start s ->
         MACRO_direction s' = MACRO_direction s ->
         MACRO_iterator s' = MACRO_iterator s ->
         rec_ok s'.
Proof.
  intros Hrec. pose proof Hrec as Hrec0.
  apply rec_ok_view in Hrec
    as (Hid & He & Hst & Hdir & k & m & cap & Hit & Hview & Hk).
  destruct (ends_update s m cap (Z.of_nat k) He Hid Hview) as (ends & Hset & Hnew);
    [lia|].
  exists ends. rewrite Hit. split; [done|].
  intros s' E1 E2 E3 E4 E5. destruct (Hnew s' E1 E2) as [He' Hview'].
  apply rec_ok_view. split; [unfold id_ok; by rewrite E2|].
  split; [done|]. rewrite E2, E3, E4, E5.
  repeat split; try done. exists k, (Z.of_nat k), cap.
  rewrite <- E2. split; [done|]. split; [done|lia].
Qed.

Lemma rec_print_macros (s : tdm) :
  rec_ok s ->
  exists ends,
    print_macros s = Some (emit MacroDump (set_MACRO_ends ends s))
    /\ rec_ok (emit MacroDump (set_MACRO_ends ends s)).
Proof.
  intros Hrec. destruct (rec_store_end s Hrec) as (ends & Hset & Hnew).
  unfold print_macros. rewrite Hset. simpl.
  exists ends. split; [reflexivity|]. by apply Hnew.
Qed.

(** Moving the cursor back towards the start of the slot. *)
Lemma rec_ok_moved_back (s s' : tdm) (st : Z) (k k' : nat) :
  rec_ok s ->
  MACRO_start s = Some st ->
  MACRO_iterator s = Some (st + Z.of_nat k * MACRO_direction s) ->
  (k' <= k)%nat ->
  MACRO_ends s' = MACRO_ends s -> MACRO_id s' = MACRO_id s ->
  MACRO_start s' = MACRO_start s ->
  MACRO_direction s' = MACRO_direction s ->
  MACRO_iterator s' = Some (st + Z.of_nat k' * MACRO_direction s) ->
  rec_ok s'.
Proof.
  intros Hrec Hst Hit Hk E1 E2 E3 E4 E5.
  apply rec_ok_view in Hrec
    as (Hid & He & Hst' & Hdir & k0 & m & cap & Hit' & Hview & Hk0).
  rewrite Hst in Hst'. injection Hst' as ->.
  rewrite Hdir in *. rewrite Hit in Hit'. injection Hit' as Hit'.
  assert (k = k0) as <-.
  { apply Nat2Z.inj, (DIRECTION_cancel (MACRO_id s)). lia. }
  apply rec_ok_view. unfold id_ok, ends_ok, slot_view in *.
  rewrite E1, E2, E3, E4, E5.
  repeat split; try done. exists k', m, cap. repeat split; try apply Hview.
  lia.
Qed.

Lemma rec_ok_frame (s s' : tdm) :
  MACRO_ends s' = MACRO_ends s -> MACRO_id s' = MACRO_id s ->
  MACRO_start s' = MACRO_start s ->
  MACRO_direction s' = MACRO_direction s ->
  MACRO_iterator s' = MACRO_iterator s ->
  rec_ok s -> rec_ok s'.
Proof.
  intros E1 E2 E3 E4 E5 (He & Hid & Hcur).
  unfold rec_ok, ends_ok, id_ok, rec_cursor in *.
  by rewrite E1, E2, E3, E4, E5.
Qed.

Lemma rec_bound (s : tdm) (st : Z) (k : nat) :
  rec_ok s ->
  MACRO_start s = Some st ->
  MACRO_iterator s = Some (st + Z.of_nat k * MACRO_direction s) ->
  Z.of_nat k <= TDM_BUFFER_SIZE + 1.
Proof.
  intros Hrec Hst Hit.
  apply rec_ok_view in Hrec
    as (Hid & He & Hst' & Hdir & k0 & m & cap & Hit' & Hview & Hk0).
  rewrite Hst in Hst'. injection Hst' as ->.
  rewrite Hdir in *. rewrite Hit in Hit'. injection Hit' as Hit'.
  assert (k = k0) as <-.
  { apply Nat2Z.inj, (DIRECTION_cancel (MACRO_id s)). lia. }
  destruct Hview as (_ & _ & _ & ?). lia.
Qed.

Lemma rec_record_end (fuel : nat) (s : tdm) :
  rec_ok s ->
  TDM_BUFFER_SIZE + 2 <= Z.of_nat fuel ->
  exists s',
    tdm_record_end fuel s = Some s' /\ rec_frame s s' /\ rec_ok s'.
Proof.
  intros Hrec Hfuel. pose proof Hrec as Hview.
  apply rec_ok_view in Hview
    as (Hid & He & Hst & Hdir & k & m & cap & Hit & Hview & Hk).
  unfold tdm_record_end. rewrite Hit. simpl.
  match goal with |- context [print_macros ?s0] =>
    destruct (rec_print_macros s0) as (ends & -> & Hrec1) end.
  { by apply (rec_ok_frame s). }
  simpl.
  match goal with |- context [tdm_record_end_trim fuel ?s1] =>
    destruct (tdm_record_end_trim_total k fuel s1
                (TDM_CURRENT_START (MACRO_id s))) as (k' & o & Hk' & ->);
      [exact Hst | simpl; by rewrite Hdir | |
       pose proof (rec_bound s1 (TDM_CURRENT_START (MACRO_id s)) k Hrec1 Hst)
         as Hbound ] end.
  { pose proof (rec_bound s (TDM_CURRENT_START (MACRO_id s)) k Hrec Hst) as Hb.
    rewrite Hdir in Hb. specialize (Hb Hit). lia. }
  simpl.
  match goal with
  | |- context [uprintf "temporal dynamic macro: slot %d saved, length: %d\n"
                  ?s2] =>
    destruct (rec_store_end
                (uprintf "temporal dynamic macro: slot %d saved, length: %d\n"
                   s2)) as (ends' & Hset & Hnew) end.
  { eapply (rec_ok_moved_back _ _ _ k k' Hrec1); simpl; try done.
    by rewrite Hdir. }
  simpl in Hset. rewrite Hset. simpl. unfold tdm_record_end_user.
  match goal with |- context [print_macros ?s3] =>
    destruct (rec_print_macros s3) as (ends'' & -> & Hrec3) end.
  { by apply Hnew. }
  eexists. split; [reflexivity|]. split; [by repeat split | done].
Qed.


Lemma rec_ok_cursor_at (s s' : tdm) (k' : nat) (m cap : Z) :
  id_ok s -> ends_ok s -> slot_view s m cap ->
  Z.of_nat k' <= cap + 1 ->
  MACRO_ends s' = MACRO_ends s -> MACRO_id s' = MACRO_id s ->
  MACRO_start s' = Some (TDM_CURRENT_START (MACRO_id s)) ->
  MACRO_direction s' = DIRECTION (MACRO_id s) ->
  MACRO_iterator s'
  = Some (TDM_CURRENT_START (MACRO_id s)
          + Z.of_nat k' * DIRECTION (MACRO_id s)) ->
  rec_ok s'.
Proof.
  intros Hid He Hview Hk E1 E2 E3 E4 E5.
  apply rec_ok_view. unfold id_ok, ends_ok, slot_view in *.
  rewrite E1, E2, E3, E4, E5.
  repeat split; try done. exists k', m, cap. repeat split; try apply Hview.
  done.
Qed.

Lemma rec_record_key (fuel : nat) (kc : Z) (pressed : bool) (s : tdm) :
  rec_ok s ->
  TDM_BUFFER_SIZE + 2 <= Z.of_nat fuel ->
  exists s',
    tdm_record_key fuel kc pressed s = Some s'
    /\ rec_frame s s' /\ rec_ok s'.
Proof.
  intros Hrec Hfuel. unfold tdm_record_key.
  destruct (negb pressed && negb (got_first_keydown s)).
  { eexists. split; [reflexivity|]. split; [by repeat split|].
    by apply (rec_ok_frame s). }
  pose proof Hrec as Hview.
  apply rec_ok_view in Hview
    as (Hid & He & Hst & Hdir & k & m & cap & Hit & Hview & Hk).
  pose proof Hview as (_ & Hnb & Hm & _).
  simpl. rewrite Hit, Hnb. simpl. case_bool_decide as Hguard.
  - destruct (rec_record_end fuel (set_got_first_keydown true s))
      as (s' & -> & Hframe & Hrec'); [by apply (rec_ok_frame s) | done |].
    exists s'. split; [done|]. split; [|done]. apply Hframe.
  - assert (Z.of_nat (S k) <= cap + 1) as Hk1.
    { assert (Z.of_nat k <> cap + 1); [|lia]. intros Heq. apply Hguard.
      rewrite Hdir. do 2 f_equal.
      destruct (DIRECTION_cases (MACRO_id s)) as [-> | ->]; lia. }
    unfold tdm_record_key_user.
    match goal with |- context [print_macros ?s3] =>
      destruct (rec_print_macros s3) as (ends & -> & Hrec3) end.
    { apply (rec_ok_cursor_at s _ (S k) m cap); simpl; try done.
      rewrite Hdir. f_equal. rewrite Nat2Z.inj_succ. ring. }
    eexists. split; [reflexivity|]. split; [by repeat split|].
    revert Hrec3. apply rec_ok_frame; simpl; reflexivity.
Qed.

Lemma tdm_record_delay_start_trim_total (k : nat) :
  forall (fuel : nat) (s : tdm) (st : Z),
    MACRO_start s = Some st ->
    MACRO_iterator s = Some (st + Z.of_nat k * MACRO_direction s) ->
    (k < fuel)%nat ->
    exists (k' : nat) (o : list out_event),
      (k' <= k)%nat
      /\ tdm_record_delay_start_trim fuel s
         = Some (set_MACRO_iterator
                   (Some (st + Z.of_nat k' * MACRO_direction s))
                   (set_out o s)).
Proof.
  induction k as [|k IH]; intros fuel s st Hst Hit Hk;
    (destruct fuel as [|fuel]; [lia|]); simpl.
  - exists 0%nat, (out s). split; [lia|].
    rewrite bool_decide_eq_false_2.
    + rewrite <- Hit. f_equal. apply set_iterator_out_id.
    + rewrite Hit, Hst. intros Hne. apply Hne. f_equal. lia.
  - assert (Hstay :
      Some s = Some (set_MACRO_iterator
                       (Some (st + Z.of_nat (S k) * MACRO_direction s))
                       (set_out (out s) s))).
    { rewrite <- Hit. f_equal. apply set_iterator_out_id. }
    case_bool_decide; [|exists (S k), (out s); split; [lia | exact Hstay]].
    rewrite Hit. simpl.
    match goal with |- context [if ?c then _ else _] => destruct c end;
      [|exists (S k), (out s); split; [lia | exact Hstay]].
    match goal with |- context [tdm_record_delay_start_trim fuel ?s1] =>
      destruct (IH fuel s1 st) as (k' & o & Hk' & ->) end.
    + exact Hst.
    + simpl. f_equal. lia.
    + lia.
    + exists k', o. split; [lia|]. by destruct s.
Qed.

Lemma rec_record_delay_start (fuel : nat) (s : tdm) :
  rec_ok s ->
  TDM_BUFFER_SIZE + 2 <= Z.of_nat fuel ->
  exists s',
    tdm_record_delay_start fuel s = Some s'
    /\ rec_frame s s' /\ rec_ok s'.
Proof.
  intros Hrec Hfuel. pose proof Hrec as Hview.
  apply rec_ok_view in Hview
    as (Hid & He & Hst & Hdir & k & m & cap & Hit & Hview & Hk).
  unfold tdm_record_delay_start.
  match goal with |- context [tdm_record_delay_start_trim fuel ?s1] =>
    destruct (tdm_record_delay_start_trim_total k fuel s1
                (TDM_CURRENT_START (MACRO_id s))) as (k' & o & Hk' & ->);
      [exact Hst | simpl; by rewrite Hdir | |] end.
  { pose proof (rec_bound s (TDM_CURRENT_START (MACRO_id s)) k Hrec Hst) as Hb.
    rewrite Hdir in Hb. specialize (Hb Hit). lia. }
  eexists. split; [reflexivity|]. split; [by repeat split|].
  eapply (rec_ok_moved_back s _ _ k k' Hrec); simpl; try done.
  by rewrite Hdir.
Qed.

Lemma rec_record_delay_end (s : tdm) :
  rec_ok s ->
  exists s',
    tdm_record_delay_end s = Some s' /\ rec_frame s s' /\ rec_ok s'.
Proof.
  intros Hrec. unfold tdm_record_delay_end.
  destruct (rec_print_macros s Hrec) as (ends & -> & Hrec1). simpl.
  destruct Hrec as (_ & _ & _ & _ & k & cap & -> & _). simpl.
  eexists. split; [reflexivity|]. split; [by repeat split|].
  by apply (rec_ok_frame (emit MacroDump (set_MACRO_ends ends s))).
Qed.

Lemma rec_record_start (s : tdm) :
  ends_ok s -> id_ok s ->
  exists s',
    tdm_record_start s = Some s' /\ rec_frame s s' /\ rec_ok s'.
Proof.
  intros He Hid. destruct (ends_view s He Hid) as (m & cap & Hview).
  pose proof Hview as (Hown & _ & Hm & _).
  unfold tdm_record_start.
  erewrite tdm_reset_iterator_at by (simpl; exact Hown). simpl.
  eexists. split; [reflexivity|]. split; [by repeat split|].
  apply (rec_ok_cursor_at s _ 0 m cap); simpl; try done; [lia|].
  f_equal. lia.
Qed.

(** *** Playback *)

Lemma play_cursor_frame (s s' : tdm) :
  MACRO_ends s' = MACRO_ends s -> MACRO_id s' = MACRO_id s ->
  MACRO_end s' = MACRO_end s -> MACRO_direction s' = MACRO_direction s ->
  MACRO_iterator s' = MACRO_iterator s ->
  play_cursor s -> play_cursor s'.
Proof.
  intros E1 E2 E3 E4 E5 (e & n & k & Hc). exists e, n, k.
  by rewrite E1, E2, E3, E4, E5.
Qed.

Lemma play_cursor_at (s s' : tdm) (k' : nat) :
  play_cursor s ->
  MACRO_ends s' = MACRO_ends s -> MACRO_id s' = MACRO_id s ->
  MACRO_end s' = MACRO_end s -> MACRO_direction s' = MACRO_direction s ->
  (forall (e : Z) (n k : nat),
     MACRO_end s = Some e ->
     TDM_CURRENT_START (MACRO_id s)
     = e - Z.of_nat n * DIRECTION (MACRO_id s) ->
     MACRO_iterator s = Some (e - Z.of_nat k * DIRECTION (MACRO_id s)) ->
     (k' <= n)%nat
     /\ MACRO_iterator s' = Some (e - Z.of_nat k' * DIRECTION (MACRO_id s))) ->
  play_cursor s'.
Proof.
  intros (e & n & k & Hends & Hend & Hdir & Hstart & Hit & Hk & Hn)
    E1 E2 E3 E4 Hnew.
  destruct (Hnew e n k Hend Hstart Hit) as [Hk' Hit'].
  exists e, n, k'. by rewrite E1, E2, E3, E4.
Qed.

(** The cursor of a playback session right after [tdm_reset_iterator]. *)
Lemma play_cursor_reset (s : tdm) :
  ends_ok s -> id_ok s ->
  exists p,
    array_get (MACRO_ends s) (MACRO_id s) = Some p
    /\ forall s' : tdm,
         MACRO_ends s' = MACRO_ends s -> MACRO_id s' = MACRO_id s ->
         MACRO_end s' = p ->
         MACRO_direction s' = DIRECTION (MACRO_id s) ->
         MACRO_iterator s' = Some (TDM_CURRENT_START (MACRO_id s)) ->
         play_cursor s'.
Proof.
  intros He Hid. destruct (ends_view s He Hid) as (m & cap & Hview).
  destruct Hview as (Hown & _ & Hm & Hcap).
  eexists. split; [exact Hown|]. intros s' E1 E2 E3 E4 E5.
  exists (TDM_CURRENT_START (MACRO_id s) + m * DIRECTION (MACRO_id s)),
    (Z.to_nat m), (Z.to_nat m).
  rewrite E1, E2, E3, E4, E5, Z2Nat.id by lia.
  repeat split; try done; try lia. f_equal. lia.
Qed.

Lemma tdm_play_outcome (fuel : nat) (s : tdm) :
  play_cursor s ->
  TDM_BUFFER_SIZE + 2 <= Z.of_nat fuel ->
  exists s',
    tdm_play fuel s = Some s'
    /\ play_cursor s'
    /\ ((exists o, s' = finished o s)
        \/ (exists o it delay,
              s' = paused o it delay (continuation s) s)).
Proof.
  intros Hcur Hfuel. pose proof Hcur as Hcur0.
  destruct Hcur as (e & n & k & Hends & Hend & Hdir & Hstart & Hit & Hk & Hn).
  unfold tdm_play.
  match goal with |- context [tdm_play_loop fuel ?s0] =>
    destruct (tdm_play_loop_outcome k fuel s0 e) as (s' & -> & Hout) end;
    simpl; try done.
  { by rewrite Hdir. }
  { rewrite Hdir. destruct (DIRECTION_cases (MACRO_id s)); lia. }
  { lia. }
  exists s'. split; [done|].
  destruct Hout as [[o ->] | (o & k' & delay & Hk' & ->)].
  - split.
    + apply (play_cursor_at s _ 0 Hcur0); simpl; try done.
      intros e0 n0 k0 E1 E2 E3. split; [lia|]. rewrite E1. f_equal. lia.
    + left. by exists o.
  - split.
    + apply (play_cursor_at s _ k' Hcur0); simpl; try done.
      intros e0 n0 k0 E1 E2 E3. rewrite Hend in E1. injection E1 as <-.
      rewrite Hit in E3. injection E3 as E3.
      assert (k0 = k) as ->.
      { apply Nat2Z.inj, (DIRECTION_cancel (MACRO_id s)). lia. }
      assert (n0 = n) as ->.
      { apply Nat2Z.inj, (DIRECTION_cancel (MACRO_id s)). lia. }
      split; [lia|]. by rewrite Hdir.
    + right. by exists o, (e - Z.of_nat k' * MACRO_direction s), delay.
Qed.

Lemma tdm_clear_tokens_empties (s : tdm) :
  (forall e, e ∈ timers s ->
     e.1 <> INVALID_DEFERRED_TOKEN
     /\ (e.1 = play_token s \/ e.1 = delay_token s)) ->
  exists pt dt,
    tdm_clear_tokens s
    = set_delay_token dt (set_play_token pt (set_timers [] s)).
Proof.
  intros Htim.
  assert (timers (tdm_clear_tokens s) = []) as Hnil.
  { apply elem_of_nil_inv. intros e He.
    unfold tdm_clear_tokens, cancel_deferred_exec in He.
    destruct (decide (play_token s = INVALID_DEFERRED_TOKEN)) as [Hp|Hp];
      [rewrite (bool_decide_eq_false_2 (play_token s <> _)) in He by tauto
      |rewrite (bool_decide_eq_true_2 (play_token s <> _)) in He by done];
      simpl in He;
      (destruct (decide (delay_token s = INVALID_DEFERRED_TOKEN)) as [Hd|Hd];
       [rewrite (bool_decide_eq_false_2 (delay_token s <> _)) in He by tauto
       |rewrite (bool_decide_eq_true_2 (delay_token s <> _)) in He by done]);
      simpl in He;
      repeat (apply list_elem_of_filter in He as [? He]);
      destruct (Htim e He) as [Hne [Heq|Heq]]; congruence. }
  destruct (tdm_clear_tokens_form s) as (l & pt & dt & Hform & _).
  rewrite Hform in Hnil. simpl in Hnil. subst l. by exists pt, dt.
Qed.

(** *** Well-formed states are closed under every step *)

Lemma wf_frame (s s' : tdm) :
  transition_matrix s' = transition_matrix s ->
  MACRO_ends s' = MACRO_ends s -> MACRO_id s' = MACRO_id s ->
  MACRO_selection s' = MACRO_selection s ->
  next_token s' = next_token s ->
  mode_ok s' ->
  wf s -> wf s'.
Proof.
  intros E1 E2 E3 E4 E5 Hmode (Hmat & He & Hid & Hsel & Hnext & _).
  unfold wf, ends_ok, id_ok in *. by rewrite E1, E2, E3, E4, E5.
Qed.

Lemma mode_ok_frame (s s' : tdm) :
  MACRO_current_state s' = MACRO_current_state s ->
  timers s' = timers s -> next_token s' = next_token s ->
  play_token s' = play_token s -> delay_token s' = delay_token s ->
  play_finished s' = play_finished s ->
  MACRO_ends s' = MACRO_ends s -> MACRO_id s' = MACRO_id s ->
  MACRO_start s' = MACRO_start s -> MACRO_end s' = MACRO_end s ->
  MACRO_direction s' = MACRO_direction s ->
  MACRO_iterator s' = MACRO_iterator s ->
  mode_ok s -> mode_ok s'.
Proof.
  intros E1 E2 E3 E4 E5 E6 E7 E8 E9 E10 E11 E12.
  unfold mode_ok, rec_cursor, play_cursor.
  by rewrite E1, E2, E3, E4, E5, E6, E7, E8, E9, E10, E11, E12.
Qed.

(** A state that differs in console and sink output only. *)
Lemma wf_set_out (o : list out_event) (s : tdm) : wf s -> wf (set_out o s).
Proof.
  intros Hwf. apply (wf_frame s); try done.
  apply (mode_ok_frame s); try done. apply Hwf.
Qed.

Lemma wf_rec_step (s s' : tdm) :
  transition_matrix s = initial_matrix ->
  0 <= MACRO_selection s -> 1 <= next_token s -> timers s = [] ->
  rec_frame s s' -> rec_ok s' ->
  MACRO_current_state s <> STATE_playing ->
  MACRO_current_state s <> STATE_looping ->
  wf s'.
Proof.
  intros Hmat Hsel Hnext Htim (E1 & E2 & E3 & E4 & E5 & E6) (He & Hid & Hcur)
    Hnp Hnl.
  unfold wf, mode_ok. rewrite E1, E2, E4, E5, E6.
  do 5 (split; [done|]).
  by destruct (MACRO_current_state s).
Qed.

Lemma wf_rec_ok (s : tdm) :
  wf s ->
  MACRO_current_state s = STATE_recording
  \/ MACRO_current_state s = STATE_recording_delay ->
  rec_ok s.
Proof.
  intros (_ & He & Hid & _ & _ & Hmode) Hrec. unfold mode_ok in Hmode.
  repeat split; try done; destruct Hrec as [Hrec|Hrec];
    rewrite Hrec in Hmode; apply Hmode.
Qed.

Lemma wf_play_stop (s : tdm) :
  transition_matrix s = initial_matrix -> ends_ok s -> id_ok s ->
  0 <= MACRO_selection s -> 1 <= next_token s ->
  MACRO_current_state s = STATE_idle ->
  (forall e, e ∈ timers s ->
     e.1 <> INVALID_DEFERRED_TOKEN
     /\ (e.1 = play_token s \/ e.1 = delay_token s)) ->
  wf (tdm_play_stop s).
Proof.
  intros Hmat He Hid Hsel Hnext Hmode Htim. unfold tdm_play_stop.
  match goal with |- context [tdm_clear_tokens ?s0] =>
    destruct (tdm_clear_tokens_empties s0) as (pt & dt & ->); [exact Htim|]
  end.
  unfold wf, mode_ok, ends_ok, id_ok in *. simpl. by rewrite Hmode.
Qed.

Lemma ends_ok_frame (s s' : tdm) :
  MACRO_ends s' = MACRO_ends s -> ends_ok s -> ends_ok s'.
Proof. intros E. unfold ends_ok. by rewrite E. Qed.

Lemma id_ok_frame (s s' : tdm) :
  MACRO_id s' = MACRO_id s -> id_ok s -> id_ok s'.
Proof. intros E. unfold id_ok. by rewrite E. Qed.

Lemma transition_to_idle_stops (fuel : nat) (s : tdm) :
  transition_matrix s = initial_matrix ->
  MACRO_current_state s = STATE_playing
  \/ MACRO_current_state s = STATE_looping ->
  tdm_state_transition (S fuel) STATE_idle s
  = Some (true,
          tdm_play_stop
            (set_MACRO_current_state STATE_idle (transition_trace s))).
Proof.
  intros Hmat Hmode. simpl. rewrite Hmat, matrix_get_initial.
  by destruct Hmode as [-> | ->].
Qed.

Lemma wf_play_start (fuel : nat) (s : tdm) :
  transition_matrix s = initial_matrix -> ends_ok s -> id_ok s ->
  0 <= MACRO_selection s -> 1 <= next_token s ->
  MACRO_current_state s = STATE_playing ->
  timers s = [] ->
  TDM_BUFFER_SIZE + 2 <= Z.of_nat fuel ->
  exists s',
    tdm_play_start fuel (tdm_state_transition fuel) s = Some s' /\ wf s'.
Proof.
  intros Hmat He Hid Hsel Hnext Hmode Htim Hfuel.
  destruct (play_cursor_reset s He Hid) as (p & Hp & Hreset).
  pose proof He as (e0 & e1 & _ & Hle & Hsz).
  unfold tdm_play_start.
  erewrite tdm_reset_iterator_at by (simpl; exact Hp). simpl.
  match goal with |- context [tdm_play fuel ?s2] =>
    destruct (tdm_play_outcome fuel s2) as (s3 & -> & Hcur & Hout);
      [by apply Hreset | done |] end.
  simpl.
  destruct Hout as [[o ->] | (o & it & delay & ->)]; simpl.
  - match goal with |- context [tdm_clear_tokens ?s4] =>
      destruct (tdm_clear_tokens_empties s4) as (pt & dt & ->) end.
    { simpl. rewrite Htim. intros e He'. by apply elem_of_nil in He'. }
    destruct fuel as [|fuel]; [lia|].
    rewrite transition_to_idle_stops by (simpl; auto).
    match goal with |- context [transition_trace ?x] =>
      destruct (transition_trace_out x) as [o' ->] end.
    simpl. eexists. split; [reflexivity|].
    apply wf_play_stop; simpl; try done.
    intros e He'. by apply elem_of_nil in He'.
  - eexists. split; [reflexivity|].
    split; [done|]. split; [revert He; by apply ends_ok_frame|].
    split; [done|]. split; [done|]. split; [simpl; lia|].
    unfold mode_ok. simpl. rewrite Hmode, Htim.
    split; [done|]. split; [done|]. split; [lia|].
    unfold continuation. simpl. rewrite Hmode. simpl. eauto.
Qed.

Lemma wf_loop_start (s : tdm) :
  transition_matrix s = initial_matrix -> ends_ok s -> id_ok s ->
  0 <= MACRO_selection s -> 1 <= next_token s ->
  MACRO_current_state s = STATE_looping ->
  (forall e, e ∈ timers s ->
     play_token s <> INVALID_DEFERRED_TOKEN
     /\ e.1 <> INVALID_DEFERRED_TOKEN
     /\ (e.1 = play_token s \/ e.1 = delay_token s)) ->
  exists s', tdm_loop_start s = Some s' /\ wf s'.
Proof.
  intros Hmat He Hid Hsel Hnext Hmode Htim.
  destruct (play_cursor_reset s He Hid) as (p & Hp & Hreset).
  unfold tdm_loop_start.
  set (s0 := tdm_play_user (MACRO_id s) s).
  assert (exists pt dt,
            (if bool_decide (play_token s0 <> INVALID_DEFERRED_TOKEN)
             then tdm_clear_tokens s0 else s0)
            = set_delay_token dt (set_play_token pt (set_timers [] s0)))
    as (pt & dt & ->).
  { case_bool_decide as Hpt.
    - apply tdm_clear_tokens_empties. intros e He'.
      destruct (Htim e He') as (_ & ? & ?). done.
    - exists (play_token s0), (delay_token s0).
      assert (timers s = []) as Hnil.
      { apply elem_of_nil_inv. intros e He'.
        destruct (Htim e He') as (Hne & _). by apply Hne. }
      subst s0. destruct s; simpl in *. by rewrite Hnil. }
  erewrite tdm_reset_iterator_at by (simpl; exact Hp). simpl.
  eexists. split; [reflexivity|].
  split; [done|]. split; [revert He; by apply ends_ok_frame|].
  split; [done|]. split; [done|]. split; [simpl; lia|].
  unfold mode_ok. simpl. rewrite Hmode.
  split; [done|]. split; [by apply Hreset|]. split; [done|].
  eexists _, _. split; [reflexivity|]. split; [by left | lia].
Qed.

Lemma wf_select_start (s : tdm) :
  wf s -> MACRO_current_state s = STATE_idle ->
  wf (tdm_select_start
        (set_MACRO_current_state STATE_selecting (transition_trace s))).
Proof.
  intros (Hmat & He & Hid & Hsel & Hnext & Hmode) Hidle.
  destruct (transition_trace_out s) as [o ->].
  unfold mode_ok in Hmode. rewrite Hidle in Hmode.
  split; [done|]. split; [revert He; by apply ends_ok_frame|].
  split; [done|]. split; [done|]. split; [done|]. done.
Qed.

Lemma uint8_t_nonneg (x : Z) : 0 <= uint8_t x.
Proof. unfold uint8_t. apply Z.mod_pos_bound. lia. Qed.

Lemma wf_select_macro (kc : Z) (s : tdm) :
  wf s -> wf (tdm_select_macro kc s).
Proof.
  intros Hwf. unfold tdm_select_macro.
  destruct (TDM_NUM_MACROS <=? MACRO_selection s); [done|].
  destruct (keycode_to_int kc =? -1); [by apply wf_set_out|].
  destruct Hwf as (Hmat & He & Hid & Hsel & Hnext & Hmode).
  split; [done|]. split; [revert He; by apply ends_ok_frame|].
  split; [done|]. split; [apply uint8_t_nonneg|]. split; [done|].
  revert Hmode. by apply mode_ok_frame.
Qed.

Lemma wf_select_end (s : tdm) :
  wf s -> MACRO_current_state s = STATE_selecting ->
  wf (tdm_select_end
        (set_MACRO_current_state STATE_idle (transition_trace s))).
Proof.
  intros (Hmat & He & Hid & Hsel & Hnext & Hmode) Hselecting.
  destruct (transition_trace_out s) as [o ->].
  unfold mode_ok in Hmode. rewrite Hselecting in Hmode.
  unfold tdm_select_end. simpl.
  destruct (Z.leb_spec TDM_NUM_MACROS (MACRO_selection s)) as [Hbig|Hsmall];
    (split; [done|]); (split; [revert He; by apply ends_ok_frame|]);
    (split; [|done]).
  - by right.
  - unfold id_ok, TDM_NUM_MACROS in *. simpl. lia.
Qed.

Lemma rec_ok_moved (st : State) (o : list out_event) (s : tdm) :
  ends_ok s -> id_ok s -> rec_cursor s ->
  rec_ok (set_MACRO_current_state st (set_out o s)).
Proof. intros He Hid Hrec. split; [exact He|]. split; [exact Hid|exact Hrec]. Qed.

Lemma wf_transition (fuel : nat) (next_state : State) (s : tdm) :
  wf s ->
  TDM_BUFFER_SIZE + 3 <= Z.of_nat fuel ->
  exists r, tdm_state_transition fuel next_state s = Some r /\ wf r.2.
Proof.
  intros Hwf Hfuel.
  pose proof Hwf as (Hmat & He & Hid & Hsel & Hnext & Hmode).
  pose proof He as (e0 & e1 & _ & Hle & Hsz).
  destruct fuel as [|fuel]; [lia|].
  assert (TDM_BUFFER_SIZE + 2 <= Z.of_nat fuel) as Hfuel' by lia.
  simpl. rewrite Hmat, matrix_get_initial.
  destruct (transition_trace_out s) as [o Ho].
  unfold mode_ok in Hmode.
  destruct (MACRO_current_state s) eqn:Hcur, next_state;
    match goal with
    | |- context [table_action ?a ?b] =>
      let v := eval vm_compute in (table_action a b) in
      change (table_action a b) with v
    end; cbv beta iota;
    try lazymatch goal with
        | |- exists r, Some (false, _) = Some r /\ _ =>
          eexists; split; [reflexivity|]; by apply wf_set_out
        end;
    rewrite Ho; simpl.
  - (* recording -> recording_delay *)
    destruct Hmode as [Htim Hrec].
    match goal with |- context [tdm_record_delay_start fuel ?s1] =>
      destruct (rec_record_delay_start fuel s1) as (s' & -> & Hframe & Hrec')
    end; [|done|].
    { by apply rec_ok_moved. }
    eexists. split; [reflexivity|].
    by eapply wf_rec_step; [| | | |exact Hframe|..].
  - (* recording -> idle *)
    destruct Hmode as [Htim Hrec].
    match goal with |- context [tdm_record_end fuel ?s1] =>
      destruct (rec_record_end fuel s1) as (s' & -> & Hframe & Hrec')
    end; [|done|].
    { by apply rec_ok_moved. }
    eexists. split; [reflexivity|].
    by eapply wf_rec_step; [| | | |exact Hframe|..].
  - (* recording_delay -> recording *)
    destruct Hmode as [Htim Hrec].
    match goal with |- context [tdm_record_delay_end ?s1] =>
      destruct (rec_record_delay_end s1) as (s' & -> & Hframe & Hrec')
    end.
    { by apply rec_ok_moved. }
    eexists. split; [reflexivity|].
    by eapply wf_rec_step; [| | | |exact Hframe|..].
  - (* playing -> idle *)
    destruct Hmode as (_ & _ & Hdt & delay & Htim).
    eexists. split; [reflexivity|].
    apply wf_play_stop; simpl; try done.
    intros e He'. rewrite Htim in He'.
    apply list_elem_of_singleton in He' as ->. simpl.
    unfold INVALID_DEFERRED_TOKEN. split; [lia | by right].
  - (* looping -> looping *)
    destruct Hmode as (_ & _ & Hpt & t & delay & Htim & Ht & Hrange).
    match goal with |- context [tdm_loop_start ?s1] =>
      destruct (wf_loop_start s1) as (s' & -> & Hwf') end; simpl; try done.
    + intros e He'. rewrite Htim in He'.
      apply list_elem_of_singleton in He' as ->. simpl.
      unfold INVALID_DEFERRED_TOKEN. repeat split; (lia || done).
    + eauto.
  - (* looping -> idle *)
    destruct Hmode as (_ & _ & Hpt & t & delay & Htim & Ht & Hrange).
    eexists. split; [reflexivity|].
    apply wf_play_stop; simpl; try done.
    intros e He'. rewrite Htim in He'.
    apply list_elem_of_singleton in He' as ->. simpl.
    unfold INVALID_DEFERRED_TOKEN. split; [lia | done].
  - (* selecting -> idle *)
    eexists. split; [reflexivity|]. rewrite <- Ho.
    by apply wf_select_end.
  - (* idle -> recording *)
    match goal with |- context [tdm_record_start ?s1] =>
      destruct (rec_record_start s1) as (s' & -> & Hframe & Hrec')
    end; [revert He; by apply ends_ok_frame | done |].
    eexists. split; [reflexivity|].
    by eapply wf_rec_step; [| | | |exact Hframe|..].
  - (* idle -> playing *)
    match goal with |- context [tdm_play_start fuel _ ?s1] =>
      destruct (wf_play_start fuel s1) as (s' & -> & Hwf') end;
      simpl; try done; eauto.
  - (* idle -> looping *)
    match goal with |- context [tdm_loop_start ?s1] =>
      destruct (wf_loop_start s1) as (s' & -> & Hwf') end; simpl; try done.
    + rewrite Hmode. intros e He'. by apply elem_of_nil in He'.
    + eauto.
  - (* idle -> selecting *)
    eexists. split; [reflexivity|]. rewrite <- Ho.
    by apply wf_select_start.
Qed.


Lemma wf_record_delay (kc : Z) (s : tdm) : wf s -> wf (tdm_record_delay kc s).
Proof.
  intros Hwf. unfold tdm_record_delay.
  repeat match goal with |- context [if ?b then _ else _] => destruct b end;
    (apply (wf_frame s); try done; apply (mode_ok_frame s); try done;
     apply Hwf).
Qed.

Lemma wf_record_key (fuel : nat) (kc : Z) (pressed : bool) (s : tdm) :
  wf s -> MACRO_current_state s = STATE_recording ->
  TDM_BUFFER_SIZE + 2 <= Z.of_nat fuel ->
  exists s', tdm_record_key fuel kc pressed s = Some s' /\ wf s'.
Proof.
  intros Hwf Hcur Hfuel.
  destruct (rec_record_key fuel kc pressed s) as (s' & Hs' & Hframe & Hrec);
    [apply wf_rec_ok; auto | done |].
  exists s'. split; [done|].
  destruct Hwf as (Hmat & He & Hid & Hsel & Hnext & Hmode).
  unfold mode_ok in Hmode. rewrite Hcur in Hmode. destruct Hmode as [Htim _].
  apply (wf_rec_step s); try done; rewrite Hcur; done.
Qed.

(** Every key event is processed, and leaves a well-formed state. *)
Lemma wf_process (fuel : nat) (kc : Z) (pressed : bool) (s : tdm) :
  wf s ->
  TDM_BUFFER_SIZE + 3 <= Z.of_nat fuel ->
  exists r,
    process_temporal_dynamic_macro fuel kc pressed s = Some r /\ wf r.2.
Proof.
  intros Hwf Hfuel. unfold process_temporal_dynamic_macro.
  assert (forall (b : bool) (next_state : State),
            exists r,
              (r ← tdm_state_transition fuel next_state s; Some (b, r.2))
              = Some r /\ wf r.2) as Htrans.
  { intros b next_state.
    destruct (wf_transition fuel next_state s Hwf Hfuel) as (r & -> & Hr).
    simpl. eauto. }
  destruct (tdm_is_control_key kc).
  { destruct pressed; simpl; [eauto | apply Htrans]. }
  destruct (tdm_is_layer_key kc); [eauto|].
  destruct (MACRO_current_state s) eqn:Hcur; try (by eauto).
  - destruct (tdm_is_valid_key kc).
    + destruct (wf_record_key fuel kc pressed s Hwf Hcur) as (s' & -> & Hs');
        [lia|]. simpl. eauto.
    + destruct pressed; [apply Htrans | eauto].
  - destruct (tdm_is_valid_number kc), pressed; simpl;
      try (by eauto); try apply Htrans.
    eexists. split; [reflexivity|]. by apply wf_record_delay.
  - destruct pressed; simpl; [|eauto].
    destruct (tdm_is_valid_number kc); [|apply Htrans].
    eexists. split; [reflexivity|]. by apply wf_select_macro.
Qed.

Lemma tdm_play_stop_state (s : tdm) :
  MACRO_current_state (tdm_play_stop s) = MACRO_current_state s.
Proof.
  unfold tdm_play_stop.
  match goal with |- context [tdm_clear_tokens ?s0] =>
    destruct (tdm_clear_tokens_form s0) as (l & pt & dt & -> & _) end.
  reflexivity.
Qed.

Lemma mode_ok_quiet (s : tdm) :
  MACRO_current_state s = STATE_idle
  \/ MACRO_current_state s = STATE_selecting ->
  timers s = [] -> mode_ok s.
Proof. intros [E|E] Htim; unfold mode_ok; by rewrite E. Qed.

Lemma mode_ok_playing (delay : Z) (s : tdm) :
  MACRO_current_state s = STATE_playing ->
  play_finished s = false -> play_cursor s ->
  1 <= delay_token s < next_token s ->
  timers s = [(delay_token s, (delay, tdm_delay_callback_fn))] ->
  mode_ok s.
Proof. intros E. unfold mode_ok. rewrite E. eauto 10. Qed.

Lemma mode_ok_looping (t : deferred_token) (delay : Z) (s : tdm) :
  MACRO_current_state s = STATE_looping ->
  play_finished s = false -> play_cursor s ->
  1 <= play_token s ->
  timers s = [(t, (delay, tdm_loop_callback_fn))] ->
  t = play_token s \/ t = delay_token s ->
  1 <= t < next_token s ->
  mode_ok s.
Proof. intros E. unfold mode_ok. rewrite E. eauto 10. Qed.

(** [tdm_play] either completes or pauses on a deferred execution. *)
Lemma tdm_play_step (fuel : nat) (s : tdm) :
  play_cursor s ->
  TDM_BUFFER_SIZE + 2 <= Z.of_nat fuel ->
  exists s',
    tdm_play fuel s = Some s'
    /\ play_frame s s' /\ play_cursor s'
    /\ ((play_finished s' = true /\ timers s' = timers s
         /\ next_token s' = next_token s /\ delay_token s' = delay_token s)
        \/ exists delay, play_paused delay (continuation s) s s').
Proof.
  intros Hcur Hfuel.
  destruct (tdm_play_outcome fuel s Hcur Hfuel) as (s' & Hs' & Hcur' & Hout).
  exists s'. split; [exact Hs'|].
  destruct Hout as [[o ->] | (o & it & delay & ->)].
  - split; [by repeat split|]. split; [exact Hcur'|]. left. by repeat split.
  - split; [by repeat split|]. split; [exact Hcur'|]. right. exists delay.
    by repeat split.
Qed.

Lemma tdm_loop_callback_step (fuel : nat) (s : tdm) :
  ends_ok s -> id_ok s ->
  MACRO_current_state s = STATE_looping ->
  play_finished s = false -> play_cursor s ->
  TDM_BUFFER_SIZE + 2 <= Z.of_nat fuel ->
  exists r s',
    tdm_loop_callback fuel s = Some (r, s')
    /\ play_frame s s' /\ play_cursor s' /\ play_finished s' = false
    /\ ((r = TDM_DEBOUNCE_DELAY /\ timers s' = timers s
         /\ next_token s' = next_token s /\ delay_token s' = delay_token s)
        \/ (r = 0
            /\ exists delay, play_paused delay tdm_loop_callback_fn s s')).
Proof.
  intros He Hid Hmode Hpf Hcur Hfuel. unfold tdm_loop_callback.
  destruct (play_cursor_reset s He Hid) as (p & Hp & Hreset).
  match goal with |- context [tdm_play fuel ?s0] =>
    destruct (tdm_play_step fuel s0) as (s1 & -> & Hframe & Hcur1 & Hout);
      [revert Hcur; apply play_cursor_frame; reflexivity | exact Hfuel |]
  end.
  destruct Hframe as (F1 & F2 & F3 & F4 & F5 & F6). simpl in F1, F2, F3, F4, F5, F6.
  cbn [mbind option_bind].
  destruct Hout as [(Hfin & T1 & T2 & T3) | (delay & T1 & T2 & T3 & T4)].
  - simpl in T1, T2, T3. rewrite Hfin.
    rewrite (tdm_reset_iterator_at s1 p) by (by rewrite F3, F4).
    cbn [mbind option_bind]. eexists _, _. split; [reflexivity|].
    split; [by repeat split|].
    split; [apply Hreset; simpl; congruence|].
    split; [reflexivity|]. left. by repeat split.
  - simpl in T1, T2, T3, T4. rewrite T4, Hpf.
    eexists _, _. split; [reflexivity|].
    split; [by repeat split|]. split; [exact Hcur1|].
    split; [congruence|]. right. split; [done|]. exists delay.
    unfold continuation in T1. simpl in T1.
    rewrite bool_decide_eq_true_2 in T1 by done. by repeat split.
Qed.

Lemma tdm_clear_tokens_state (s : tdm) :
  MACRO_current_state (tdm_clear_tokens s) = MACRO_current_state s.
Proof.
  by destruct (tdm_clear_tokens_form s) as (l & pt & dt & -> & _).
Qed.

Lemma wf_idle_clear_tokens (s : tdm) :
  wf s -> MACRO_current_state s = STATE_idle -> wf (tdm_clear_tokens s).
Proof.
  intros (Hmat & He & Hid & Hsel & Hnext & Hmode) Hidle.
  unfold mode_ok in Hmode. rewrite Hidle in Hmode.
  destruct (tdm_clear_tokens_empties s) as (pt & dt & ->).
  { rewrite Hmode. intros e He'. by apply elem_of_nil in He'. }
  split; [done|]. split; [exact He|]. split; [done|]. split; [done|].
  split; [done|]. apply mode_ok_quiet; [by left | reflexivity].
Qed.

Lemma wf_idle_cancel (t : deferred_token) (s : tdm) :
  wf s -> MACRO_current_state s = STATE_idle ->
  wf (cancel_deferred_exec t s).
Proof.
  intros (Hmat & He & Hid & Hsel & Hnext & Hmode) Hidle.
  unfold mode_ok in Hmode. rewrite Hidle in Hmode.
  split; [done|]. split; [exact He|]. split; [done|]. split; [done|].
  split; [done|]. apply mode_ok_quiet; [by left |].
  unfold cancel_deferred_exec. simpl. by rewrite Hmode.
Qed.

Lemma tdm_delay_callback_step (fuel : nat) (s : tdm) :
  wf s ->
  MACRO_current_state s = STATE_playing ->
  TDM_BUFFER_SIZE + 3 <= Z.of_nat fuel ->
  exists s',
    tdm_delay_callback fuel s = Some (0, s')
    /\ ((wf s' /\ MACRO_current_state s' = STATE_idle)
        \/ (play_frame s s' /\ play_cursor s'
            /\ exists delay, play_paused delay tdm_delay_callback_fn s s')).
Proof.
  intros (Hmat & He & Hid & Hsel & Hnext & Hmode) Hcur Hfuel.
  unfold mode_ok in Hmode. rewrite Hcur in Hmode.
  destruct Hmode as (Hpf & Hpc & Hdt & delay & Htim).
  destruct fuel as [|fuel]; [pose proof He as (? & ? & _ & ? & ?); lia|].
  unfold tdm_delay_callback.
  match goal with |- context [tdm_play (S fuel) ?s0] =>
    destruct (tdm_play_step (S fuel) s0) as (s1 & -> & Hframe & Hcur1 & Hout);
      [revert Hpc; apply play_cursor_frame; reflexivity | lia |]
  end.
  destruct Hframe as (F1 & F2 & F3 & F4 & F5 & F6).
  simpl in F1, F2, F3, F4, F5, F6.
  cbn [mbind option_bind].
  destruct Hout as [(Hfin & T1 & T2 & T3) | (d & T1 & T2 & T3 & T4)].
  - simpl in T1, T2, T3. rewrite Hfin.
    rewrite transition_to_idle_stops by (simpl; first [congruence | left; congruence]).
    cbn [mbind option_bind fst snd]. eexists. split; [reflexivity|].
    left.
    match goal with |- context [transition_trace ?x] =>
      destruct (transition_trace_out x) as [o' ->] end.
    split; [|by rewrite tdm_clear_tokens_state, tdm_play_stop_state].
    apply wf_idle_clear_tokens; [|by rewrite tdm_play_stop_state].
    apply wf_play_stop; simpl; try congruence.
    + revert He. apply ends_ok_frame. simpl. congruence.
    + revert Hid. apply id_ok_frame. simpl. congruence.
    + intros e. rewrite T1, Htim, T3. intros He'.
      apply list_elem_of_singleton in He' as ->. simpl.
      unfold INVALID_DEFERRED_TOKEN. split; [lia | by right].
  - simpl in T1, T2, T3, T4. rewrite T4, Hpf.
    eexists. split; [reflexivity|]. right.
    split; [by repeat split|]. split; [exact Hcur1|]. exists d.
    unfold continuation in T1. simpl in T1. rewrite Hcur in T1.
    by repeat split.
Qed.

Lemma expire_single (fuel : nat) (t : deferred_token) (delay : Z)
    (cb : DeferCallback) (s : tdm) :
  timers s = [(t, (delay, cb))] ->
  deferred_exec_expire fuel t s
  = r ← run_callback fuel cb s;
    if r.1 =? 0 then Some (cancel_deferred_exec t r.2)
    else
      Some (set_timers
              (fmap (fun e : deferred_token * (Z * DeferCallback) =>
                       if bool_decide (e.1 = t) then (t, (r.1, e.2.2)) else e)
                    (timers r.2)) r.2).
Proof.
  intros Htim. unfold deferred_exec_expire. rewrite Htim. simpl.
  by rewrite decide_True.
Qed.

(** Every pending deferred execution can expire, and leaves a well-formed
    state. *)
Lemma wf_expire (fuel : nat) (s : tdm)
    (e : deferred_token * (Z * DeferCallback)) :
  wf s ->
  TDM_BUFFER_SIZE + 3 <= Z.of_nat fuel ->
  e ∈ timers s ->
  exists s', deferred_exec_expire fuel e.1 s = Some s' /\ wf s'.
Proof.
  intros Hwf Hfuel Hin.
  pose proof Hwf as (Hmat & He & Hid & Hsel & Hnext & Hmode).
  unfold mode_ok in Hmode.
  destruct (MACRO_current_state s) eqn:Hcur;
    try (rewrite Hmode in Hin; by apply elem_of_nil in Hin);
    try (destruct Hmode as [Htim Hrec]; rewrite Htim in Hin;
         by apply elem_of_nil in Hin).
  - (* playing *)
    destruct Hmode as (Hpf & Hpc & Hdt & delay & Htim).
    rewrite Htim in Hin. apply list_elem_of_singleton in Hin as ->.
    rewrite (expire_single _ _ _ _ _ Htim).
    cbn [fst snd run_callback].
    destruct (tdm_delay_callback_step fuel s Hwf Hcur Hfuel)
      as (s' & -> & Hout).
    cbn [mbind option_bind fst snd Z.eqb].
    eexists. split; [reflexivity|].
    destruct Hout as [[Hwf' Hidle] | (Hframe & Hcur' & d & Hpaused)].
    + by apply wf_idle_cancel.
    + destruct Hframe as (F1 & F2 & F3 & F4 & F5 & F6).
      destruct Hpaused as (T1 & T2 & T3 & T4).
      split; [simpl; congruence|].
      split; [revert He; apply ends_ok_frame; simpl; congruence|].
      split; [revert Hid; apply id_ok_frame; simpl; congruence|].
      split; [simpl; congruence|]. split; [simpl; lia|].
      apply (mode_ok_playing d).
      * simpl. congruence.
      * simpl. congruence.
      * revert Hcur'. apply play_cursor_frame; reflexivity.
      * simpl. lia.
      * simpl. rewrite T1, T2, Htim. simpl.
        rewrite filter_cons_False by (simpl; tauto).
        rewrite filter_cons_True by (simpl; lia). reflexivity.
  - (* looping *)
    destruct Hmode as (Hpf & Hpc & Hpt & t & delay & Htim & Ht & Hrange).
    rewrite Htim in Hin. apply list_elem_of_singleton in Hin as ->.
    rewrite (expire_single _ _ _ _ _ Htim).
    cbn [fst snd run_callback].
    destruct (tdm_loop_callback_step fuel s He Hid Hcur Hpf Hpc)
      as (r & s' & -> & Hframe & Hcur' & Hpf' & Hout); [lia|].
    cbn [mbind option_bind fst snd].
    destruct Hframe as (F1 & F2 & F3 & F4 & F5 & F6).
    destruct Hout as [(-> & T1 & T2 & T3) | (-> & d & T1 & T2 & T3 & T4)].
    + change (TDM_DEBOUNCE_DELAY =? 0) with false. cbn iota.
      eexists. split; [reflexivity|].
      split; [simpl; congruence|].
      split; [revert He; apply ends_ok_frame; simpl; congruence|].
      split; [revert Hid; apply id_ok_frame; simpl; congruence|].
      split; [simpl; congruence|]. split; [simpl; lia|].
      apply (mode_ok_looping t TDM_DEBOUNCE_DELAY).
      * simpl. congruence.
      * simpl. congruence.
      * revert Hcur'. apply play_cursor_frame; reflexivity.
      * simpl. lia.
      * simpl. rewrite T1, Htim. simpl. by rewrite bool_decide_eq_true_2.
      * simpl. destruct Ht as [Ht|Ht]; [left|right]; congruence.
      * simpl. lia.
    + cbn [Z.eqb]. eexists. split; [reflexivity|].
      split; [simpl; congruence|].
      split; [revert He; apply ends_ok_frame; simpl; congruence|].
      split; [revert Hid; apply id_ok_frame; simpl; congruence|].
      split; [simpl; congruence|]. split; [simpl; lia|].
      apply (mode_ok_looping (next_token s) d).
      * simpl. congruence.
      * simpl. congruence.
      * revert Hcur'. apply play_cursor_frame; reflexivity.
      * simpl. lia.
      * simpl. rewrite T1, Htim. simpl.
        rewrite filter_cons_False by (simpl; tauto).
        rewrite filter_cons_True by (simpl; lia). reflexivity.
      * simpl. right. congruence.
      * simpl. lia.
Qed.

(** *** Reachable states *)

Lemma wf_init :
  0 <= TDM_BUFFER_SIZE -> exists s0, tdm_init = Some s0 /\ wf s0.
Proof.
  intros Hsize. eexists. split; [reflexivity|].
  split; [reflexivity|].
  split.
  { eexists _, _. split; [reflexivity|].
    change (Z.of_nat 0 + 0) with 0. change (Z.of_nat 1 + 0) with 1.
    unfold TDM_CURRENT_START, TDM_BUFFER_START.
    change (Z.land 0 1) with 0. change (Z.land 1 1) with 1.
    change (0 `quot` 2) with 0. change (1 `quot` 2) with 0. lia. }
  split; [by left|]. split; [simpl; lia|]. split; [simpl; lia|].
  apply mode_ok_quiet; [by left | reflexivity].
Qed.

Lemma wf_step (fuel : nat) (s s' : tdm) :
  TDM_BUFFER_SIZE + 3 <= Z.of_nat fuel ->
  wf s -> step fuel s s' -> wf s'.
Proof.
  intros Hfuel Hwf Hstep. destruct Hstep as [t s s' Hexp | kc pressed s r Hr].
  - assert (exists e, e ∈ timers s /\ e.1 = t) as (e & Hin & <-).
    { unfold deferred_exec_expire in Hexp.
      destruct (list_find (fun e => e.1 = t) (timers s)) as [[i e]|] eqn:Hfind;
        [|discriminate Hexp].
      apply list_find_Some in Hfind as (Hie & Het & _).
      exists e. split; [by apply list_elem_of_lookup_2 in Hie | done]. }
    destruct (wf_expire fuel s e Hwf Hfuel Hin) as (s2 & Hs2 & Hwf2).
    congruence.
  - destruct (wf_process fuel kc pressed s Hwf Hfuel) as (r2 & Hr2 & Hwf2).
    congruence.
Qed.

(** Every state the running system reaches is well-formed. *)
Lemma reachable_wf (fuel : nat) (s : tdm) :
  TDM_BUFFER_SIZE + 3 <= Z.of_nat fuel ->
  0 <= TDM_BUFFER_SIZE ->
  reachable fuel s -> wf s.
Proof.
  intros Hfuel Hsize (s0 & Hinit & Hsteps).
  destruct (wf_init Hsize) as (s1 & Hs1 & Hwf). rewrite Hinit in Hs1.
  injection Hs1 as <-. clear Hinit.
  induction Hsteps as [s|s s' s'' Hstep _ IH]; [exact Hwf|].
  apply IH. by apply (wf_step fuel s).
Qed.



(** In every reachable state the transition table is the one
    [tdm_init_state_machine] filled in. *)
Lemma reachable_matrix (fuel : nat) (s : tdm) :
  TDM_BUFFER_SIZE + 3 <= Z.of_nat fuel ->
  0 <= TDM_BUFFER_SIZE ->
  reachable fuel s ->
  transition_matrix s = initial_matrix.
Proof.
  intros Hfuel Hsize Hreach.
  by destruct (reachable_wf fuel s Hfuel Hsize Hreach) as (Hmat & _).
Qed.


(** A reachable idle state has no deferred execution pending, and its
    current slot is ready to be played. *)
Lemma reachable_idle_ready (fuel : nat) (s : tdm) :
  TDM_BUFFER_SIZE + 3 <= Z.of_nat fuel ->
  0 <= TDM_BUFFER_SIZE ->
  reachable fuel s ->
  MACRO_current_state s = STATE_idle ->
  transition_matrix s = initial_matrix
  /\ timers s = []
  /\ slot_ready fuel s.
Proof.
  intros Hfuel Hsize Hreach Hidle.
  destruct (reachable_wf fuel s Hfuel Hsize Hreach)
    as (Hmat & He & Hid & _ & _ & Hmode).
  unfold mode_ok in Hmode. rewrite Hidle in Hmode.
  split; [done|]. split; [done|].
  destruct (ends_view s He Hid) as (m & cap & Hown & _ & Hm & Hcap).
  exists (TDM_CURRENT_START (MACRO_id s) + m * DIRECTION (MACRO_id s)),
    (Z.to_nat m).
  split; [exact Hown|]. rewrite Z2Nat.id by lia. split; [lia|]. lia.
Qed.

End Reach.


(** * Further properties of the code *)

Section Coverage.
Context `{Config}.

(** ** The slot macros *)

Lemma slot_macros_even (q : Z) :
  0 <= q ->
  Z.land (2 * q) 1 = 0 /\ (2 * q) `rem` 2 = 0 /\ (2 * q) `quot` 2 = q.
Proof.
  intros Hq.
  assert (Z.land (2 * q) 1 = (2 * q) mod 2) as ->
    by apply (Z.land_ones (2 * q) 1 ltac:(lia)).
  rewrite Z.rem_mod_nonneg, Z.quot_div_nonneg by lia.
  replace (2 * q) with (0 + q * 2) by lia.
  rewrite Z.mod_add, Z.div_add by lia. done.
Qed.

Lemma slot_macros_odd (q : Z) :
  0 <= q ->
  Z.land (2 * q + 1) 1 = 1 /\ (2 * q + 1) `rem` 2 = 1
  /\ (2 * q + 1) `quot` 2 = q.
Proof.
  intros Hq.
  assert (Z.land (2 * q + 1) 1 = (2 * q + 1) mod 2) as ->
    by apply (Z.land_ones (2 * q + 1) 1 ltac:(lia)).
  rewrite Z.rem_mod_nonneg, Z.quot_div_nonneg by lia.
  replace (2 * q + 1) with (1 + q * 2) by lia.
  rewrite Z.mod_add, Z.div_add by lia. done.
Qed.

(** The macros [DIRECTION], [NEIGHBOR], [TDM_BUFFER_START] and
    [TDM_CURRENT_START] pair the slots [2q] and [2q + 1]: each is the
    other's neighbour, they share one region, grow in opposite directions,
    and start [TDM_BUFFER_SIZE] records apart, the even one at the low end. *)
Theorem neighbor_pairs_slots (x : Z) :
  0 <= x ->
  NEIGHBOR (NEIGHBOR x) = x
  /\ NEIGHBOR x <> x
  /\ TDM_BUFFER_START (NEIGHBOR x) = TDM_BUFFER_START x
  /\ (DIRECTION x = 1 \/ DIRECTION x = -1)
  /\ DIRECTION (NEIGHBOR x) = - DIRECTION x
  /\ TDM_CURRENT_START (NEIGHBOR x) - TDM_CURRENT_START x
     = DIRECTION x * TDM_BUFFER_SIZE.
Proof.
  intros Hx.
  pose proof (Z.mod_pos_bound x 2 ltac:(lia)) as Hr.
  pose proof (Z.div_mod x 2 ltac:(lia)) as Hq.
  assert (0 <= x / 2) as Hq0 by (apply Z.div_pos; lia).
  set (q := x / 2) in *. clearbody q.
  destruct (slot_macros_even q Hq0) as (E1 & E2 & E3).
  destruct (slot_macros_odd q Hq0) as (O1 & O2 & O3).
  assert (x = 2 * q \/ x = 2 * q + 1) as [-> | ->] by lia.
  - assert (NEIGHBOR (2 * q) = 2 * q + 1) as Hn.
    { unfold NEIGHBOR. rewrite E2. lia. }
    rewrite Hn.
    unfold NEIGHBOR, TDM_CURRENT_START, TDM_BUFFER_START, DIRECTION.
    rewrite E1, E3, O1, O2, O3. repeat split; try lia.
  - assert (NEIGHBOR (2 * q + 1) = 2 * q) as Hn.
    { unfold NEIGHBOR. rewrite O2. lia. }
    rewrite Hn.
    unfold NEIGHBOR, TDM_CURRENT_START, TDM_BUFFER_START, DIRECTION.
    rewrite E1, E2, E3, O1, O3. repeat split; try lia.
Qed.

(** ** Flags *)

Lemma set_flag_flags_range (kp : tdm_keypress_t) (flag : Z) (b : bool) :
  0 <= flags (set_flag kp flag b) < 256.
Proof. unfold set_flag, uint8_t. simpl. apply Z.mod_pos_bound. lia. Qed.

Lemma keypress_eq (kp kp' : tdm_keypress_t) :
  keycode kp = keycode kp' -> delay_ms kp = delay_ms kp' ->
  flags kp = flags kp' -> kp = kp'.
Proof. destruct kp, kp'. simpl. by intros -> -> ->. Qed.

(** Writes of one flag bit compose as assignments do: the last write to a
    bit wins, writes to different bits commute, and writing the value a
    bit already has changes nothing. *)
Theorem set_flag_composes (kp : tdm_keypress_t) (k k' : Z) (b b' : bool) :
  0 <= flags kp < 256 -> 0 <= k < 8 -> 0 <= k' < 8 ->
  set_flag (set_flag kp (Z.shiftl 1 k) b) (Z.shiftl 1 k) b'
  = set_flag kp (Z.shiftl 1 k) b'
  /\ (k <> k' ->
      set_flag (set_flag kp (Z.shiftl 1 k) b) (Z.shiftl 1 k') b'
      = set_flag (set_flag kp (Z.shiftl 1 k') b') (Z.shiftl 1 k) b)
  /\ set_flag kp (Z.shiftl 1 k) (is_set kp (Z.shiftl 1 k)) = kp.
Proof.
  intros Hf Hk Hk'.
  pose proof (set_flag_flags_range kp (Z.shiftl 1 k) b) as Hf1.
  pose proof (set_flag_flags_range kp (Z.shiftl 1 k') b') as Hf2.
  split; [|split; [intros Hne|]]; (apply keypress_eq; [done | done |]);
    apply Z.bits_inj'; intros i _;
    rewrite ?set_flag_testbit by done.
  - by case_bool_decide.
  - destruct (decide (i = k)) as [->|Hik].
    + rewrite (bool_decide_eq_false_2 (k = k')) by done.
      by rewrite bool_decide_eq_true_2.
    + by rewrite (bool_decide_eq_false_2 (i = k)) by done.
  - rewrite is_set_testbit by lia. case_bool_decide; by subst.
Qed.

(** ** Number keys *)

(** With the firmware's key codes, the keys [tdm_is_valid_number] accepts
    are exactly the keys [keycode_to_int] decodes, and each decodes to a
    digit: called on an accepted key, [tdm_record_delay] and
    [tdm_select_macro] never take their [key_val == -1] branch. *)
Theorem valid_number_is_decoded (size kc : Z) :
  (tdm_is_valid_number (H := qmk_with_size size) kc = true
   <-> keycode_to_int kc <> -1)
  /\ (tdm_is_valid_number (H := qmk_with_size size) kc = true ->
      0 <= keycode_to_int kc <= 9).
Proof.
  unfold tdm_is_valid_number, keycode_to_int. simpl.
  repeat match goal with
         | |- context [?a <=? ?b] => destruct (Z.leb_spec a b)
         | |- context [?a =? ?b] => destruct (Z.eqb_spec a b)
         end; simpl; split; try split; try done; try lia.
Qed.

(** ** The delay accumulator *)

Lemma record_delay_keys_cons (kc : Z) (kcs : list Z) (s : tdm) :
  record_delay_keys (kc :: kcs) s
  = record_delay_keys kcs (tdm_record_delay kc s).
Proof. reflexivity. Qed.

Lemma record_delay_keys_value (kcs : list Z) (s : tdm) :
  0 <= MACRO_delay_next_key_ms s ->
  (forall kc, kc ∈ kcs -> keycode_to_int kc <> -1) ->
  (forall n : nat,
     (n < length kcs)%nat ->
     decimal (MACRO_delay_next_key_ms s) (take n kcs) <= 7200000) ->
  MACRO_delay_next_key_ms (record_delay_keys kcs s)
  = decimal (MACRO_delay_next_key_ms s) kcs.
Proof.
  revert s. induction kcs as [|kc kcs IH]; intros s Hacc Hkeys Hcap;
    [reflexivity|].
  rewrite record_delay_keys_cons.
  assert (keycode_to_int kc <> -1) as Hkc by (apply Hkeys; left).
  pose proof (keycode_to_int_range kc) as Hrange.
  pose proof (Hcap 0%nat ltac:(simpl; lia)) as Hcap0. simpl in Hcap0.
  assert (MACRO_delay_next_key_ms (tdm_record_delay kc s)
          = MACRO_delay_next_key_ms s * 10 + keycode_to_int kc) as Hstep.
  { rewrite tdm_record_delay_appends by done. unfold uint32_t.
    rewrite (Z.mod_small (_ * 10)) by lia. apply Z.mod_small. lia. }
  rewrite IH.
  - by rewrite Hstep.
  - lia.
  - intros kc' Hin. apply Hkeys. by right.
  - intros n Hn. rewrite Hstep.
    apply (Hcap (S n)). simpl. lia.
Qed.

(** Digits typed during delay entry are read as a decimal number: as long
    as the value typed so far is at most 7,200,000 when the next digit
    arrives, the accumulator holds the decimal value of all the keys. *)
Theorem record_delay_keys_decimal (kcs : list Z) (s : tdm) :
  0 <= MACRO_delay_next_key_ms s ->
  (forall kc, kc ∈ kcs -> keycode_to_int kc <> -1) ->
  (forall n : nat,
     (n < length kcs)%nat ->
     decimal (MACRO_delay_next_key_ms s) (take n kcs) <= 7200000) ->
  MACRO_delay_next_key_ms (record_delay_keys kcs s)
  = decimal (MACRO_delay_next_key_ms s) kcs.
Proof. apply record_delay_keys_value. Qed.

(** The cap on the accumulator as the code has it: the accumulator stays
    within 0..72,000,009, so the [uint32_t] arithmetic never wraps, and
    once it is above 7,200,000 no further key changes it. *)
Theorem record_delay_keys_bound (kcs : list Z) (s : tdm) :
  0 <= MACRO_delay_next_key_ms s <= 72000009 ->
  0 <= MACRO_delay_next_key_ms (record_delay_keys kcs s) <= 72000009
  /\ (7200000 < MACRO_delay_next_key_ms s ->
      MACRO_delay_next_key_ms (record_delay_keys kcs s)
      = MACRO_delay_next_key_ms s).
Proof.
  revert s. induction kcs as [|kc kcs IH]; intros s Hacc; [done|].
  rewrite record_delay_keys_cons.
  pose proof (tdm_record_delay_bound kc s Hacc) as Hstep.
  destruct (IH _ Hstep) as [Hbound Hstay]. split; [exact Hbound|].
  intros Hover.
  assert (MACRO_delay_next_key_ms (tdm_record_delay kc s)
          = MACRO_delay_next_key_ms s) as Hsame.
  { unfold tdm_record_delay. simpl.
    by destruct (Z.ltb_spec 7200000 (MACRO_delay_next_key_ms s)); [|lia]. }
  rewrite Hstay; rewrite Hsame; done.
Qed.

(** ** Key events *)

(** The return value of [process_temporal_dynamic_macro] tells the firmware
    whether to go on processing the key.  It is [false] for one kind of
    event only: in selecting mode, the press of a key that is neither a
    control key, a layer key nor a number key.  Every other event is passed
    on. *)
Theorem process_hides_only_selection_breaker
    (fuel : nat) (kc : Z) (pressed : bool) (s s' : tdm) (b : bool) :
  process_temporal_dynamic_macro fuel kc pressed s = Some (b, s') ->
  (b = false
   <-> MACRO_current_state s = STATE_selecting
       /\ pressed = true
       /\ tdm_is_control_key kc = false
       /\ tdm_is_layer_key kc = false
       /\ tdm_is_valid_number kc = false).
Proof.
  unfold process_temporal_dynamic_macro, tdm_is_valid_key,
    tdm_is_valid_key_user.
  intros Hp.
  destruct (tdm_is_control_key kc) eqn:Hc, (tdm_is_layer_key kc) eqn:Hl,
    (MACRO_current_state s) eqn:Hm, pressed,
    (tdm_is_valid_number kc) eqn:Hn;
    simpl in Hp;
    repeat match type of Hp with
           | context [mbind _ ?m] => destruct m; simpl in Hp
           end;
    simplify_eq; split; intros Hb; try done;
    destruct Hb as (? & ? & ? & ? & ?); done.
Qed.

(** ** Reachable states *)

Lemma run_events_steps (fuel : nat) (evs : list key_event) :
  forall s s' : tdm,
    run_events fuel evs s = Some s' -> rtc (step fuel) s s'.
Proof.
  induction evs as [|[kc pressed] evs IH]; intros s s' Hrun; simpl in Hrun.
  - injection Hrun as <-. apply rtc_refl.
  - destruct (process_temporal_dynamic_macro fuel kc pressed s) as [r|] eqn:Hr;
      [|discriminate Hrun].
    simpl in Hrun. eapply rtc_l; [|by apply IH].
    by apply (step_key fuel kc pressed).
Qed.

Lemma boot_reachable (fuel : nat) (evs : list key_event) :
  is_Some (boot fuel evs) -> reachable fuel (the_state (boot fuel evs)).
Proof.
  intros [s Hs]. rewrite Hs. simpl. unfold boot in Hs.
  destruct tdm_init as [s0|] eqn:Hinit; [|discriminate Hs]. simpl in Hs.
  exists s0. split; [done|]. by apply (run_events_steps fuel evs).
Qed.

Lemma reachable_run_events (fuel : nat) (evs : list key_event) (s s' : tdm) :
  reachable fuel s -> run_events fuel evs s = Some s' -> reachable fuel s'.
Proof.
  intros (s0 & Hinit & Hsteps) Hrun. exists s0. split; [done|].
  etrans; [exact Hsteps|]. by apply (run_events_steps fuel evs).
Qed.

(** While a macro plays or loops exactly one deferred execution is
    pending, that of the callback of the mode; in every other mode none
    is. *)
Theorem one_deferred_execution_while_playing (fuel : nat) (s : tdm) :
  TDM_BUFFER_SIZE + 3 <= Z.of_nat fuel ->
  0 <= TDM_BUFFER_SIZE ->
  reachable fuel s ->
  match MACRO_current_state s with
  | STATE_playing =>
      exists delay,
        timers s = [(delay_token s, (delay, tdm_delay_callback_fn))]
  | STATE_looping =>
      exists t delay,
        timers s = [(t, (delay, tdm_loop_callback_fn))]
        /\ (t = play_token s \/ t = delay_token s)
  | _ => timers s = []
  end.
Proof.
  intros Hfuel Hsize Hreach.
  destruct (reachable_wf fuel s Hfuel Hsize Hreach)
    as (_ & _ & _ & _ & _ & Hmode).
  unfold mode_ok in Hmode.
  destruct (MACRO_current_state s); try done.
  - by destruct Hmode as [? _].
  - by destruct Hmode as [? _].
  - by destruct Hmode as (_ & _ & _ & ?).
  - destruct Hmode as (_ & _ & _ & t & delay & ? & ? & _). eauto.
Qed.

Lemma tdm_clear_tokens_invalid (s : tdm) :
  play_token (tdm_clear_tokens s) = INVALID_DEFERRED_TOKEN
  /\ delay_token (tdm_clear_tokens s) = INVALID_DEFERRED_TOKEN.
Proof.
  unfold tdm_clear_tokens.
  destruct (decide (play_token s = INVALID_DEFERRED_TOKEN)) as [Hp|Hp];
    [rewrite (bool_decide_eq_false_2 (play_token s <> _)) by tauto
    |rewrite (bool_decide_eq_true_2 (play_token s <> _)) by done];
    simpl;
    (destruct (decide (delay_token s = INVALID_DEFERRED_TOKEN)) as [Hd|Hd];
     [rewrite (bool_decide_eq_false_2 (delay_token s <> _)) by tauto
     |rewrite (bool_decide_eq_true_2 (delay_token s <> _)) by done]);
    simpl; done.
Qed.

Lemma keycode_to_state_TDM_END : keycode_to_state TDM_END = STATE_idle.
Proof.
  unfold keycode_to_state, TDM_END, TDM_RECORD, TDM_DELAY.
  repeat match goal with
         | |- context [?a =? ?b] => destruct (Z.eqb_spec a b); try lia
         end; done.
Qed.

Lemma tdm_is_control_key_TDM_END : tdm_is_control_key TDM_END = true.
Proof.
  unfold tdm_is_control_key. rewrite (Z.eqb_refl TDM_END).
  by rewrite !orb_true_r.
Qed.

(** The explicit stop always works: while a macro plays or loops, the
    release of [TDM_END] leads to idle mode with no deferred execution
    left pending and both tokens invalid; the buffers and the slot ends
    are as they were. *)
Theorem stop_key_ends_playback (fuel : nat) (s : tdm) :
  TDM_BUFFER_SIZE + 3 <= Z.of_nat fuel ->
  0 <= TDM_BUFFER_SIZE ->
  reachable fuel s ->
  MACRO_current_state s = STATE_playing
  \/ MACRO_current_state s = STATE_looping ->
  exists s',
    process_temporal_dynamic_macro fuel TDM_END false s = Some (true, s')
    /\ MACRO_current_state s' = STATE_idle
    /\ timers s' = []
    /\ play_token s' = INVALID_DEFERRED_TOKEN
    /\ delay_token s' = INVALID_DEFERRED_TOKEN
    /\ MACRO_buffers s' = MACRO_buffers s
    /\ MACRO_ends s' = MACRO_ends s.
Proof.
  intros Hfuel Hsize Hreach Hplay.
  destruct (reachable_wf fuel s Hfuel Hsize Hreach)
    as (Hmat & He & Hid & Hsel & Hnext & Hmode).
  destruct fuel as [|fuel]; [lia|].
  unfold process_temporal_dynamic_macro.
  rewrite tdm_is_control_key_TDM_END, keycode_to_state_TDM_END.
  cbn [negb]. cbv iota.
  rewrite transition_to_idle_stops by done.
  cbn [mbind option_bind fst snd].
  destruct (transition_trace_out s) as [o ->].
  eexists. split; [reflexivity|].
  set (s1 := set_MACRO_current_state STATE_idle (set_out o s)).
  assert (forall e, e ∈ timers s1 ->
            e.1 <> INVALID_DEFERRED_TOKEN
            /\ (e.1 = play_token s1 \/ e.1 = delay_token s1)) as Htim.
  { subst s1. simpl. unfold mode_ok in Hmode. intros e Hin.
    destruct Hplay as [Hp|Hp]; rewrite Hp in Hmode.
    - destruct Hmode as (_ & _ & Hdt & delay & Htim). rewrite Htim in Hin.
      apply list_elem_of_singleton in Hin as ->. simpl.
      unfold INVALID_DEFERRED_TOKEN. split; [lia | by right].
    - destruct Hmode as (_ & _ & _ & t & delay & Htim & Ht & Hrange).
      rewrite Htim in Hin. apply list_elem_of_singleton in Hin as ->. simpl.
      unfold INVALID_DEFERRED_TOKEN. split; [lia | done]. }
  unfold tdm_play_stop.
  match goal with |- context [tdm_clear_tokens ?s2] =>
    pose proof (tdm_clear_tokens_invalid s2) as [Hpt Hdt];
    destruct (tdm_clear_tokens_empties s2) as (pt & dt & Hform);
      [exact Htim|]
  end.
  rewrite Hform in Hpt, Hdt |- *. simpl in Hpt, Hdt. done.
Qed.

(** ** Playback *)

Lemma key_emissions_emit (e : out_event) (s : tdm) :
  key_emissions (emit e s)
  = key_emissions s ++ (if is_key_emission e then [e] else []).
Proof.
  unfold key_emissions, emit. simpl. rewrite List.filter_app. simpl.
  by destruct (is_key_emission e).
Qed.

Lemma tdm_play_key_emission (kp : tdm_keypress_t) (s : tdm) :
  tdm_play_key kp s = emit (emission_of_record kp) s.
Proof.
  unfold tdm_play_key, emission_of_record, register_code, unregister_code.
  by destruct (is_set kp FLAG_pressed).
Qed.

Lemma is_key_emission_of_record (kp : tdm_keypress_t) :
  is_key_emission (emission_of_record kp) = true.
Proof. unfold emission_of_record. by destruct (is_set kp FLAG_pressed). Qed.

Lemma slot_records_frame (s s' : tdm) (it d : Z) (n : nat) :
  MACRO_buffers s' = MACRO_buffers s ->
  slot_records s' it d n = slot_records s it d n.
Proof.
  intros Hbuf. revert it. induction n as [|n IH]; intros it; simpl; [done|].
  rewrite IH. unfold record_at. by rewrite Hbuf.
Qed.


(** The loop of [tdm_play] on a stretch of [n] records none of which,
    from the second on and including the record at the end, carries a
    delay. *)
Lemma tdm_play_loop_emits (n : nat) :
  forall (fuel : nat) (s : tdm) (it : Z),
    MACRO_iterator s = Some it ->
    MACRO_end s = Some (it + Z.of_nat n * MACRO_direction s) ->
    MACRO_direction s <> 0 ->
    (n < fuel)%nat ->
    (forall i : nat,
       (1 <= i <= n)%nat ->
       delay_ms (record_at s (it + Z.of_nat i * MACRO_direction s)) = 0) ->
    exists o,
      tdm_play_loop fuel s = Some (finished o s)
      /\ List.filter is_key_emission o
         = key_emissions s
           ++ map emission_of_record
                (slot_records s it (MACRO_direction s) n).
Proof.
  induction n as [|n IH]; intros fuel s it Hit He Hdir Hfuel Hzero;
    (destruct fuel as [|fuel]; [lia|]); simpl.
  - rewrite bool_decide_eq_false_2.
    2:{ rewrite Hit, He. intros Hne. apply Hne. f_equal. lia. }
    exists (out s ++ [Uprintf "play finished %d\n"]). split.
    + unfold finished. replace (MACRO_end s) with (MACRO_iterator s);
        [reflexivity|]. rewrite Hit, He. f_equal. lia.
    + rewrite List.filter_app. reflexivity.
  - rewrite bool_decide_eq_true_2.
    2:{ rewrite Hit, He. intros [= Heq]. nia. }
    rewrite Hit. simpl. rewrite tdm_play_key_emission.
    assert (delay_ms (record_at s (it + MACRO_direction s)) = 0) as Hd.
    { rewrite <- (Hzero 1%nat) by lia. do 2 f_equal. lia. }
    match goal with |- context [if negb ?c then _ else _] =>
      replace c with true end.
    2:{ symmetry. apply Z.eqb_eq. exact Hd. }
    cbn [negb].
    match goal with |- context [tdm_play_loop fuel ?s1] =>
      destruct (IH fuel s1 (it + MACRO_direction s)) as (o & -> & Ho) end.
    + reflexivity.
    + simpl. rewrite He. f_equal. lia.
    + exact Hdir.
    + lia.
    + intros i Hi. simpl.
      replace (it + MACRO_direction s + Z.of_nat i * MACRO_direction s)
        with (it + Z.of_nat (S i) * MACRO_direction s) by lia.
      change (delay_ms (record_at s (it + Z.of_nat (S i) * MACRO_direction s))
              = 0).
      apply Hzero. lia.
    + exists o. split; [by destruct s|].
      rewrite Ho. simpl.
      rewrite (slot_records_frame s); [|reflexivity].
      unfold key_emissions at 1. simpl.
      rewrite !List.filter_app. simpl.
      rewrite is_key_emission_of_record. simpl.
      rewrite app_nil_r, <- app_assoc. reflexivity.
Qed.

(** The loop of [tdm_play] when the record [j + 1] steps ahead is the
    first that carries a delay. *)
Lemma tdm_play_loop_pauses (j : nat) :
  forall (fuel : nat) (s : tdm) (it : Z) (n : nat),
    MACRO_iterator s = Some it ->
    MACRO_end s = Some (it + Z.of_nat n * MACRO_direction s) ->
    MACRO_direction s <> 0 ->
    (j < n)%nat -> (j < fuel)%nat ->
    (forall i : nat,
       (1 <= i <= j)%nat ->
       delay_ms (record_at s (it + Z.of_nat i * MACRO_direction s)) = 0) ->
    delay_ms (record_at s (it + Z.of_nat (S j) * MACRO_direction s)) <> 0 ->
    exists o,
      tdm_play_loop fuel s
      = Some (paused o (it + Z.of_nat (S j) * MACRO_direction s)
                (delay_ms
                   (record_at s (it + Z.of_nat (S j) * MACRO_direction s)))
                (continuation s) s)
      /\ List.filter is_key_emission o
         = key_emissions s
           ++ map emission_of_record
                (slot_records s it (MACRO_direction s) (S j)).
Proof.
  induction j as [|j IH]; intros fuel s it n Hit He Hdir Hn Hfuel Hzero Hd;
    (destruct fuel as [|fuel]; [lia|]); simpl tdm_play_loop;
    (rewrite bool_decide_eq_true_2;
       [|rewrite Hit, He; intros [= Heq]; nia]);
    rewrite Hit; cbn [mbind option_bind]; rewrite tdm_play_key_emission.
  - replace (it + Z.of_nat 1 * MACRO_direction s)
      with (it + MACRO_direction s) in * by lia.
    simpl.
    match goal with |- context [if negb ?c then _ else _] =>
      replace c with false end.
    2:{ symmetry. by apply Z.eqb_neq. }
    cbn [negb]. eexists. split; [reflexivity|]. simpl.
    rewrite !List.filter_app. simpl.
    rewrite is_key_emission_of_record. simpl.
    by rewrite app_nil_r, <- app_assoc.
  - assert (delay_ms (record_at s (it + MACRO_direction s)) = 0) as Hd1.
    { rewrite <- (Hzero 1%nat) by lia. do 2 f_equal. lia. }
    simpl.
    match goal with |- context [if negb ?c then _ else _] =>
      replace c with true end.
    2:{ symmetry. apply Z.eqb_eq. exact Hd1. }
    cbn [negb].
    assert (forall i : nat,
              it + MACRO_direction s + Z.of_nat i * MACRO_direction s
              = it + Z.of_nat (S i) * MACRO_direction s) as Hshift
      by (intros i; lia).
    match goal with |- context [tdm_play_loop fuel ?s1] =>
      destruct (IH fuel s1 (it + MACRO_direction s) (pred n))
        as (o & -> & Ho) end.
    + reflexivity.
    + simpl. rewrite He. f_equal. lia.
    + exact Hdir.
    + lia.
    + lia.
    + intros i Hi. simpl. rewrite Hshift.
      change (delay_ms (record_at s (it + Z.of_nat (S i) * MACRO_direction s))
              = 0).
      apply Hzero. lia.
    + simpl. rewrite Hshift. exact Hd.
    + exists o. split.
      * simpl. rewrite !Hshift. by destruct s.
      * rewrite Ho.
        rewrite (slot_records_frame s); [|reflexivity].
        unfold key_emissions at 1. simpl.
        rewrite !List.filter_app. simpl.
        rewrite is_key_emission_of_record. simpl.
        rewrite app_nil_r, <- app_assoc. reflexivity.
Qed.

(** Playing a stretch of [n] records of which none, from the second on and
    including the record at the end of the slot, carries a delay:
    [tdm_play] calls [register_code] or [unregister_code] once for each
    record, in order, and finishes with the cursor at the end; no deferred
    execution is registered. *)
Theorem tdm_play_emits_the_records
    (fuel : nat) (s : tdm) (it : Z) (n : nat) :
  MACRO_iterator s = Some it ->
  MACRO_end s = Some (it + Z.of_nat n * MACRO_direction s) ->
  MACRO_direction s <> 0 ->
  (n < fuel)%nat ->
  (forall i : nat,
     (1 <= i <= n)%nat ->
     delay_ms (record_at s (it + Z.of_nat i * MACRO_direction s)) = 0) ->
  exists s',
    tdm_play fuel s = Some s'
    /\ key_emissions s'
       = key_emissions s
         ++ map emission_of_record (slot_records s it (MACRO_direction s) n)
    /\ play_finished s' = true
    /\ MACRO_iterator s' = MACRO_end s
    /\ timers s' = timers s
    /\ MACRO_buffers s' = MACRO_buffers s.
Proof.
  intros Hit He Hdir Hfuel Hzero. unfold tdm_play.
  match goal with |- context [tdm_play_loop fuel ?s1] =>
    destruct (tdm_play_loop_emits n fuel s1 it) as (o & -> & Ho);
      try done end.
  eexists. split; [reflexivity|]. split; [|done].
  unfold key_emissions at 1. simpl. rewrite Ho.
  rewrite (slot_records_frame s); [|reflexivity].
  unfold key_emissions. simpl. rewrite !List.filter_app. simpl.
  by rewrite !app_nil_r.
Qed.

(** Playback pauses at the first delay: when the record [j + 1] steps
    ahead of the cursor is the first that carries a delay (it may be the
    record at the end of the slot), [tdm_play] replays the [j + 1] records
    before it, leaves the cursor on it, and registers one deferred
    execution with that delay: of [tdm_loop_callback] in looping mode, of
    [tdm_delay_callback] otherwise.  [play_finished] is not set. *)
Theorem tdm_play_pauses_at_first_delay
    (fuel : nat) (s : tdm) (it : Z) (n j : nat) :
  MACRO_iterator s = Some it ->
  MACRO_end s = Some (it + Z.of_nat n * MACRO_direction s) ->
  MACRO_direction s <> 0 ->
  (j < n)%nat -> (j < fuel)%nat ->
  (forall i : nat,
     (1 <= i <= j)%nat ->
     delay_ms (record_at s (it + Z.of_nat i * MACRO_direction s)) = 0) ->
  delay_ms (record_at s (it + Z.of_nat (S j) * MACRO_direction s)) <> 0 ->
  exists s',
    tdm_play fuel s = Some s'
    /\ key_emissions s'
       = key_emissions s
         ++ map emission_of_record
              (slot_records s it (MACRO_direction s) (S j))
    /\ MACRO_iterator s'
       = Some (it + Z.of_nat (S j) * MACRO_direction s)
    /\ timers s'
       = timers s
         ++ [(next_token s,
              (delay_ms
                 (record_at s (it + Z.of_nat (S j) * MACRO_direction s)),
               if bool_decide (MACRO_current_state s = STATE_looping)
               then tdm_loop_callback_fn else tdm_delay_callback_fn))]
    /\ delay_token s' = next_token s
    /\ play_finished s' = play_finished s
    /\ MACRO_buffers s' = MACRO_buffers s.
Proof.
  intros Hit He Hdir Hn Hfuel Hzero Hd. unfold tdm_play.
  match goal with |- context [tdm_play_loop fuel ?s1] =>
    destruct (tdm_play_loop_pauses j fuel s1 it n) as (o & -> & Ho);
      try done end.
  eexists. split; [reflexivity|]. split; [|done].
  unfold key_emissions at 1. simpl. rewrite Ho.
  rewrite (slot_records_frame s); [|reflexivity].
  unfold key_emissions. simpl. rewrite !List.filter_app. simpl.
  by rewrite !app_nil_r.
Qed.

(** ** The end of a recording *)






(** ** Recording a key *)

Ltac bind_step := cbv beta iota zeta delta [mbind option_bind].











(** ** Control keys and transitions *)




Lemma transition_valid (fuel : nat) (next_state : State) (s : tdm)
    (f : TransitionFunction) :
  transition_matrix s = initial_matrix ->
  table_action (MACRO_current_state s) next_state = Some f ->
  tdm_state_transition (S fuel) next_state s
  = (s' ← call_transition fuel (tdm_state_transition fuel) f
            (set_MACRO_current_state next_state (transition_trace s));
     Some (true, s')).
Proof.
  intros Hmat Hf. simpl. by rewrite Hmat, matrix_get_initial, Hf.
Qed.

Lemma transition_invalid (fuel : nat) (next_state : State) (s : tdm) :
  transition_matrix s = initial_matrix ->
  table_action (MACRO_current_state s) next_state = None ->
  tdm_state_transition (S fuel) next_state s
  = Some (false, tdm_invalid_transition next_state s).
Proof.
  intros Hmat Hf. simpl. by rewrite Hmat, matrix_get_initial, Hf.
Qed.

Lemma transition_trace_quiet (s : tdm) :
  exists o,
    transition_trace s = set_out o s
    /\ List.filter is_key_emission o = key_emissions s.
Proof.
  exists (out (transition_trace s)). split; [reflexivity|].
  unfold transition_trace, key_emissions. simpl.
  rewrite !List.filter_app. simpl. by rewrite !app_nil_r.
Qed.

(** ** A recording session from its first key to its last *)






(** ** Playing a slot *)


Lemma tdm_clear_tokens_quiet (s : tdm) :
  exists l pt dt,
    tdm_clear_tokens s
    = set_delay_token dt (set_play_token pt (set_timers l s)).
Proof.
  destruct (tdm_clear_tokens_form s) as (l & pt & dt & Hform & _). eauto.
Qed.


(** ** Recording a macro and playing it back *)






(** ** The mode changes only along the table *)

Ltac bind_destruct H :=
  bind_step;
  match goal with
  | |- match ?m with Some _ => _ | None => None end = Some _ -> _ =>
    destruct m eqn:H; [|intros ?; discriminate]
  end.

Lemma mode_frame_refl (s : tdm) : mode_frame s s.
Proof. by split. Qed.

Lemma mode_frame_trans (s1 s2 s3 : tdm) :
  mode_frame s1 s2 -> mode_frame s2 s3 -> mode_frame s1 s3.
Proof. intros [E1 E2] [E3 E4]. split; congruence. Qed.

Lemma mode_frame_print_macros (s s' : tdm) :
  print_macros s = Some s' -> mode_frame s s'.
Proof. unfold print_macros. bind_destruct Hset. by intros [= <-]. Qed.

Lemma mode_frame_reset_iterator (s s' : tdm) :
  tdm_reset_iterator s = Some s' -> mode_frame s s'.
Proof. unfold tdm_reset_iterator. bind_destruct Hget. by intros [= <-]. Qed.

Lemma mode_frame_record_end_trim (fuel : nat) :
  forall s s' : tdm, tdm_record_end_trim fuel s = Some s' -> mode_frame s s'.
Proof.
  induction fuel as [|fuel IH]; intros s s'; [done|]. simpl.
  case_bool_decide; [|by intros [= <-]].
  bind_destruct Hit.
  match goal with |- context [if ?c then _ else _] => destruct c end;
    [|by intros [= <-]].
  intros Htrim. apply IH in Htrim. by destruct Htrim.
Qed.

Lemma mode_frame_record_end (fuel : nat) (s s' : tdm) :
  tdm_record_end fuel s = Some s' -> mode_frame s s'.
Proof.
  unfold tdm_record_end. bind_destruct Hit. bind_destruct Hp.
  bind_destruct Htrim. bind_destruct Hset.
  unfold tdm_record_end_user. intros Hp2.
  apply mode_frame_print_macros in Hp, Hp2.
  apply mode_frame_record_end_trim in Htrim.
  destruct Hp, Hp2, Htrim. split; simpl in *; congruence.
Qed.

Lemma mode_frame_record_key
    (fuel : nat) (kc : Z) (pressed : bool) (s s' : tdm) :
  tdm_record_key fuel kc pressed s = Some s' -> mode_frame s s'.
Proof.
  unfold tdm_record_key.
  destruct (negb pressed && negb (got_first_keydown s));
    [by intros [= <-]|].
  bind_step. bind_destruct Hit. bind_destruct Hnb.
  case_bool_decide.
  - intros Hend. apply mode_frame_record_end in Hend. exact Hend.
  - unfold tdm_record_key_user. bind_destruct Hp. intros [= <-].
    apply mode_frame_print_macros in Hp. destruct Hp. by split.
Qed.

Lemma mode_frame_record_delay_start_trim (fuel : nat) :
  forall s s' : tdm,
    tdm_record_delay_start_trim fuel s = Some s' -> mode_frame s s'.
Proof.
  induction fuel as [|fuel IH]; intros s s'; [done|]. simpl.
  case_bool_decide; [|by intros [= <-]].
  bind_destruct Hit.
  match goal with |- context [if ?c then _ else _] => destruct c end;
    [|by intros [= <-]].
  intros Htrim. apply IH in Htrim. by destruct Htrim.
Qed.

Lemma mode_frame_record_delay_end (s s' : tdm) :
  tdm_record_delay_end s = Some s' -> mode_frame s s'.
Proof.
  unfold tdm_record_delay_end. bind_destruct Hp. bind_destruct Hit.
  intros [= <-]. apply mode_frame_print_macros in Hp. destruct Hp.
  by split.
Qed.

Lemma mode_frame_record_delay (kc : Z) (s : tdm) :
  mode_frame s (tdm_record_delay kc s).
Proof.
  unfold tdm_record_delay.
  repeat match goal with |- context [if ?c then _ else _] => destruct c end;
    by split.
Qed.

Lemma mode_frame_select_macro (kc : Z) (s : tdm) :
  mode_frame s (tdm_select_macro kc s).
Proof.
  unfold tdm_select_macro.
  repeat match goal with |- context [if ?c then _ else _] => destruct c end;
    by split.
Qed.

Lemma mode_frame_clear_tokens (s : tdm) : mode_frame s (tdm_clear_tokens s).
Proof.
  destruct (tdm_clear_tokens_quiet s) as (l & pt & dt & ->). by split.
Qed.

Lemma mode_frame_play_loop (fuel : nat) :
  forall s s' : tdm, tdm_play_loop fuel s = Some s' -> mode_frame s s'.
Proof.
  induction fuel as [|fuel IH]; intros s s'; [done|]. simpl.
  case_bool_decide; [|by intros [= <-]].
  bind_destruct Hit. rewrite tdm_play_key_emission.
  match goal with |- context [if ?c then _ else _] => destruct c end.
  - by intros [= <-].
  - intros Hloop. apply IH in Hloop. by destruct Hloop.
Qed.

Lemma mode_frame_play (fuel : nat) (s s' : tdm) :
  tdm_play fuel s = Some s' -> mode_frame s s'.
Proof.
  unfold tdm_play. intros Hloop. apply mode_frame_play_loop in Hloop.
  by destruct Hloop.
Qed.

Lemma mode_frame_loop_start (s s' : tdm) :
  tdm_loop_start s = Some s' -> mode_frame s s'.
Proof.
  unfold tdm_loop_start.
  set (s1 := if bool_decide (play_token (tdm_play_user (MACRO_id s) s)
                             <> INVALID_DEFERRED_TOKEN)
             then tdm_clear_tokens (tdm_play_user (MACRO_id s) s)
             else tdm_play_user (MACRO_id s) s).
  assert (mode_frame s s1) as [F1 F2].
  { subst s1. case_bool_decide; [|by split].
    destruct (mode_frame_clear_tokens (tdm_play_user (MACRO_id s) s))
      as [E1 E2].
    split; [by rewrite E1 | by rewrite E2]. }
  clearbody s1. bind_destruct Hreset.
  intros [= <-]. apply mode_frame_reset_iterator in Hreset.
  destruct Hreset as [E1 E2]. split; simpl; congruence.
Qed.

Lemma mode_frame_play_stop (s : tdm) : mode_frame s (tdm_play_stop s).
Proof.
  unfold tdm_play_stop.
  match goal with |- context [tdm_clear_tokens ?x] =>
    destruct (tdm_clear_tokens_quiet x) as (l & pt & dt & ->) end.
  by split.
Qed.

Lemma table_action_play_start (from to : State) :
  table_action from to = Some tdm_play_start_fn ->
  from = STATE_idle /\ to = STATE_playing.
Proof. destruct from, to; vm_compute; intros [=]; done. Qed.

Lemma table_action_from_playing (to : State) :
  is_Some (table_action STATE_playing to) -> to = STATE_idle.
Proof. destruct to; vm_compute; intros [x [=]]; done. Qed.

Lemma mode_frame_select_end (s : tdm) : mode_frame s (tdm_select_end s).
Proof.
  unfold tdm_select_end.
  match goal with |- context [if ?c then _ else _] => destruct c end;
    split; reflexivity.
Qed.

Lemma mode_frame_emit (e : out_event) (s : tdm) : mode_frame s (emit e s).
Proof. split; reflexivity. Qed.

Ltac mode_frame_emits :=
  repeat lazymatch goal with
  | |- mode_frame ?s ?s => apply mode_frame_refl
  | |- mode_frame ?s (emit ?e ?x) =>
      apply (mode_frame_trans s x (emit e x)); [|apply mode_frame_emit]
  end.

Lemma mode_frame_record_start (s t : tdm) :
  tdm_record_start s = Some t -> mode_frame s t.
Proof.
  unfold tdm_record_start. cbv zeta. intros Hcall.
  apply mode_frame_reset_iterator in Hcall.
  eapply mode_frame_trans; [|exact Hcall].
  unfold layer_clear, clear_keyboard, tdm_record_start_user, tdm_led_blink,
    uprintf.
  mode_frame_emits.
Qed.

Lemma mode_frame_record_delay_start (fuel : nat) (s t : tdm) :
  tdm_record_delay_start fuel s = Some t -> mode_frame s t.
Proof.
  unfold tdm_record_delay_start. intros Hcall.
  apply mode_frame_record_delay_start_trim in Hcall.
  eapply mode_frame_trans; [|exact Hcall]. split; reflexivity.
Qed.

Lemma mode_frame_select_start (s : tdm) : mode_frame s (tdm_select_start s).
Proof. split; reflexivity. Qed.

(** Every entry action but [tdm_play_start] leaves the mode and the table
    alone. *)
Lemma mode_frame_call_transition (fuel : nat)
    (tr : State -> tdm -> option (bool * tdm)) (f : TransitionFunction)
    (s t : tdm) :
  f <> tdm_play_start_fn ->
  call_transition fuel tr f s = Some t ->
  mode_frame s t.
Proof.
  intros Hf. destruct f; cbn [call_transition]; intros Hcall.
  - by apply mode_frame_record_start.
  - by apply (mode_frame_record_delay_start fuel).
  - by apply mode_frame_record_delay_end.
  - by apply (mode_frame_record_end fuel).
  - done.
  - injection Hcall as <-. apply mode_frame_play_stop.
  - by apply mode_frame_loop_start.
  - injection Hcall as <-. apply mode_frame_select_start.
  - injection Hcall as <-. apply mode_frame_select_end.
Qed.

(** [tdm_play_start] leaves the mode and the table alone, or, when the
    macro has played to its end, requests the transition to idle. *)
Lemma tdm_play_start_cases (fuel : nat)
    (tr : State -> tdm -> option (bool * tdm)) (s t : tdm) :
  tdm_play_start fuel tr s = Some t ->
  mode_frame s t
  \/ exists (y : tdm) (r : bool * tdm),
       mode_frame s y /\ tr STATE_idle y = Some r /\ t = r.2.
Proof.
  unfold tdm_play_start. bind_destruct Hreset. bind_destruct Hplay.
  apply mode_frame_reset_iterator in Hreset.
  apply mode_frame_play in Hplay.
  destruct Hreset as [R1 R2], Hplay as [P1 P2].
  assert (mode_frame s t1) as Hframe.
  { split; [rewrite P1; exact R1 | rewrite P2; exact R2]. }
  clear R1 R2 P1 P2. clear t0.
  destruct (play_finished t1).
  - match goal with |- context [tdm_clear_tokens ?x] =>
      pose proof (mode_frame_clear_tokens x) as [C1 C2];
      set (y := tdm_clear_tokens x) in * end.
    assert (mode_frame t1 y) as Hy by (split; [exact C1 | exact C2]).
    clearbody y. clear C1 C2.
    destruct (tr STATE_idle y) as [r|] eqn:Hidle; [|discriminate].
    intros [= <-]. right. exists y, r. split; [|done].
    by apply (mode_frame_trans s t1 y).
  - intros [= <-]. by left.
Qed.

(** [tdm_state_transition] leaves the table alone and moves the mode
    along it; the one transition that goes two steps, idle to playing
    and on to idle when the macro has no delay, ends where it began. *)
Lemma transition_along_the_table (fuel : nat) :
  forall (next_state : State) (s : tdm) (r : bool * tdm),
    transition_matrix s = initial_matrix ->
    tdm_state_transition fuel next_state s = Some r ->
    transition_matrix r.2 = initial_matrix /\ along_the_table s r.2.
Proof.
  induction fuel as [|fuel IH]; intros next_state s r Hmat; [done|].
  destruct (table_action (MACRO_current_state s) next_state) as [f|] eqn:Hf.
  2:{ rewrite (transition_invalid fuel next_state s Hmat Hf).
      intros [= <-]. split; [exact Hmat | left; reflexivity]. }
  rewrite (transition_valid fuel next_state s f Hmat Hf).
  destruct (transition_trace_out s) as [o ->].
  set (s1 := set_MACRO_current_state next_state (set_out o s)).
  assert (MACRO_current_state s1 = next_state) as Hm1 by reflexivity.
  assert (transition_matrix s1 = initial_matrix) as Hmat1 by exact Hmat.
  clearbody s1.
  assert (forall t' : tdm,
            mode_frame s1 t' ->
            transition_matrix t' = initial_matrix /\ along_the_table s t')
    as Hframe.
  { intros t' [E1 E2]. split; [congruence|]. right.
    rewrite E1, Hm1, Hf. by eexists. }
  destruct (decide (f = tdm_play_start_fn)) as [->|Hne].
  2:{ bind_destruct Hcall. intros [= <-]. cbn [snd]. apply Hframe.
      by apply (mode_frame_call_transition fuel
                  (tdm_state_transition fuel) f). }
  cbn [call_transition]. bind_destruct Hcall. intros [= <-]. cbn [snd].
  apply tdm_play_start_cases in Hcall
    as [Hsame | (y & r' & [Y1 Y2] & Hidle & ->)]; [by apply Hframe|].
  destruct (IH STATE_idle y r') as [Hmat' Halong]; [congruence|done|].
  split; [exact Hmat'|].
  apply table_action_play_start in Hf as [Hs Hn].
  assert (MACRO_current_state y = STATE_playing) as Hy by congruence.
  destruct Halong as [Hsame | Hstep].
  - right. rewrite Hsame, Hy, Hs. vm_compute. by eexists.
  - rewrite Hy in Hstep. apply table_action_from_playing in Hstep.
    left. congruence.
Qed.

Lemma along_the_table_frame (s s' : tdm) :
  transition_matrix s = initial_matrix -> mode_frame s s' ->
  transition_matrix s' = initial_matrix /\ along_the_table s s'.
Proof. intros Hmat [E1 E2]. split; [congruence | by left]. Qed.

Lemma along_the_table_after (s s1 s' : tdm) :
  mode_frame s s1 -> along_the_table s1 s' -> along_the_table s s'.
Proof. unfold along_the_table. intros [E1 _]. by rewrite E1. Qed.

Lemma along_the_table_before (s s1 s' : tdm) :
  along_the_table s s1 -> mode_frame s1 s' -> along_the_table s s'.
Proof. unfold along_the_table. intros Ha [E1 _]. by rewrite E1. Qed.

Lemma process_along_the_table
    (fuel : nat) (kc : Z) (pressed : bool) (s : tdm) (r : bool * tdm) :
  transition_matrix s = initial_matrix ->
  process_temporal_dynamic_macro fuel kc pressed s = Some r ->
  transition_matrix r.2 = initial_matrix /\ along_the_table s r.2.
Proof.
  intros Hmat. unfold process_temporal_dynamic_macro.
  assert (forall (b : bool) (next_state : State),
            (r' ← tdm_state_transition fuel next_state s; Some (b, r'.2))
            = Some r ->
            transition_matrix r.2 = initial_matrix /\ along_the_table s r.2)
    as Htrans.
  { intros b next_state.
    destruct (tdm_state_transition fuel next_state s) as [r'|] eqn:Hr';
      [|discriminate].
    intros [= <-]. cbn [snd].
    by apply (transition_along_the_table fuel next_state s r'). }
  assert (forall b : bool,
            Some (b, s) = Some r ->
            transition_matrix r.2 = initial_matrix /\ along_the_table s r.2)
    as Hsame.
  { intros b [= <-]. split; [exact Hmat | by left]. }
  destruct (tdm_is_control_key kc).
  { destruct pressed; cbn [negb]; [apply Hsame | apply Htrans]. }
  destruct (tdm_is_layer_key kc); [apply Hsame|].
  destruct (MACRO_current_state s) eqn:Hm; try apply Hsame.
  - destruct (tdm_is_valid_key kc).
    + destruct (tdm_record_key fuel kc pressed s) as [s'|] eqn:Hkey;
        [|discriminate].
      intros [= <-]. apply along_the_table_frame; [exact Hmat|].
      by apply (mode_frame_record_key fuel kc pressed).
    + destruct pressed; [apply Htrans | apply Hsame].
  - destruct (tdm_is_valid_number kc), pressed; cbn [andb negb];
      try apply Hsame; try apply Htrans.
    intros [= <-]. apply along_the_table_frame; [exact Hmat|].
    apply mode_frame_record_delay.
  - destruct pressed; cbn [negb]; [|apply Hsame].
    destruct (tdm_is_valid_number kc); [|apply Htrans].
    intros [= <-]. apply along_the_table_frame; [exact Hmat|].
    apply mode_frame_select_macro.
Qed.

Lemma delay_callback_along_the_table (fuel : nat) (s : tdm) (r : Z * tdm) :
  transition_matrix s = initial_matrix ->
  tdm_delay_callback fuel s = Some r ->
  transition_matrix r.2 = initial_matrix /\ along_the_table s r.2.
Proof.
  intros Hmat. unfold tdm_delay_callback. cbv zeta. bind_destruct Hplay.
  apply mode_frame_play in Hplay.
  assert (mode_frame s t) as Hst.
  { eapply mode_frame_trans; [|exact Hplay]. apply mode_frame_emit. }
  clear Hplay. destruct (play_finished t).
  - match goal with |- context [tdm_state_transition _ _ ?x] =>
      assert (mode_frame t x) as Htx by apply mode_frame_emit;
      set (y := x) in *; clearbody y end.
    pose proof (mode_frame_trans s t y Hst Htx) as [Y1 Y2].
    bind_step.
    destruct (tdm_state_transition fuel STATE_idle y) as [r'|] eqn:Hidle;
      [|discriminate].
    intros [= <-]. cbn [snd].
    apply transition_along_the_table in Hidle as [Hmat' Halong];
      [|congruence].
    destruct (mode_frame_clear_tokens r'.2) as [C1 C2].
    split; [congruence|].
    apply (along_the_table_before _ r'.2); [|by split].
    revert Halong. apply along_the_table_after. by split.
  - intros [= <-]. by apply along_the_table_frame.
Qed.

Lemma loop_callback_along_the_table (fuel : nat) (s : tdm) (r : Z * tdm) :
  transition_matrix s = initial_matrix ->
  tdm_loop_callback fuel s = Some r ->
  transition_matrix r.2 = initial_matrix /\ along_the_table s r.2.
Proof.
  intros Hmat. unfold tdm_loop_callback. cbv zeta. bind_destruct Hplay.
  apply mode_frame_play in Hplay.
  assert (mode_frame s t) as Hst.
  { eapply mode_frame_trans; [|exact Hplay]. apply mode_frame_emit. }
  clear Hplay. destruct (play_finished t).
  - bind_step. destruct (tdm_reset_iterator t) as [t'|] eqn:Hreset;
      [|discriminate].
    intros [= <-]. cbn [snd].
    apply mode_frame_reset_iterator in Hreset.
    apply along_the_table_frame; [exact Hmat|].
    by apply (mode_frame_trans s t t').
  - intros [= <-]. by apply along_the_table_frame.
Qed.

Lemma expire_along_the_table
    (fuel : nat) (t : deferred_token) (s s' : tdm) :
  transition_matrix s = initial_matrix ->
  deferred_exec_expire fuel t s = Some s' ->
  transition_matrix s' = initial_matrix /\ along_the_table s s'.
Proof.
  intros Hmat. unfold deferred_exec_expire.
  destruct (list_find (fun e => e.1 = t) (timers s)) as [[i e]|];
    [|discriminate].
  bind_step. cbn [snd].
  assert (forall r : Z * tdm,
            run_callback fuel e.2.2 s = Some r ->
            transition_matrix r.2 = initial_matrix
            /\ along_the_table s r.2) as Hcb.
  { intros r. destruct e.2.2; cbn [run_callback].
    - by apply delay_callback_along_the_table.
    - by apply loop_callback_along_the_table. }
  destruct (run_callback fuel e.2.2 s) as [r|]; [|discriminate].
  destruct (Hcb r eq_refl) as [Hmat' Halong].
  destruct (r.1 =? 0); intros [= <-]; (split; [exact Hmat'|]);
    (apply (along_the_table_before _ r.2); [exact Halong | by split]).
Qed.

Lemma step_key_to (fuel : nat) (kc : Z) (pressed : bool) (s : tdm)
    (b : bool) (s' : tdm) :
  process_temporal_dynamic_macro fuel kc pressed s = Some (b, s') ->
  step fuel s s'.
Proof. intros Hr. exact (step_key fuel kc pressed s (b, s') Hr). Qed.

(** The state machine is never bypassed.  Whatever happens (any key
    event, any expiry of a deferred execution), the transition table is
    left as [tdm_init_state_machine] filled it, and the mode afterwards is
    the mode before or one the table allows from it. *)
Theorem mode_changes_follow_the_table (fuel : nat) (s s' : tdm) :
  transition_matrix s = initial_matrix ->
  step fuel s s' ->
  transition_matrix s' = initial_matrix
  /\ (MACRO_current_state s' = MACRO_current_state s
      \/ is_Some (table_action (MACRO_current_state s)
                    (MACRO_current_state s'))).
Proof.
  intros Hmat Hstep. destruct Hstep as [t s s' Hexp | kc pressed s r Hr].
  - by apply (expire_along_the_table fuel t).
  - by apply (process_along_the_table fuel kc pressed).
Qed.

(** ** Selecting a slot *)





(** ** The collision guard *)

(** When the collision guard of [tdm_record_key] fires (the position one
    step behind the cursor is the neighbour's end), the event is dropped
    and the slot is saved as by [tdm_record_end], but the function is
    called directly, not through a transition: no record is written and
    the mode stays what it was, so in recording mode the next key events
    are still handed to [tdm_record_key]. *)
Theorem collision_guard_keeps_the_mode
    (fuel : nat) (kc : Z) (pressed : bool) (s : tdm) (it : Z) :
  cursor_ok fuel s ->
  MACRO_iterator s = Some it ->
  array_get (MACRO_ends s) (NEIGHBOR (MACRO_id s))
  = Some (Some (it - MACRO_direction s)) ->
  negb pressed && negb (got_first_keydown s) = false ->
  exists s',
    tdm_record_key fuel kc pressed s = Some s'
    /\ tdm_record_end fuel (set_got_first_keydown true s) = Some s'
    /\ MACRO_buffers s' = MACRO_buffers s
    /\ MACRO_current_state s' = MACRO_current_state s
    /\ transition_matrix s' = transition_matrix s.
Proof.
  intros Hc Hit Hnb Hlead. unfold tdm_record_key. rewrite Hlead.
  cbv iota. bind_step.
  change (MACRO_iterator (set_got_first_keydown true s))
    with (MACRO_iterator s).
  change (MACRO_ends (set_got_first_keydown true s)) with (MACRO_ends s).
  change (MACRO_id (set_got_first_keydown true s)) with (MACRO_id s).
  change (MACRO_direction (set_got_first_keydown true s))
    with (MACRO_direction s).
  rewrite Hit, Hnb. rewrite bool_decide_eq_true_2 by done.
  destruct (tdm_record_end_total fuel (set_got_first_keydown true s))
    as (s' & Hs' & Hbuf & Hmode).
  { destruct Hc as (st & k & ? & ? & ? & ?). by exists st, k. }
  exists s'. split; [exact Hs'|]. split; [exact Hs'|].
  split; [exact Hbuf|]. split; [exact Hmode|].
  apply mode_frame_record_end in Hs'. by destruct Hs'.
Qed.

(** ** Entering a delay *)







(** ** The end of a delay *)

Lemma filter_all_out (t : deferred_token)
    (l : list (deferred_token * (Z * DeferCallback))) :
  (forall e, e ∈ l -> e.1 = t) ->
  filter (fun e => e.1 <> t) l = [].
Proof.
  intros Hall. induction l as [|e l IH]; [reflexivity|].
  rewrite filter_cons_False.
  - apply IH. intros e' He'. apply Hall. by right.
  - intros Hne. apply Hne, Hall. by left.
Qed.

Lemma tdm_clear_tokens_shape (s : tdm) :
  exists l,
    tdm_clear_tokens s
    = set_delay_token INVALID_DEFERRED_TOKEN
        (set_play_token INVALID_DEFERRED_TOKEN (set_timers l s))
    /\ (forall e, e ∈ l -> e ∈ timers s).
Proof.
  unfold tdm_clear_tokens, cancel_deferred_exec.
  destruct (decide (play_token s = INVALID_DEFERRED_TOKEN)) as [Hp|Hp];
    [rewrite (bool_decide_eq_false_2 (play_token s <> _)) by tauto
    |rewrite (bool_decide_eq_true_2 (play_token s <> _)) by done];
    simpl;
    (destruct (decide (delay_token s = INVALID_DEFERRED_TOKEN)) as [Hd|Hd];
     [rewrite (bool_decide_eq_false_2 (delay_token s <> _)) by tauto
     |rewrite (bool_decide_eq_true_2 (delay_token s <> _)) by done]).
  - exists (timers s). split; [|done].
    destruct s; simpl in *; subst; reflexivity.
  - exists (filter (fun e => e.1 <> delay_token s) (timers s)).
    split; [destruct s; simpl in *; subst; reflexivity|].
    intros e He. by apply list_elem_of_filter in He as [_ He].
  - exists (filter (fun e => e.1 <> play_token s) (timers s)).
    split; [destruct s; simpl in *; subst; reflexivity|].
    intros e He. by apply list_elem_of_filter in He as [_ He].
  - exists (filter (fun e => e.1 <> delay_token s)
              (filter (fun e => e.1 <> play_token s) (timers s))).
    split; [reflexivity|]. intros e He.
    by do 2 apply list_elem_of_filter in He as [_ He].
Qed.

(** When the delay of a paused playback has elapsed (playing mode, the
    one pending deferred execution expires), [tdm_delay_callback] goes
    on with the record the playback paused on.  If none of the records
    after it, up to and including the record at the end of the slot,
    carries a delay, the [n] records that were left are played in order,
    the mode is idle afterwards, no deferred execution is pending and
    both tokens are invalid. *)
Theorem delay_expiry_finishes_playback
    (fuel : nat) (s : tdm) (it : Z) (n : nat) (delay : Z) :
  transition_matrix s = initial_matrix ->
  MACRO_current_state s = STATE_playing ->
  timers s = [(delay_token s, (delay, tdm_delay_callback_fn))] ->
  MACRO_iterator s = Some it ->
  MACRO_end s = Some (it + Z.of_nat n * MACRO_direction s) ->
  MACRO_direction s <> 0 ->
  (n < fuel)%nat ->
  (forall i : nat,
     (1 <= i <= n)%nat ->
     delay_ms (record_at s (it + Z.of_nat i * MACRO_direction s)) = 0) ->
  exists s',
    deferred_exec_expire fuel (delay_token s) s = Some s'
    /\ key_emissions s'
       = key_emissions s
         ++ map emission_of_record (slot_records s it (MACRO_direction s) n)
    /\ MACRO_current_state s' = STATE_idle
    /\ timers s' = []
    /\ play_token s' = INVALID_DEFERRED_TOKEN
    /\ delay_token s' = INVALID_DEFERRED_TOKEN
    /\ MACRO_buffers s' = MACRO_buffers s
    /\ MACRO_ends s' = MACRO_ends s.
Proof.
  intros Hmat Hmode Htim Hit He Hdir Hfuel Hzero.
  unfold deferred_exec_expire. rewrite Htim.
  cbn [list_find]. rewrite decide_True by reflexivity.
  cbn [fmap option_fmap option_map]. bind_step. cbn [snd fst run_callback].
  unfold tdm_delay_callback, tdm_play. cbv zeta.
  match goal with |- context [tdm_play_loop fuel ?x] =>
    destruct (tdm_play_loop_emits n fuel x it) as (o1 & -> & Ho1)
  end; [exact Hit | exact He | exact Hdir | exact Hfuel | exact Hzero |].
  bind_step.
  change (play_finished (finished o1 _)) with true. cbv iota.
  destruct fuel as [|fuel]; [lia|].
  rewrite transition_to_idle_stops; [|exact Hmat | by left].
  bind_step. cbn [snd fst].
  match goal with |- context [transition_trace ?x] =>
    destruct (transition_trace_quiet x) as (o2 & -> & Ho2) end.
  unfold tdm_play_stop.
  match goal with |- context [tdm_play_stop_user _ (tdm_clear_tokens ?x)] =>
    destruct (tdm_clear_tokens_shape x) as (l2 & -> & Hl2) end.
  match goal with |- context [tdm_clear_tokens ?x] =>
    destruct (tdm_clear_tokens_shape x) as (l3 & -> & Hl3) end.
  change (0 =? 0) with true. cbv iota.
  eexists. split; [reflexivity|].
  split.
  { unfold key_emissions at 1. simpl out.
    rewrite !List.filter_app, Ho2. simpl.
    rewrite !app_nil_r.
    unfold key_emissions at 1. simpl out.
    rewrite !List.filter_app, Ho1. simpl. rewrite !app_nil_r.
    unfold key_emissions at 1. simpl out.
    rewrite !List.filter_app. simpl. rewrite !app_nil_r.
    f_equal. f_equal. apply slot_records_frame. reflexivity. }
  split; [reflexivity|].
  split.
  { unfold cancel_deferred_exec. simpl timers. apply filter_all_out.
    intros e Hin. apply Hl3 in Hin. simpl in Hin. apply Hl2 in Hin.
    simpl in Hin. rewrite Htim in Hin.
    apply list_elem_of_singleton in Hin. by subst e. }
  repeat split.
Qed.
End Coverage.

(** * Concrete runs: witnesses, a counterexample, and what the code does
      where it departs from its own documentation *)

Lemma set_flag_sets_only_its_bit_witness :
  let kp := {| keycode := 4; delay_ms := 150; flags := 0xA4 |} in
  let kp' := set_flag kp (Z.shiftl 1 0) true in
  is_set kp' (Z.shiftl 1 0) = true
  /\ (forall i, i <> 0 -> Z.testbit (flags kp') i = Z.testbit (flags kp) i)
  /\ keycode kp' = keycode kp
  /\ delay_ms kp' = delay_ms kp.
Proof.
  apply (set_flag_sets_only_its_bit
           {| keycode := 4; delay_ms := 150; flags := 0xA4 |} 0 true);
    simpl; lia.
Defined.




Lemma loop_never_self_terminates_witness :
  exists r,
    process_temporal_dynamic_macro (H := qmk) 100 (TDM_LOOP (H := qmk)) false
      (the_state macro_with_delay_recorded) = Some r
    /\ forall s',
         rtc (quiet_step (H := qmk) 100) r.2 s' ->
         MACRO_current_state s' = STATE_looping
         /\ timers s' <> []
         /\ (forall e, e ∈ timers s' ->
               exists s'',
                 deferred_exec_expire (H := qmk) 100 e.1 s' = Some s''
                 /\ MACRO_current_state s'' = STATE_looping).
Proof.
  apply (loop_never_self_terminates (H := qmk) 100
           (the_state macro_with_delay_recorded)).
  - vm_compute. reflexivity.
  - vm_compute. reflexivity.
  - vm_compute. reflexivity.
  - exists 3, 3%nat. vm_compute. repeat split; try reflexivity. lia.
Defined.

(** C1: region of capacity 4.  Slot 0 holds [KC_A] down, [KC_A] up, [KC_B]
    down in records 0..2 (its end is 3).  Recording one tap of [KC_C] into
    slot 1 clears the flags of record 2, inside slot 0's occupied range:
    slot 0 then plays [KC_B] up where [KC_B] down was recorded. *)
Theorem neighbor_record_overwritten :
  exists s s',
    slot0_recorded = Some s /\ slot1_recorded = Some s'
    /\ MACRO_ends s = [Some 3; Some 4]
    /\ record_at s 2 = {| keycode := 5; delay_ms := 0; flags := 1 |}
    /\ MACRO_ends s' = [Some 3; Some 3]
    /\ record_at s' 2 = {| keycode := 5; delay_ms := 0; flags := 0 |}
    /\ key_emissions <$> run_events (H := size4) 100 play_slot0 s
       = Some [RegisterCode 4; UnregisterCode 4; RegisterCode 5]
    /\ key_emissions <$> run_events (H := size4) 100 play_slot0 s'
       = Some [RegisterCode 4; UnregisterCode 4; UnregisterCode 5].
Proof.
  eexists _, _. split; [vm_compute; reflexivity|].
  split; [vm_compute; reflexivity|].
  repeat split; vm_compute; reflexivity.
Qed.

(** C2: region of capacity 4, slot 1 empty, four events recorded into slot
    0: the next write position, 4, is the neighbour's end, and still the
    fifth event is written, into record 4, and the recording goes on; only
    the sixth event ends it, with a slot end of 5. *)
Theorem fifth_event_is_written :
  exists s s' s'',
    four_events_recorded = Some s
    /\ MACRO_current_state s = STATE_recording
    /\ MACRO_iterator s = Some 4
    /\ array_get (MACRO_ends s) (NEIGHBOR (MACRO_id s)) = Some (Some 4)
    /\ process_temporal_dynamic_macro (H := size4) 100 6 true s
       = Some (true, s')
    /\ record_at s' 4 = {| keycode := 6; delay_ms := 0; flags := 1 |}
    /\ MACRO_iterator s' = Some 5
    /\ ~ in_bounds (H := size4) 4
    /\ process_temporal_dynamic_macro (H := size4) 100 7 true s'
       = Some (true, s'')
    /\ MACRO_buffers s'' = MACRO_buffers s'
    /\ MACRO_ends s'' = [Some 5; Some 4].
Proof.
  eexists _, _, _. split; [vm_compute; reflexivity|].
  do 3 (split; [vm_compute; reflexivity|]).
  split; [vm_compute; reflexivity|].
  do 2 (split; [vm_compute; reflexivity|]).
  split; [vm_compute; intros [_ Hlt]; discriminate Hlt|].
  split; [vm_compute; reflexivity|].
  split; vm_compute; reflexivity.
Qed.

(** C3: recording a tap of [KC_A] and playing it back emits the press
    only: [tdm_record_end] has trimmed the release. *)
Theorem tap_round_trip_loses_release :
  key_emissions <$> tap_recorded_then_played = Some [RegisterCode 4]
  /\ emission_of <$> tap 4 = [RegisterCode 4; UnregisterCode 4].
Proof. split; vm_compute; reflexivity. Qed.

(** C4: with the default region size of 50, the first event recorded into
    slot 1 is written to record 50, one past the last record of
    [MACRO_buffers]. *)
Theorem odd_slot_writes_past_the_array :
  exists s,
    odd_slot_first_key = Some s
    /\ MACRO_id s = 1
    /\ MACRO_buffers s !! 50
       = Some {| keycode := 4; delay_ms := 0; flags := 1 |}
    /\ TDM_CURRENT_START (H := qmk) 1 = 50
    /\ ~ in_bounds (H := qmk) 50.
Proof.
  eexists. split; [vm_compute; reflexivity|].
  repeat split; try (vm_compute; reflexivity).
  unfold in_bounds. vm_compute. intros [_ Hlt]. discriminate Hlt.
Qed.

(** C5: in a second recording session the release that arrives before any
    press is stored in record 0 and the cursor advances. *)
Theorem second_session_records_leading_release :
  exists s s',
    second_session_begun = Some s
    /\ MACRO_current_state s = STATE_recording
    /\ MACRO_iterator s = Some 0
    /\ process_temporal_dynamic_macro (H := qmk) 100 5 false s
       = Some (true, s')
    /\ record_at s' 0 = {| keycode := 5; delay_ms := 0; flags := 0 |}
    /\ MACRO_iterator s' = Some 1.
Proof.
  eexists _, _. split; [vm_compute; reflexivity|].
  do 3 (split; [vm_compute; reflexivity|]).
  split; vm_compute; reflexivity.
Qed.

(** C6: seven digits 9 are all accepted: the accumulator reaches
    9,999,999, above the cap of 7,200,000, and ending the delay entry
    stores that value as a [delay_ms]. *)
Theorem seven_nines_exceed_the_cap :
  exists s s',
    seven_nines_entered = Some s
    /\ MACRO_current_state s = STATE_recording_delay
    /\ MACRO_delay_next_key_ms s = 9999999
    /\ run_events (H := qmk) 100 (tap (TDM_RECORD (H := qmk))) s = Some s'
    /\ delay_ms (record_at s' 2) = 9999999
    /\ 7200000 < 9999999.
Proof.
  eexists _, _. split; [vm_compute; reflexivity|].
  do 3 (split; [vm_compute; reflexivity|]).
  split; [vm_compute; reflexivity | lia].
Qed.

(** ** The further properties at concrete inputs *)

Lemma neighbor_pairs_slots_witness :
  NEIGHBOR (NEIGHBOR 3) = 3 /\ NEIGHBOR 3 <> 3
  /\ TDM_BUFFER_START (H := qmk) (NEIGHBOR 3) = TDM_BUFFER_START (H := qmk) 3
  /\ (DIRECTION 3 = 1 \/ DIRECTION 3 = -1)
  /\ DIRECTION (NEIGHBOR 3) = - DIRECTION 3
  /\ TDM_CURRENT_START (H := qmk) (NEIGHBOR 3) - TDM_CURRENT_START (H := qmk) 3
     = DIRECTION 3 * TDM_BUFFER_SIZE (Config := qmk).
Proof. apply (neighbor_pairs_slots (H := qmk) 3). lia. Defined.

Lemma set_flag_composes_witness :
  let kp := {| keycode := 4; delay_ms := 150; flags := 0xA4 |} in
  set_flag (set_flag kp (Z.shiftl 1 0) true) (Z.shiftl 1 0) false
  = set_flag kp (Z.shiftl 1 0) false
  /\ (0 <> 5 ->
      set_flag (set_flag kp (Z.shiftl 1 0) true) (Z.shiftl 1 5) false
      = set_flag (set_flag kp (Z.shiftl 1 5) false) (Z.shiftl 1 0) true)
  /\ set_flag kp (Z.shiftl 1 0) (is_set kp (Z.shiftl 1 0)) = kp.
Proof.
  apply (set_flag_composes
           {| keycode := 4; delay_ms := 150; flags := 0xA4 |} 0 5 true false);
    simpl; lia.
Defined.

Lemma record_delay_keys_decimal_witness :
  let s := the_state (tdm_init (H := qmk)) in
  let kcs := [KC_1 (Config := qmk); KC_1 (Config := qmk) + 4;
              KC_0 (Config := qmk)] in
  MACRO_delay_next_key_ms (record_delay_keys (H := qmk) kcs s)
  = decimal (MACRO_delay_next_key_ms s) kcs.
Proof.
  apply (record_delay_keys_decimal (H := qmk)
           [KC_1 (Config := qmk); KC_1 (Config := qmk) + 4;
            KC_0 (Config := qmk)]
           (the_state (tdm_init (H := qmk)))).
  - vm_compute. discriminate.
  - intros kc Hkc. repeat (apply elem_of_cons in Hkc as [->|Hkc]).
    + vm_compute. discriminate.
    + vm_compute. discriminate.
    + vm_compute. discriminate.
    + by apply elem_of_nil in Hkc.
  - intros [|[|[|n]]] Hn; [| | |simpl in Hn; lia]; vm_compute; discriminate.
Defined.

Lemma record_delay_keys_bound_witness :
  let s := the_state seven_nines_entered in
  let kcs := [KC_1 (Config := qmk); KC_0 (Config := qmk)] in
  0 <= MACRO_delay_next_key_ms (record_delay_keys (H := qmk) kcs s)
    <= 72000009
  /\ (7200000 < MACRO_delay_next_key_ms s ->
      MACRO_delay_next_key_ms (record_delay_keys (H := qmk) kcs s)
      = MACRO_delay_next_key_ms s).
Proof.
  apply (record_delay_keys_bound (H := qmk)
           [KC_1 (Config := qmk); KC_0 (Config := qmk)]
           (the_state seven_nines_entered)).
  vm_compute. split; discriminate.
Defined.

Lemma process_hides_only_selection_breaker_witness :
  let s := the_state selection_begun in
  false = false
  <-> MACRO_current_state s = STATE_selecting
      /\ true = true
      /\ tdm_is_control_key (H := qmk) 4 = false
      /\ tdm_is_layer_key (H := qmk) 4 = false
      /\ tdm_is_valid_number (H := qmk) 4 = false.
Proof.
  apply (process_hides_only_selection_breaker (H := qmk) 100 4 true
           (the_state selection_begun)
           (the_state
              (snd <$> process_temporal_dynamic_macro (H := qmk) 100 4 true
                         (the_state selection_begun)))
           false).
  vm_compute. reflexivity.
Defined.

Lemma one_deferred_execution_while_playing_witness :
  exists t delay,
    timers (the_state delay_macro_looping)
    = [(t, (delay, tdm_loop_callback_fn))]
    /\ (t = play_token (the_state delay_macro_looping)
        \/ t = delay_token (the_state delay_macro_looping)).
Proof.
  apply (one_deferred_execution_while_playing (H := qmk) 100
           (the_state delay_macro_looping)).
  - vm_compute. discriminate.
  - vm_compute. discriminate.
  - apply (boot_reachable (H := qmk)). vm_compute. eexists. reflexivity.
Defined.

Lemma stop_key_ends_playback_witness :
  let s := the_state delay_macro_looping in
  exists s',
    process_temporal_dynamic_macro (H := qmk) 100 (TDM_END (H := qmk)) false s
    = Some (true, s')
    /\ MACRO_current_state s' = STATE_idle
    /\ timers s' = []
    /\ play_token s' = INVALID_DEFERRED_TOKEN
    /\ delay_token s' = INVALID_DEFERRED_TOKEN
    /\ MACRO_buffers s' = MACRO_buffers s
    /\ MACRO_ends s' = MACRO_ends s.
Proof.
  apply (stop_key_ends_playback (H := qmk) 100
           (the_state delay_macro_looping)).
  - vm_compute. discriminate.
  - vm_compute. discriminate.
  - apply (boot_reachable (H := qmk)). vm_compute. eexists. reflexivity.
  - right. vm_compute. reflexivity.
Defined.

Lemma tdm_play_emits_the_records_witness :
  let s := the_state (three_records_played ≫= tdm_reset_iterator (H := qmk)) in
  exists s',
    tdm_play 100 s = Some s'
    /\ key_emissions s'
       = key_emissions s
         ++ map emission_of_record (slot_records s 0 (MACRO_direction s) 3)
    /\ play_finished s' = true
    /\ MACRO_iterator s' = MACRO_end s
    /\ timers s' = timers s
    /\ MACRO_buffers s' = MACRO_buffers s.
Proof.
  apply (tdm_play_emits_the_records 100
           (the_state (three_records_played ≫= tdm_reset_iterator (H := qmk)))
           0 3).
  - vm_compute. reflexivity.
  - vm_compute. reflexivity.
  - vm_compute. discriminate.
  - lia.
  - intros i Hi.
    assert (i = 1 \/ i = 2 \/ i = 3)%nat as [->|[->| ->]] by lia;
      vm_compute; reflexivity.
Defined.

Lemma tdm_play_pauses_at_first_delay_witness :
  let s := the_state delay_macro_looping in
  exists s',
    tdm_play 100 s = Some s'
    /\ key_emissions s'
       = key_emissions s
         ++ map emission_of_record (slot_records s 0 (MACRO_direction s) 2)
    /\ MACRO_iterator s' = Some (0 + Z.of_nat 2 * MACRO_direction s)
    /\ timers s'
       = timers s
         ++ [(next_token s,
              (delay_ms (record_at s (0 + Z.of_nat 2 * MACRO_direction s)),
               if bool_decide (MACRO_current_state s = STATE_looping)
               then tdm_loop_callback_fn else tdm_delay_callback_fn))]
    /\ delay_token s' = next_token s
    /\ play_finished s' = play_finished s
    /\ MACRO_buffers s' = MACRO_buffers s.
Proof.
  apply (tdm_play_pauses_at_first_delay 100
           (the_state delay_macro_looping) 0 3 1).
  - vm_compute. reflexivity.
  - vm_compute. reflexivity.
  - vm_compute. discriminate.
  - lia.
  - lia.
  - intros i Hi. assert (i = 1)%nat as -> by lia. vm_compute. reflexivity.
  - vm_compute. discriminate.
Defined.





Lemma mode_changes_follow_the_table_witness :
  let s := the_state (tdm_init (H := qmk)) in
  let s' := the_state (boot (H := qmk) 100 [release (TDM_RECORD (H := qmk))]) in
  transition_matrix s' = initial_matrix
  /\ (MACRO_current_state s' = MACRO_current_state s
      \/ is_Some (table_action (MACRO_current_state s)
                    (MACRO_current_state s'))).
Proof.
  apply (mode_changes_follow_the_table (H := qmk) 100
           (the_state (tdm_init (H := qmk)))
           (the_state
              (boot (H := qmk) 100 [release (TDM_RECORD (H := qmk))]))).
  - vm_compute. reflexivity.
  - apply (step_key_to (H := qmk) 100 (TDM_RECORD (H := qmk)) false _ true).
    vm_compute. reflexivity.
Defined.


Lemma collision_guard_keeps_the_mode_witness :
  let s := the_state five_events_recorded in
  exists s',
    tdm_record_key (H := size4) 100 6 false s = Some s'
    /\ tdm_record_end (H := size4) 100 (set_got_first_keydown true s)
       = Some s'
    /\ MACRO_buffers s' = MACRO_buffers s
    /\ MACRO_current_state s' = MACRO_current_state s
    /\ transition_matrix s' = transition_matrix s.
Proof.
  apply (collision_guard_keeps_the_mode (H := size4) 100 6 false
           (the_state five_events_recorded) 5).
  - exists 0, 5%nat. split; [vm_compute; reflexivity|].
    split; [vm_compute; reflexivity|]. split; [lia|].
    vm_compute. split; [discriminate | reflexivity].
  - vm_compute. reflexivity.
  - vm_compute. reflexivity.
  - vm_compute. reflexivity.
Defined.





Lemma delay_expiry_finishes_playback_witness :
  let s := the_state delay_macro_playing in
  exists s',
    deferred_exec_expire (H := qmk) 100 (delay_token s) s = Some s'
    /\ key_emissions s'
       = key_emissions s
         ++ map emission_of_record (slot_records s 2 (MACRO_direction s) 1)
    /\ MACRO_current_state s' = STATE_idle
    /\ timers s' = []
    /\ play_token s' = INVALID_DEFERRED_TOKEN
    /\ delay_token s' = INVALID_DEFERRED_TOKEN
    /\ MACRO_buffers s' = MACRO_buffers s
    /\ MACRO_ends s' = MACRO_ends s.
Proof.
  apply (delay_expiry_finishes_playback (H := qmk) 100
           (the_state delay_macro_playing) 2 1 150).
  - vm_compute. reflexivity.
  - vm_compute. reflexivity.
  - vm_compute. reflexivity.
  - vm_compute. reflexivity.
  - vm_compute. reflexivity.
  - vm_compute. discriminate.
  - lia.
  - intros i Hi. assert (i = 1)%nat as -> by lia. vm_compute. reflexivity.
Defined.
